(** * Mixture Discriminant Analysis ([mda.py]): a shallow embedding

    The class [MDA] of [Mixture Discriminant Analysis/mda.py] fits, by
    expectation-maximisation, one Gaussian mixture per class with a pooled
    covariance matrix.  This file embeds the methods of that class as Rocq
    functions on an explicit object state and proves properties of them.

    Conventions of the embedding.
    - A [numpy] float is a [num]: an exact rational ([Qc]) or one of the
      IEEE special values [PInf], [NInf], [NaN].  Finite arithmetic is exact
      (no rounding, no overflow, no signed zero); the special values follow
      the IEEE rules that [numpy] applies ([0/0 = NaN], [x/0 = ±Inf],
      [0 * Inf = NaN], every comparison with [NaN] is false).  [numpy] only
      warns on a division by zero, it does not raise.
    - The file is Python 2 and does not import [division] from [__future__]:
      [/] between two arrays of an integer dtype is the floor division.  The
      only such division of the class is the one of [_class_prior_compute],
      whose operands have the dtype of the label array; the object therefore
      records that dtype ([Y_dtype]).  Every other division has a float
      operand.
    - A 2-d array is the list of its rows; a matrix without rows has no
      columns.  The embedding covers objects whose arrays have the shapes the
      constructor gives them ([len(clusters) = k], labels [n × k], data
      [n × m], and so on).  Outside these shapes Python raises ([IndexError]
      for a read outside an array, [ValueError] for operands whose shapes do
      not fit), where the functions below read the poison value [NaN]
      (respectively [0], [[]]) or truncate to the shorter operand: they say
      nothing about such objects, and every theorem whose statement depends
      on it carries the shape hypotheses.
    - [scipy.stats.multivariate_normal.pdf], [numpy.log] and
      [sklearn.cluster.KMeans] are external: they are parameters of the
      development.
    - Instance attributes are the fields of the record [MDA]; the module-level
      names a method can see are the record [globals]; [print] appends an
      [event] to an output log; a raised exception carries the object state at
      the moment it is raised. *)

From Stdlib Require Import QArith Qround Qcanon Lia.
From stdpp Require Import base numbers list.

Open Scope Qc_scope.

(** ** Numbers *)

Inductive num : Type :=
  | Fin (q : Qc)
  | PInf
  | NInf
  | NaN.

#[global] Instance num_inhabited : Inhabited num := populate NaN.

#[global] Instance num_eq_dec : EqDecision num.
Proof. solve_decision. Defined.

Definition nopp (x : num) : num :=
  match x with
  | Fin a => Fin (- a)
  | PInf => NInf
  | NInf => PInf
  | NaN => NaN
  end.

Definition nadd (x y : num) : num :=
  match x, y with
  | NaN, _ | _, NaN => NaN
  | Fin a, Fin b => Fin (a + b)
  | PInf, NInf | NInf, PInf => NaN
  | PInf, _ | _, PInf => PInf
  | NInf, _ | _, NInf => NInf
  end.

Definition nsub (x y : num) : num := nadd x (nopp y).

(** The sign of a number, [None] for [NaN]. *)
Definition nsign (x : num) : option comparison :=
  match x with
  | Fin a => Some (a ?= 0)
  | PInf => Some Gt
  | NInf => Some Lt
  | NaN => None
  end.

Definition inf_of_sign (s t : comparison) : num :=
  match s, t with
  | Eq, _ | _, Eq => NaN
  | Gt, Gt | Lt, Lt => PInf
  | Gt, Lt | Lt, Gt => NInf
  end.

Definition nmul (x y : num) : num :=
  match x, y with
  | Fin a, Fin b => Fin (a * b)
  | _, _ =>
      match nsign x, nsign y with
      | Some s, Some t => inf_of_sign s t
      | _, _ => NaN
      end
  end.

Definition ndiv (x y : num) : num :=
  match x, y with
  | NaN, _ | _, NaN => NaN
  | Fin a, Fin b =>
      if decide (b = 0)
      then match a ?= 0 with Eq => NaN | Gt => PInf | Lt => NInf end
      else Fin (a / b)
  | Fin _, _ => Fin 0
  | _, Fin b => if decide (b < 0) then nopp x else x
  | _, _ => NaN
  end.

(** [x / y] in Python 2 between two numbers of an integer dtype: the floor
    of the quotient, and [0] for a zero divisor ([numpy] warns).  Such numbers
    are finite integers. *)
Definition nfloordiv (x y : num) : num :=
  match x, y with
  | Fin a, Fin b =>
      if decide (b = 0) then Fin 0
      else Fin (Q2Qc (inject_Z (Qfloor (a / b))))
  | _, _ => NaN
  end.

Definition nabs (x : num) : num :=
  match x with
  | Fin a => Fin (if decide (a < 0) then - a else a)
  | PInf | NInf => PInf
  | NaN => NaN
  end.

(** [x > y]; false as soon as one side is [NaN]. *)
Definition ngtb (x y : num) : bool :=
  match x, y with
  | NaN, _ | _, NaN => false
  | Fin a, Fin b => bool_decide (b < a)
  | PInf, PInf | NInf, _ | _, PInf => false
  | PInf, _ | _, NInf => true
  end.

Definition nltb (x y : num) : bool := ngtb y x.

(** [x == y]. *)
Definition neqb (x y : num) : bool :=
  match x, y with
  | NaN, _ | _, NaN => false
  | _, _ => bool_decide (x = y)
  end.

Definition of_nat (n : nat) : num := Fin (Q2Qc (inject_Z (Z.of_nat n))).

Abbreviation vector := (list num).
Abbreviation matrix := (list (list num)).

(** ** Array operations, generic in the scalars

    The array operations the methods use, over any scalar type with a zero,
    an addition and a multiplication.  They are used at [num] by the program
    and at [Qc] by the proofs. *)

Section Arrays.
Context {T : Type} (dflt zero : T) (add mul : T → T → T).

(** [np.sum(v)] *)
Definition vsum (v : list T) : T := foldr add zero v.

Definition ncols (M : list (list T)) : nat :=
  match M with
  | [] => 0%nat
  | r :: _ => length r
  end.

(** [r[j]]; [dflt] stands for a read outside [r]. *)
Definition entry (r : list T) (j : nat) : T := default dflt (r !! j).

(** [M[:,j]] *)
Definition col (j : nat) (M : list (list T)) : list T :=
  map (λ r, entry r j) M.

(** [M.T] *)
Definition transpose (M : list (list T)) : list (list T) :=
  map (λ j, col j M) (seq 0 (ncols M)).

Definition dot (u v : list T) : T := vsum (zip_with mul u v).

(** [np.dot(A, B)] for 2-d arrays *)
Definition matmul (A B : list (list T)) : list (list T) :=
  map (λ r, map (λ j, dot r (col j B)) (seq 0 (ncols B))) A.

(** [np.diagflat(v)] *)
Definition diagflat (v : list T) : list (list T) :=
  imap (λ i x, <[i:=x]> (replicate (length v) zero)) v.

(** [np.outer(u, v)] *)
Definition outer (u v : list T) : list (list T) :=
  map (λ a, map (mul a) v) u.

(** [np.sum(M, axis=1)] *)
Definition sum_axis1 (M : list (list T)) : list T := map vsum M.

(** [np.zeros([r, c])] *)
Definition zeros (r c : nat) : list (list T) := replicate r (replicate c zero).
End Arrays.

(** [M[:,j] = v] *)
Definition set_col {T} (j : nat) (v : list T) (M : list (list T)) : list (list T) :=
  zip_with (λ r x, <[j:=x]> r) M v.

(** Elementwise operation on two arrays of one shape. *)
Definition mat_zip {T} (op : T → T → T) (A B : list (list T)) : list (list T) :=
  zip_with (zip_with op) A B.

(** The operations at [num]. *)
Definition n0 : num := Fin 0.
Definition n1 : num := Fin 1.
Abbreviation nvsum := (vsum n0 nadd).
Abbreviation ncol := (col NaN).
Abbreviation ntranspose := (transpose NaN).
Abbreviation ndot := (dot n0 nadd nmul).
Abbreviation nmatmul := (matmul NaN n0 nadd nmul).
Abbreviation ndiagflat := (diagflat n0).
Abbreviation nouter := (outer nmul).
Abbreviation nsum_axis1 := (sum_axis1 n0 nadd).
Abbreviation nzeros := (zeros n0).
Abbreviation nones := (λ c : nat, replicate c n1).

(** [np.sum(M, axis=0)] of an array with [c] columns *)
Definition nsum_axis0 (c : nat) (M : matrix) : vector :=
  map (λ j, nvsum (ncol j M)) (seq 0 c).

(** [np.eye(m)] *)
Definition neye (m : nat) : matrix := ndiagflat (nones m).

(** [a / n] for an array [a] and a Python integer [n] *)
Definition mat_div_nat (M : matrix) (n : nat) : matrix :=
  map (map (λ x, ndiv x (of_nat n))) M.

(** [l[-k]] *)
Definition from_end (l : vector) (k : nat) : num := l !!! (length l - k)%nat.

(** ** The object state *)

Inductive exn : Type := NameError | TypeError | ValueError.

(** The result of a call: a value, or an exception together with the object
    as the exception leaves it. *)
Inductive result (A S : Type) : Type :=
  | Ok (a : A)
  | Raise (e : exn) (s : S).
Arguments Ok {A S} a.
Arguments Raise {A S} e s.

Inductive event : Type :=
  | InitComplete                          (* "Initialization step complete" *)
  | IterCompleted (i : nat) (lb : num)    (* "iteration i completed, ..." *)
  | AlgorithmConverged.                   (* "algorithm converged" *)

(** The dtype of an array, as far as the division of Python 2
    distinguishes it: an integer one (also [bool], whose sums are integers)
    or a float one. *)
Inductive dtype : Type := dt_int | dt_float.

(** A label array as [__init__] receives it: its dtype and its rows. *)
Record ndarray : Type := { arr_dtype : dtype; arr_rows : matrix }.

Definition float_array (M : matrix) : ndarray :=
  {| arr_dtype := dt_float; arr_rows := M |}.
Definition int_array (M : matrix) : ndarray :=
  {| arr_dtype := dt_int; arr_rows := M |}.

(** The attributes [__init__] sets, under their names in the source; [Y] is
    held as its rows [Y] and its dtype [Y_dtype], which is also the dtype of
    [freq]. *)
Record MDA : Type := {
  Y : matrix;
  Y_dtype : dtype;
  X : matrix;
  n : nat;
  m : nat;
  k : nat;
  clusters : list nat;
  class_prior : vector;
  latent_var_prior : list vector;
  freq : vector;
  covar : matrix;
  mu : list matrix;
  responsibilities : list matrix;
  lower_bounds : vector;
  kmeans_maxiter : nat;
  kmeans_retsarts : nat;
  max_iter : nat;
  kmeans_theshold : num;
  mda_threshold : num;
  verbose : bool;
  accuracy : num
}.

(** The module namespace as a method sees it: the name [X] is bound only
    when the file runs as a script (its [__main__] block assigns it). *)
Record globals : Type := { g_X : option matrix }.

Definition set_latent_var_prior (st : MDA) (v : list vector) : MDA :=
  {| Y := Y st; Y_dtype := Y_dtype st; X := X st; n := n st; m := m st; k := k st;
     clusters := clusters st; class_prior := class_prior st;
     latent_var_prior := v; freq := freq st; covar := covar st;
     mu := mu st; responsibilities := responsibilities st;
     lower_bounds := lower_bounds st; kmeans_maxiter := kmeans_maxiter st;
     kmeans_retsarts := kmeans_retsarts st; max_iter := max_iter st;
     kmeans_theshold := kmeans_theshold st; mda_threshold := mda_threshold st;
     verbose := verbose st; accuracy := accuracy st |}.

Definition set_mu (st : MDA) (v : list matrix) : MDA :=
  {| Y := Y st; Y_dtype := Y_dtype st; X := X st; n := n st; m := m st; k := k st;
     clusters := clusters st; class_prior := class_prior st;
     latent_var_prior := latent_var_prior st; freq := freq st;
     covar := covar st; mu := v; responsibilities := responsibilities st;
     lower_bounds := lower_bounds st; kmeans_maxiter := kmeans_maxiter st;
     kmeans_retsarts := kmeans_retsarts st; max_iter := max_iter st;
     kmeans_theshold := kmeans_theshold st; mda_threshold := mda_threshold st;
     verbose := verbose st; accuracy := accuracy st |}.

Definition set_covar (st : MDA) (v : matrix) : MDA :=
  {| Y := Y st; Y_dtype := Y_dtype st; X := X st; n := n st; m := m st; k := k st;
     clusters := clusters st; class_prior := class_prior st;
     latent_var_prior := latent_var_prior st; freq := freq st;
     covar := v; mu := mu st; responsibilities := responsibilities st;
     lower_bounds := lower_bounds st; kmeans_maxiter := kmeans_maxiter st;
     kmeans_retsarts := kmeans_retsarts st; max_iter := max_iter st;
     kmeans_theshold := kmeans_theshold st; mda_threshold := mda_threshold st;
     verbose := verbose st; accuracy := accuracy st |}.

Definition set_class_prior (st : MDA) (v : vector) : MDA :=
  {| Y := Y st; Y_dtype := Y_dtype st; X := X st; n := n st; m := m st; k := k st;
     clusters := clusters st; class_prior := v;
     latent_var_prior := latent_var_prior st; freq := freq st;
     covar := covar st; mu := mu st; responsibilities := responsibilities st;
     lower_bounds := lower_bounds st; kmeans_maxiter := kmeans_maxiter st;
     kmeans_retsarts := kmeans_retsarts st; max_iter := max_iter st;
     kmeans_theshold := kmeans_theshold st; mda_threshold := mda_threshold st;
     verbose := verbose st; accuracy := accuracy st |}.

(** One E-step leaves the responsibilities and one more lower bound. *)
Definition set_e_step (st : MDA) (r : list matrix) (lb : vector) : MDA :=
  {| Y := Y st; Y_dtype := Y_dtype st; X := X st; n := n st; m := m st; k := k st;
     clusters := clusters st; class_prior := class_prior st;
     latent_var_prior := latent_var_prior st; freq := freq st;
     covar := covar st; mu := mu st; responsibilities := r;
     lower_bounds := lb; kmeans_maxiter := kmeans_maxiter st;
     kmeans_retsarts := kmeans_retsarts st; max_iter := max_iter st;
     kmeans_theshold := kmeans_theshold st; mda_threshold := mda_threshold st;
     verbose := verbose st; accuracy := accuracy st |}.

Definition set_responsibilities (st : MDA) (r : list matrix) : MDA :=
  set_e_step st r (lower_bounds st).

(** ** [bounded_variable] *)

(** [x[x>hi] = hi; x[x<lo] = lo; return x], on the fresh array [x]. *)
Definition bounded_variable (x : vector) (lo hi : num) : vector :=
  let x1 := map (λ v, if ngtb v hi then hi else v) x in
  map (λ v, if nltb v lo then lo else v) x1.

(** ** [_m_step] *)

(** [self.Y[:,i] * self.responsibilities[i][:,j]] *)
Definition class_indicator (st : MDA) (i j : nat) : vector :=
  zip_with nmul (ncol i (Y st)) (ncol j (responsibilities st !!! i)).

(** The body of the two loops of [_m_step], for class [i] and component [j];
    [covar] is the local accumulator.  The name [X] in the computation of the
    means is the module-level one: unbound, its evaluation raises
    [NameError].  This is the body on arrays of the constructor's shapes, the
    module-level [X] included ([n × m]); on other shapes [np.dot] and the
    column assignment raise [ValueError] and the indexings [IndexError],
    which the body does not model. *)
Definition m_step_body (g : globals) (i j : nat) (acc : MDA * matrix)
    : result (MDA * matrix) MDA :=
  let '(st, covar) := acc in
  let class_indicator := class_indicator st i j in
  let st := set_latent_var_prior st
    (<[i := <[j := ndiv (nvsum class_indicator) (freq st !!! i)]>
              (latent_var_prior st !!! i)]> (latent_var_prior st)) in
  match g_X g with
  | None => Raise NameError st
  | Some gX =>
      let weighted_means :=
        nsum_axis1 (nmatmul (ntranspose gX) (ndiagflat class_indicator)) in
      let st := set_mu st
        (<[i := set_col j
                  (map (λ x, ndiv x (nvsum class_indicator)) weighted_means)
                  (mu st !!! i)]> (mu st)) in
      let centered :=
        mat_zip nsub (X st)
          (ntranspose (nouter (ncol j (mu st !!! i)) (nones (n st)))) in
      let addition :=
        nmatmul (nmatmul (ntranspose centered) (ndiagflat class_indicator))
                centered in
      Ok (st, mat_zip nadd covar addition)
  end.

(** [for x in xs: acc = body x acc], stopping at the first exception. *)
Fixpoint for_each {I A S} (body : I → A → result A S) (xs : list I) (acc : A)
    : result A S :=
  match xs with
  | [] => Ok acc
  | x :: xs' =>
      match body x acc with
      | Ok acc' => for_each body xs' acc'
      | Raise e s => Raise e s
      end
  end.

Definition m_step_class (g : globals) (i : nat) (acc : MDA * matrix)
    : result (MDA * matrix) MDA :=
  for_each (m_step_body g i) (seq 0 (clusters (fst acc) !!! i)) acc.

Definition m_step (g : globals) (st : MDA) : result MDA MDA :=
  match for_each (m_step_class g) (seq 0 (k st)) (st, nzeros (m st) (m st)) with
  | Ok (st', covar) => Ok (set_covar st' (mat_div_nat covar (n st')))
  | Raise e s => Raise e s
  end.

(** ** [__init__] *)

(** Decimal literals of the source. *)
Definition dec (num_ : Z) (den : positive) : num := Fin (Q2Qc (num_ # den)).
Definition lit_1e_5 : num := dec 1 100000.
Definition lit_1e_20 : num := dec 1 100000000000000000000.
Definition lit_0_001 : num := dec 1 1000.

(** The keyword arguments of [__init__]. *)
Record options : Type := {
  max_iter_init : nat;
  init_restarts : nat;
  init_conv_theshold : num;
  iter_conv_threshold : num;
  opt_max_iter : nat;
  opt_verbose : bool;
  opt_accuracy : num
}.

(** Their default values in the signature. *)
Definition default_options : options :=
  {| max_iter_init := 300;
     init_restarts := 2;
     init_conv_theshold := lit_1e_5;
     iter_conv_threshold := lit_1e_20;
     opt_max_iter := 300;
     opt_verbose := true;
     opt_accuracy := lit_1e_5 |}.

(** The attributes as [__init__] assigns them.  [self.clusters[i]] is read
    for every [i < k]: with fewer than [k] entries in [clusters] Python raises
    [IndexError] at line 67 and builds no object; [init] is the constructor
    for [k ≤ len(clusters)]. *)
Definition init (gt : ndarray) (X_ : matrix) (clusters_ : list nat) (k_ : nat)
    (o : options) : MDA :=
  let n_ := length X_ in
  let m_ := ncols X_ in
  {| Y := arr_rows gt;
     Y_dtype := arr_dtype gt;
     X := X_;
     n := n_;
     m := m_;
     k := k_;
     clusters := clusters_;
     class_prior := replicate m_ n0;
     latent_var_prior :=
       map (λ i, map (λ x, ndiv x (of_nat (clusters_ !!! i)))
                     (nones (clusters_ !!! i)))
           (seq 0 k_);
     freq := nsum_axis0 (ncols (arr_rows gt)) (arr_rows gt);
     covar := neye m_;
     mu := map (λ i, nzeros m_ (clusters_ !!! i)) (seq 0 k_);
     responsibilities :=
       map (λ i, map (map (nmul lit_0_001)) (nzeros n_ (clusters_ !!! i)))
           (seq 0 k_);
     lower_bounds := [];
     kmeans_maxiter := max_iter_init o;
     kmeans_retsarts := init_restarts o;
     max_iter := opt_max_iter o;
     kmeans_theshold := init_conv_theshold o;
     mda_threshold := iter_conv_threshold o;
     verbose := opt_verbose o;
     accuracy := opt_accuracy o |}.

#[global] Instance dtype_eq_dec : EqDecision dtype.
Proof. solve_decision. Defined.
#[global] Instance exn_eq_dec : EqDecision exn.
Proof. solve_decision. Defined.
#[global] Instance event_eq_dec : EqDecision event.
Proof. solve_decision. Defined.
#[global] Instance MDA_eq_dec : EqDecision MDA.
Proof. solve_decision. Defined.
#[global] Instance result_eq_dec {A B : Type} `{EqDecision A, EqDecision B} :
  EqDecision (result A B).
Proof. solve_decision. Defined.

(** Closed equations between values of the program are decided by
    evaluation. *)
Ltac by_eval := apply (bool_decide_unpack _); vm_compute; exact I.

(** ** The external primitives *)

(** The keyword arguments of [sklearn.cluster.KMeans] that matter here;
    [None] for [n_init] means the argument is not passed and the library's
    own default applies. *)
Inductive km_init : Type := k_means_pp | km_random.

Record KMeans : Type := {
  n_clusters : nat;
  km_max_iter : nat;
  init_method : km_init;
  tol : num;
  n_init : option nat
}.

Section Program.
(** [mvn.pdf(x, mean, cov)]: one density per row of [x]. *)
Variable mvn_pdf : matrix → vector → matrix → vector.
(** [np.log] on one number. *)
Variable ln : num → num.
(** [kmeans.fit(x)] followed by [kmeans.predict(x)]: one cluster index per
    row of [x], or [None] when the library raises. *)
Variable fit_predict : KMeans → matrix → option (list nat).

(** ** [_e_step_lower_bound_likelihood] *)

(** The body of the inner loop, for component [j] of class [i]; [resp_k] is
    the array [self.responsibilities[i]], updated in place. *)
Definition e_step_body (st : MDA) (i j : nat) (acc : matrix * num)
    : matrix * num :=
  let '(resp_k, lower_bound) := acc in
  let prior :=
    bounded_variable (mvn_pdf (X st) (ncol j (mu st !!! i)) (covar st))
                     (accuracy st) (nsub n1 (accuracy st)) in
  let weighting := zip_with nmul (ncol i (Y st)) (ncol j resp_k) in
  let w :=
    zip_with nadd
      (zip_with nmul weighting (map ln prior))
      (map (λ x, nmul x (ln ((latent_var_prior st !!! i) !!! j))) weighting) in
  let lower_bound := nadd lower_bound (nvsum w) in
  let resp_k :=
    set_col j (map (λ p, nmul p ((latent_var_prior st !!! i) !!! j)) prior)
            resp_k in
  (resp_k, lower_bound).

(** The body of the outer loop: all components, then the normalisation. *)
Definition e_step_class (st : MDA) (i : nat) (acc : matrix * num)
    : matrix * num :=
  let '(resp_k, lower_bound) :=
    foldl (λ a j, e_step_body st i j a) acc (seq 0 (clusters st !!! i)) in
  let normaliser := nsum_axis1 resp_k in
  (mat_zip ndiv resp_k (nouter normaliser (nones (clusters st !!! i))),
   lower_bound).

(** [for i, resp_k in enumerate(self.responsibilities)] *)
Fixpoint e_step_classes (st : MDA) (i : nat) (resps : list matrix)
    (lower_bound : num) : list matrix * num :=
  match resps with
  | [] => ([], lower_bound)
  | resp_k :: rest =>
      let '(resp_k', lb) := e_step_class st i (resp_k, lower_bound) in
      let '(rest', lb') := e_step_classes st (S i) rest lb in
      (resp_k' :: rest', lb')
  end.

Definition e_step (st : MDA) : MDA :=
  let '(resps, lower_bound) :=
    e_step_classes st 0 (responsibilities st) n0 in
  set_e_step st resps (lower_bounds st ++ [lower_bound]).

(** ** [posterior_probs] *)

(** The inner loop: [class_prob] of class [k_] after its components. *)
Definition posterior_body (st : MDA) (k_ j : nat) (class_prob : vector)
    : vector :=
  let p :=
    bounded_variable (mvn_pdf (X st) (ncol j (mu st !!! k_)) (covar st))
                     (accuracy st) (nsub n1 (accuracy st)) in
  zip_with nadd class_prob
           (map (λ x, nmul x ((latent_var_prior st !!! k_) !!! j)) p).

(** The body of the outer loop, for class [k_] with [cluster] components.
    [self.class_prior[k_]] is an [IndexError] outside the array (as on an
    object not yet trained, whose placeholder has [m] entries, when [m ≤ k_]);
    the body covers [k_ < len(class_prior)]. *)
Definition posterior_class (st : MDA) (posterior : matrix)
    (kc : nat * nat) : matrix :=
  let '(k_, cluster) := kc in
  let class_prob :=
    foldl (λ a j, posterior_body st k_ j a) (replicate (n st) n0)
          (seq 0 cluster) in
  set_col k_ (map (λ x, nmul x (class_prior st !!! k_)) class_prob) posterior.

(** The method takes no argument besides [self]. *)
Definition posterior_probs (st : MDA) : matrix :=
  let posterior :=
    foldl (posterior_class st) (nzeros (n st) (k st))
          (imap pair (clusters st)) in
  mat_zip ndiv posterior (nouter (nsum_axis1 posterior) (nones (k st))).

(** A call of [mda.posterior_probs] with the arguments [args]: Python checks the number of
    arguments against the signature [def posterior_probs(self)]. *)
Definition call_posterior_probs (st : MDA) (args : list matrix)
    : result matrix MDA :=
  match args with
  | [] => Ok (posterior_probs st)
  | _ :: _ => Raise TypeError st
  end.

(** ** [_class_prior_compute] *)

(** [x / y] in Python 2 for operands of the dtype [d]. *)
Definition py2_div (d : dtype) (x y : num) : num :=
  match d with
  | dt_int => nfloordiv x y
  | dt_float => ndiv x y
  end.

(** [self.class_prior = self.freq/np.sum(self.freq)]; [freq] has the dtype of
    the label array. *)
Definition class_prior_compute (st : MDA) : MDA :=
  set_class_prior st
    (map (λ f, py2_div (Y_dtype st) f (nvsum (freq st))) (freq st)).

(** ** [_initialise_params] *)

(** [self.Y[:,i]==1] *)
Definition label_mask (st : MDA) (i : nat) : list bool :=
  map (λ y, neqb y n1) (ncol i (Y st)).

(** [a[mask,:]] *)
Fixpoint select_rows {A} (mask : list bool) (a : list A) : list A :=
  match mask, a with
  | b :: mask', r :: a' =>
      if b then r :: select_rows mask' a' else select_rows mask' a'
  | _, _ => []
  end.

(** [a[mask,j] = vals], for as many values as the mask selects. *)
Fixpoint assign_masked (j : nat) (mask : list bool) (vals : vector)
    (a : matrix) : matrix :=
  match mask, a with
  | b :: mask', r :: a' =>
      if b then
        match vals with
        | v :: vals' => <[j:=v]> r :: assign_masked j mask' vals' a'
        | [] => a
        end
      else r :: assign_masked j mask' vals a'
  | _, _ => a
  end.

(** The estimator the method constructs for a class with [cluster]
    components. *)
Definition kmeans_of (st : MDA) (cluster : nat) : KMeans :=
  {| n_clusters := cluster;
     km_max_iter := kmeans_maxiter st;
     init_method := k_means_pp;
     tol := kmeans_theshold st;
     n_init := None |}.

(** [1*(prediction==j)] *)
Definition one_hot_col (prediction : list nat) (j : nat) : vector :=
  map (λ p, if decide (p = j) then n1 else n0) prediction.

(** The body of the loop over the classes.  [numpy] refuses a masked
    assignment whose value has another length than the mask selects. *)
Definition initialise_class (ic : nat * nat) (st : MDA) : result MDA MDA :=
  let '(i, cluster) := ic in
  let kmeans := kmeans_of st cluster in
  let sub := select_rows (label_mask st i) (X st) in
  match fit_predict kmeans sub with
  | None => Raise ValueError st
  | Some prediction =>
      for_each
        (λ j st,
           if decide (length prediction = length sub) then
             Ok (set_responsibilities st
                   (<[i := assign_masked j (label_mask st i)
                              (one_hot_col prediction j)
                              (responsibilities st !!! i)]>
                      (responsibilities st)))
           else Raise ValueError st)
        (seq 0 cluster) st
  end.

Definition initialise_params (g : globals) (st : MDA) (out : list event)
    : result (MDA * list event) MDA :=
  let st := class_prior_compute st in
  match for_each initialise_class (imap pair (clusters st)) st with
  | Raise e s => Raise e s
  | Ok st =>
      match m_step g st with
      | Raise e s => Raise e s
      | Ok st =>
          Ok (st, if verbose st then out ++ [InitComplete] else out)
      end
  end.

(** ** [_iterate] *)

(** How the [for] loop of [_iterate] ends: by its [break], or by running out
    of iterations. *)
Inductive loop_exit : Type := Converged | MaxIterReached.

(** The loop over the remaining iteration indices [idx], with the current
    value of the local [delta]. *)
Fixpoint iterate_loop (g : globals) (idx : list nat) (delta : num)
    (st : MDA) (out : list event)
    : result (loop_exit * MDA * list event) MDA :=
  match idx with
  | [] => Ok (MaxIterReached, st, out)
  | i :: idx' =>
      let st := e_step st in
      let delta :=
        if decide (2 ≤ length (lower_bounds st))%nat then
          let delta_change :=
            nsub (from_end (lower_bounds st) 1)
                 (from_end (lower_bounds st) 2) in
          ndiv delta_change (nabs (from_end (lower_bounds st) 2))
        else delta in
      if ngtb delta (mda_threshold st) then
        match m_step g st with
        | Raise e s => Raise e s
        | Ok st =>
            iterate_loop g idx' delta st
              (if verbose st
               then out ++ [IterCompleted i (from_end (lower_bounds st) 1)]
               else out)
        end
      else Ok (Converged, st, out ++ [AlgorithmConverged])
  end.

Definition iterate (g : globals) (st : MDA) (out : list event)
    : result (loop_exit * MDA * list event) MDA :=
  iterate_loop g (seq 0 (max_iter st)) n1 st out.

(** ** [train] *)

Definition train (g : globals) (st : MDA) (out : list event)
    : result (loop_exit * MDA * list event) MDA :=
  match initialise_params g st out with
  | Raise e s => Raise e s
  | Ok (st, out) => iterate g st out
  end.
End Program.

(** ** Stand-ins for the external primitives

    Computable functions of the right types, used where a statement is
    evaluated on concrete data.  Nothing is proved about them as models of
    the libraries; the general theorems hold for every choice of the
    primitives. *)

(** A density-shaped function: the tent [max(0, 1 - |x - mean|_1)].  It is
    positive within distance 1 of the mean and exactly zero beyond it; a
    float64 Gaussian density is exactly zero only after underflow, far from
    the mean (beyond some 38 standard deviations), and the concrete data
    below that rely on a zero density are at such a distance. *)
Definition tent_pdf (x : matrix) (mean : vector) (cov : matrix) : vector :=
  map (λ r,
         let v := nsub n1 (nvsum (zip_with (λ a b, nabs (nsub a b)) r mean)) in
         if ngtb n0 v then n0 else v) x.

(** The tangent of the logarithm at 1. *)
Definition tangent_ln (x : num) : num := nsub x n1.

(** Rows are dealt to the clusters in turn; the library raises when there
    are fewer rows than clusters. *)
Definition deal_fit_predict (km : KMeans) (x : matrix) : option (list nat) :=
  if decide (n_clusters km = 0 ∨ length x < n_clusters km)%nat then None
  else Some (map (λ t, t mod n_clusters km)%nat (seq 0 (length x))).

(** Integers as numbers, for concrete data. *)
Definition zn (z : Z) : num := dec z 1.

(** ** Predicates on numbers and arrays *)

Definition is_fin (x : num) : Prop :=
  match x with Fin _ => True | _ => False end.
Definition is_pos (x : num) : Prop :=
  match x with Fin q => 0 < q | _ => False end.
Definition is_nonneg (x : num) : Prop :=
  match x with Fin q => 0 ≤ q | _ => False end.

#[global] Instance is_fin_dec x : Decision (is_fin x).
Proof. destruct x; simpl; apply _. Defined.
#[global] Instance is_pos_dec x : Decision (is_pos x).
Proof. destruct x; simpl; apply _. Defined.
#[global] Instance is_nonneg_dec x : Decision (is_nonneg x).
Proof. destruct x; simpl; apply _. Defined.

(** The rational a finite number stands for. *)
Definition val (x : num) : Qc :=
  match x with Fin q => q | _ => 0 end.

(** [x <= y] *)
Definition nleb (x y : num) : bool := ngtb y x || neqb x y.

(** An [r × c] array. *)
Definition has_shape {T} (r c : nat) (M : list (list T)) : Prop :=
  length M = r ∧ Forall (λ row, length row = c) M.

#[global] Instance has_shape_dec {T} r c (M : list (list T)) :
  Decision (has_shape r c M).
Proof. unfold has_shape. apply _. Defined.

(** The density primitive followed by the clamp with the bound [acc]. *)
Definition clipped (pdf : matrix → vector → matrix → vector) (acc : num)
    : matrix → vector → matrix → vector :=
  λ x mean cov, bounded_variable (pdf x mean cov) acc (nsub n1 acc).

(** The clamp of one number, as the two masked assignments leave it. *)
Definition clamp1 (lo hi v : num) : num :=
  let v1 := if ngtb v hi then hi else v in
  if nltb v1 lo then lo else v1.

(** Sums of rationals. *)
Abbreviation qsum := (vsum 0 Qcplus).

(** The unnormalised responsibilities the E-step writes in column [j] of
    class [i]: clipped density times mixing weight. *)
Definition unnormalised (pdf : matrix → vector → matrix → vector) (st : MDA)
    (i j : nat) : vector :=
  map (λ p, nmul p ((latent_var_prior st !!! i) !!! j))
      (bounded_variable (pdf (X st) (ncol j (mu st !!! i)) (covar st))
                        (accuracy st) (nsub n1 (accuracy st))).

(** [resp /= np.outer(np.sum(resp, axis=1), np.ones(c))] *)
Definition normalise_rows (c : nat) (M : matrix) : matrix :=
  mat_zip ndiv M (nouter (nsum_axis1 M) (nones c)).

(** The density primitive returns one value per row of its first argument. *)
Definition pdf_rows (pdf : matrix → vector → matrix → vector) : Prop :=
  ∀ x mean cov, length (pdf x mean cov) = length x.

(** Row [t] of the unnormalised responsibilities of class [i]. *)
Definition unnormalised_row (pdf : matrix → vector → matrix → vector)
    (st : MDA) (i t : nat) : vector :=
  map (λ j, unnormalised pdf st i j !!! t) (seq 0 (clusters st !!! i)).
(** The inference, class by class: the mixture density of class [k_] at every
    observation, and its product with the class prior. *)
Definition class_prob (pdf : matrix → vector → matrix → vector) (st : MDA)
    (k_ : nat) : vector :=
  foldl (λ a j, posterior_body pdf st k_ j a) (replicate (n st) n0)
        (seq 0 (clusters st !!! k_)).

Definition joint_col (pdf : matrix → vector → matrix → vector) (st : MDA)
    (k_ : nat) : vector :=
  map (λ x, nmul x (class_prior st !!! k_)) (class_prob pdf st k_).

(** ** Arrays of finite numbers, by their entries *)

(** [Σ_{t < r} f t] *)
Definition bigsum (r : nat) (f : nat → Qc) : Qc := qsum (map f (seq 0 r)).

(** The vector with entries [f 0 .. f (r-1)], and the [r × c] array with
    entries [f a b]. *)
Definition vtab (r : nat) (f : nat → Qc) : vector :=
  map (λ a, Fin (f a)) (seq 0 r).
Definition tab (r c : nat) (f : nat → nat → Qc) : matrix :=
  map (λ a, vtab c (f a)) (seq 0 r).

(** Entry [(a, b)] of an array as a rational. *)
Definition mval (M : matrix) (a b : nat) : Qc := val ((M !!! a) !!! b).
Definition vval (v : vector) (a : nat) : Qc := val (v !!! a).

Definition fin_vec (v : vector) : Prop := Forall is_fin v.
Definition fin_mat (M : matrix) : Prop := Forall (Forall is_fin) M.

#[global] Instance fin_vec_dec v : Decision (fin_vec v).
Proof. unfold fin_vec. apply _. Defined.
#[global] Instance fin_mat_dec M : Decision (fin_mat M).
Proof. unfold fin_mat. apply _. Defined.

(** ** The M-step, component by component *)

(** The object with other mixing weights and means: the only attributes the
    loops of [_m_step] assign. *)
Definition with_estimates (st : MDA) (L : list vector) (M : list matrix) : MDA :=
  set_mu (set_latent_var_prior st L) M.

(** The total masked responsibility of component [j] of class [i]. *)
Definition mass (st : MDA) (i j : nat) : num := nvsum (class_indicator st i j).

(** The values the body of the loops computes for component [j] of class
    [i]: they depend on attributes the M-step does not assign, and on the
    module-level [X]. *)
Definition new_weight (st : MDA) (i j : nat) : num :=
  ndiv (mass st i j) (freq st !!! i).

Definition new_mean (gX : matrix) (st : MDA) (i j : nat) : vector :=
  map (λ x, ndiv x (mass st i j))
      (nsum_axis1 (nmatmul (ntranspose gX) (ndiagflat (class_indicator st i j)))).

Definition scatter (st : MDA) (mean : vector) (i j : nat) : matrix :=
  let centered :=
    mat_zip nsub (X st) (ntranspose (nouter mean (nones (n st)))) in
  nmatmul (nmatmul (ntranspose centered) (ndiagflat (class_indicator st i j)))
          centered.

(** The components in the order the loops visit them. *)
Definition components (cl : list nat) (classes : list nat) : list (nat * nat) :=
  classes ≫= λ i, map (pair i) (seq 0 (cl !!! i)).

(** The shapes [__init__] gives to the arrays the M-step touches, and a
    module-level [X] with as many columns as [self.X]. *)
Definition m_step_shapes (gX : matrix) (st : MDA) : Prop :=
  length (mu st) = k st ∧ length (latent_var_prior st) = k st ∧
  length (responsibilities st) = k st ∧
  has_shape (n st) (k st) (Y st) ∧
  has_shape (n st) (m st) (X st) ∧
  has_shape (n st) (m st) gX ∧
  Forall (λ i, has_shape (m st) (clusters st !!! i) (mu st !!! i) ∧
               length (latent_var_prior st !!! i) = clusters st !!! i ∧
               has_shape (n st) (clusters st !!! i) (responsibilities st !!! i))
         (seq 0 (k st)).

#[global] Instance m_step_shapes_dec gX st : Decision (m_step_shapes gX st).
Proof. unfold m_step_shapes. apply _. Defined.

(** ** The convergence loop as a state machine *)

(** The relative change of the lower bound once the history has two entries;
    before that the previous [delta] stands. *)
Definition relative_change (delta : num) (hist : vector) : num :=
  if decide (2 ≤ length hist)%nat then
    ndiv (nsub (from_end hist 1) (from_end hist 2)) (nabs (from_end hist 2))
  else delta.

(** [em_loop r delta st j ex st']: from the object [st], with [r] iterations
    left and the current [delta], the loop ends by [ex] in [st'] after [j]
    E-steps.  An iteration runs the E-step, then either the relative change
    exceeds the threshold and the M-step runs and the loop goes on, or the loop
    stops as converged; without iterations left it stops as exhausted. *)
Inductive em_loop (pdf : matrix → vector → matrix → vector) (ln : num → num)
    (g : globals) : nat → num → MDA → nat → loop_exit → MDA → Prop :=
  | em_exhausted delta st :
      em_loop pdf ln g 0 delta st 0 MaxIterReached st
  | em_converged r delta st :
      ngtb (relative_change delta (lower_bounds (e_step pdf ln st)))
           (mda_threshold st) = false →
      em_loop pdf ln g (S r) delta st 1 Converged (e_step pdf ln st)
  | em_continue r delta st st2 j ex st' :
      ngtb (relative_change delta (lower_bounds (e_step pdf ln st)))
           (mda_threshold st) = true →
      m_step g (e_step pdf ln st) = Ok st2 →
      em_loop pdf ln g r
        (relative_change delta (lower_bounds (e_step pdf ln st))) st2 j ex st' →
      em_loop pdf ln g (S r) delta st (S j) ex st'.

(** The keyword arguments with another [init_restarts]. *)
Definition with_restarts (o : options) (r : nat) : options :=
  {| max_iter_init := max_iter_init o; init_restarts := r;
     init_conv_theshold := init_conv_theshold o;
     iter_conv_threshold := iter_conv_threshold o;
     opt_max_iter := opt_max_iter o; opt_verbose := opt_verbose o;
     opt_accuracy := opt_accuracy o |}.

(** The object with another stored restart count. *)
Definition set_restarts (r : nat) (st : MDA) : MDA :=
  {| Y := Y st; Y_dtype := Y_dtype st; X := X st; n := n st; m := m st; k := k st;
     clusters := clusters st; class_prior := class_prior st;
     latent_var_prior := latent_var_prior st; freq := freq st;
     covar := covar st; mu := mu st; responsibilities := responsibilities st;
     lower_bounds := lower_bounds st; kmeans_maxiter := kmeans_maxiter st;
     kmeans_retsarts := r; max_iter := max_iter st;
     kmeans_theshold := kmeans_theshold st; mda_threshold := mda_threshold st;
     verbose := verbose st; accuracy := accuracy st |}.

Definition result_map {A B S T} (f : A → B) (h : S → T) (r : result A S)
    : result B T :=
  match r with
  | Ok a => Ok (f a)
  | Raise e s => Raise e (h s)
  end.

(** The body of the loops of [_m_step] when the module-level [X] is bound
    to [gX]. *)
Definition m_body (gX : matrix) (i j : nat) (acc : MDA * matrix)
    : MDA * matrix :=
  let '(st, cov) := acc in
  let st1 :=
    with_estimates st
      (<[i := <[j := new_weight st i j]> (latent_var_prior st !!! i)]>
         (latent_var_prior st))
      (<[i := set_col j (new_mean gX st i j) (mu st !!! i)]> (mu st)) in
  (st1, mat_zip nadd cov (scatter st1 (ncol j (mu st1 !!! i)) i j)).

(** The sum of the scatter matrices of the components [ps], on top of
    [cov]. *)
Definition pooled (gX : matrix) (st : MDA) (cov : matrix)
    (ps : list (nat * nat)) : matrix :=
  foldl (λ c p, mat_zip nadd c (scatter st (new_mean gX st p.1 p.2) p.1 p.2))
        cov ps.

(** ** The pooled covariance, entry by entry *)

(** The masked responsibility of observation [t] for component [j] of class
    [i], as a rational. *)
Definition masked_weight (st : MDA) (i j t : nat) : Qc :=
  vval (class_indicator st i j) t.



(** The object after the class prior and the k-means assignments of
    [_initialise_params], before its M-step. *)
Definition assigned (fp : KMeans → matrix → option (list nat)) (st : MDA) : MDA :=
  match for_each (initialise_class fp) (imap pair (clusters st))
                 (class_prior_compute st) with
  | Ok s => s
  | Raise _ s => s
  end.

(** ** The lower bound of one E-step *)

(** The contribution of component [j] of class [i] to the lower bound, for
    the responsibilities [old] of that component:
    [Σ_t Y[t,i]·old[t]·(log p[t] + log π_ij)], as the code adds it up. *)
Definition bound_term (pdf : matrix → vector → matrix → vector) (ln : num → num)
    (st : MDA) (i j : nat) (old : vector) : num :=
  let prior := clipped pdf (accuracy st) (X st) (ncol j (mu st !!! i)) (covar st) in
  let weighting := zip_with nmul (ncol i (Y st)) old in
  nvsum (zip_with nadd
           (zip_with nmul weighting (map ln prior))
           (map (λ x, nmul x (ln ((latent_var_prior st !!! i) !!! j))) weighting)).

(** The lower bound after class [i], from the responsibilities [R] the step
    receives for the class. *)
Definition class_bound (pdf : matrix → vector → matrix → vector) (ln : num → num)
    (st : MDA) (i : nat) (R : matrix) (lb : num) : num :=
  foldl (λ lb j, nadd lb (bound_term pdf ln st i j (ncol j R))) lb
        (seq 0 (clusters st !!! i)).

Fixpoint classes_bound (pdf : matrix → vector → matrix → vector) (ln : num → num)
    (st : MDA) (i : nat) (resps : list matrix) (lb : num) : num :=
  match resps with
  | [] => lb
  | R :: rest => classes_bound pdf ln st (S i) rest (class_bound pdf ln st i R lb)
  end.

Definition lower_bound (pdf : matrix → vector → matrix → vector) (ln : num → num)
    (st : MDA) : num :=
  classes_bound pdf ln st 0 (responsibilities st) n0.

(** ** The clamp as the specification words it

    The next definitions do not follow the code: they spell out the
    behaviour the specification describes, for comparison with the
    methods. *)

(** A value above [hi] becomes [hi], a value below [lo] becomes [lo], any
    other value stays as it is. *)
Definition clip (lo hi v : num) : num :=
  if ngtb v hi then hi else if nltb v lo then lo else v.

(** The density of observation [t] under component [j] of class [i], clipped
    into [[accuracy, 1 - accuracy]]. *)
Definition clipped_density (pdf : matrix → vector → matrix → vector) (st : MDA)
    (i j t : nat) : num :=
  clip (accuracy st) (nsub n1 (accuracy st))
       (pdf (X st) (ncol j (mu st !!! i)) (covar st) !!! t).

(** Clipped density times mixing weight. *)
Definition weighted_density (pdf : matrix → vector → matrix → vector) (st : MDA)
    (i j t : nat) : num :=
  nmul (clipped_density pdf st i j t) ((latent_var_prior st !!! i) !!! j).

(** A row divided by its sum. *)
Definition normalised (row : vector) : vector :=
  map (λ x, ndiv x (nvsum row)) row.

(** Row [t] of the responsibilities of class [i] after an E-step: the
    weighted clipped densities of the components of the class, normalised. *)
Definition responsibility_row (pdf : matrix → vector → matrix → vector) (st : MDA)
    (i t : nat) : vector :=
  normalised (map (λ j, weighted_density pdf st i j t)
                  (seq 0 (clusters st !!! i))).

(** The mixture density of class [k_] at observation [t]: the weighted
    clipped densities of its components, added up from 0 in their order. *)
Definition mixture_density (pdf : matrix → vector → matrix → vector) (st : MDA)
    (k_ t : nat) : num :=
  foldl (λ a j, nadd a (weighted_density pdf st k_ j t)) n0
        (seq 0 (clusters st !!! k_)).

(** Row [t] of the inference: for every class the mixture density times the
    class prior, normalised over the classes. *)
Definition posterior_row (pdf : matrix → vector → matrix → vector) (st : MDA)
    (t : nat) : vector :=
  normalised (map (λ k_, nmul (mixture_density pdf st k_ t) (class_prior st !!! k_))
                  (seq 0 (k st))).

(** ** The k-means assignment *)

(** The number of rows the mask selects before row [t]: the position of row
    [t] among the selected rows. *)
Definition rank (mask : list bool) (t : nat) : nat :=
  length (filter (λ b, b = true) (take t mask)).

(** Row [q] of the one-hot encoding of [prediction], over [c] clusters. *)
Definition one_hot_row (prediction : list nat) (c q : nat) : vector :=
  map (λ j, if decide (prediction !!! q = j) then n1 else n0) (seq 0 c).

(** ** Concrete data

    Four observations of one feature, two per class: class 0 near 0, class 1
    near 10. *)
Definition demo_X : matrix := [[zn 0]; [zn 1]; [zn 10]; [zn 11]].
Definition demo_Y : matrix :=
  [[zn 1; zn 0]; [zn 1; zn 0]; [zn 0; zn 1]; [zn 0; zn 1]].

(** The script binds [X] to the data it fits. *)
Definition demo_globals : globals := {| g_X := Some demo_X |}.

(** The object of a result, also when it raised. *)
Definition object_of {A} (r : result (A * MDA * list event) MDA) : MDA :=
  match r with
  | Ok (_, st, _) => st
  | Raise _ st => st
  end.

Definition initialised (r : result (MDA * list event) MDA) : MDA :=
  match r with
  | Ok (st, _) => st
  | Raise _ st => st
  end.

(** [MDA(Y, X, [2,1], 2)] after [_initialise_params]. *)
Definition demo_new : MDA := init (float_array demo_Y) demo_X [2; 1]%nat 2 default_options.
Definition demo_init : MDA :=
  Eval vm_compute in
  initialised (initialise_params deal_fit_predict demo_globals demo_new []).



(** The same object after [train()]. *)
Definition demo_fit : MDA :=
  Eval vm_compute in
  object_of (train tent_pdf tangent_ln deal_fit_predict demo_globals demo_new []).

(** The concrete object before the M-step of its initialisation, with the
    rows dealt to the clusters. *)
Definition demo_assigned : MDA :=
  Eval vm_compute in assigned deal_fit_predict demo_new.

(** Data whose two observations of class 0 coincide, for two components in
    that class: [MDA(Y, X, [2,1], 2)] with [X = [[0],[0],[10],[11]]].  The
    object [twin_assigned] is the one [_initialise_params] hands to its
    M-step when k-means gives both coinciding rows the label 0, the only
    distinct centre there is: the responsibilities of class 0 are one-hot on
    component 0 and component 1 has no observation. *)
Definition twin_X : matrix := [[zn 0]; [zn 0]; [zn 10]; [zn 11]].
Definition twin_globals : globals := {| g_X := Some twin_X |}.
Definition twin_new : MDA :=
  init (float_array demo_Y) twin_X [2; 1]%nat 2 default_options.
Definition twin_assigned : MDA :=
  Eval vm_compute in
  set_responsibilities (class_prior_compute twin_new)
    [ [[zn 1; zn 0]; [zn 1; zn 0]; [zn 0; zn 0]; [zn 0; zn 0]];
      [[zn 0]; [zn 0]; [zn 1]; [zn 1]] ].

(** The labels of [demo_Y] held in an integer array, as
    [np.array([[1,0],[1,0],[0,1],[0,1]])] is. *)
Definition demo_int_new : MDA :=
  init (int_array demo_Y) demo_X [2; 1]%nat 2 default_options.
Definition demo_int_fit : MDA :=
  Eval vm_compute in
  object_of (train tent_pdf tangent_ln deal_fit_predict demo_globals demo_int_new []).

(** Data of the same shape bound to the module-level [X] while the object
    holds [demo_X]. *)
Definition other_X : matrix := [[zn 100]; [zn 101]; [zn 110]; [zn 111]].

(** The initialised object after one iteration of the loop (an E-step and an
    M-step). *)
Definition demo_iter1 : MDA :=
  Eval vm_compute in
  object_of (iterate_loop tent_pdf tangent_ln demo_globals [0%nat] n1 demo_init []).

(** [MDA(Y, X, [3,1], 2)]: class 0 has two observations for three
    components. *)
Definition starved_new : MDA := init (float_array demo_Y) demo_X [3; 1]%nat 2 default_options.

(** * Properties *)

(** ** Arithmetic of [num] *)

Lemma Qclt_irrefl (a : Qc) : ¬ a < a.
Proof. apply Qcle_ngt, Qcle_refl. Qed.

Lemma ngtb_fin a b : ngtb (Fin a) (Fin b) = bool_decide (b < a).
Proof. reflexivity. Qed.

Lemma ngtb_irrefl x : ngtb x x = false.
Proof.
  destruct x; simpl; try done.
  apply bool_decide_eq_false, Qclt_irrefl.
Qed.

Lemma ngtb_asym x y : ngtb x y = true → ngtb y x = false.
Proof.
  destruct x, y; simpl; try done.
  rewrite bool_decide_eq_true, bool_decide_eq_false.
  intros H1 H2. exact (Qclt_irrefl _ (Qclt_trans _ _ _ H1 H2)).
Qed.

Lemma ngtb_trans x y z : ngtb x y = true → ngtb y z = true → ngtb x z = true.
Proof.
  destruct x, y, z; simpl; try done.
  rewrite !bool_decide_eq_true. intros H1 H2. exact (Qclt_trans _ _ _ H2 H1).
Qed.

Lemma neqb_eq x y : neqb x y = true → x = y.
Proof.
  destruct x, y; simpl; try done; by intros ?%bool_decide_eq_true.
Qed.

Lemma neqb_refl x : x ≠ NaN → neqb x x = true.
Proof. destruct x; simpl; try done; intros _; by apply bool_decide_eq_true. Qed.

Lemma nleb_spec x y :
  nleb x y = true ↔ ngtb y x = true ∨ (x = y ∧ x ≠ NaN).
Proof.
  unfold nleb. rewrite orb_true_iff. split.
  - intros [H|H]; [by left|right]. split; [by apply neqb_eq|].
    intros ->. by destruct y.
  - intros [H|[-> H]]; [by left|right]. by apply neqb_refl.
Qed.

(** Numbers other than [NaN] are totally ordered. *)
Lemma num_trichotomy x y :
  x ≠ NaN → y ≠ NaN → ngtb x y = true ∨ x = y ∨ ngtb y x = true.
Proof.
  destruct x as [a| | |], y as [b| | |]; simpl; try done; auto.
  intros _ _. destruct (Qc_dec a b) as [[H|H]| ->]; rewrite ?bool_decide_eq_true; auto.
Qed.

Lemma nleb_not_gt x y : nleb x y = true → ngtb x y = false.
Proof.
  rewrite nleb_spec. intros [H|[-> _]]; [by apply ngtb_asym|apply ngtb_irrefl].
Qed.

(** ** [bounded_variable] *)

Lemma bounded_variable_map x lo hi :
  bounded_variable x lo hi = map (clamp1 lo hi) x.
Proof. unfold bounded_variable. by rewrite map_map. Qed.

Lemma bounded_variable_length x lo hi :
  length (bounded_variable x lo hi) = length x.
Proof. by rewrite bounded_variable_map, length_map. Qed.

Lemma bounded_variable_lookup x lo hi t :
  bounded_variable x lo hi !! t = clamp1 lo hi <$> x !! t.
Proof. by rewrite bounded_variable_map, list_lookup_fmap. Qed.

Lemma clamp1_idemp lo hi v : clamp1 lo hi (clamp1 lo hi v) = clamp1 lo hi v.
Proof.
  unfold clamp1, nltb.
  destruct (ngtb v hi) eqn:E1.
  - destruct (ngtb lo hi) eqn:E2.
    + by rewrite E2, E2.
    + rewrite ngtb_irrefl, E2. done.
  - destruct (ngtb lo v) eqn:E2.
    + destruct (ngtb lo hi) eqn:E3; rewrite ?E3; [done|].
      by rewrite ngtb_irrefl.
    + by rewrite E1, E2.
Qed.

Lemma bounded_variable_idemp x lo hi :
  bounded_variable (bounded_variable x lo hi) lo hi = bounded_variable x lo hi.
Proof.
  rewrite !bounded_variable_map, map_map. apply map_ext. intros.
  apply clamp1_idemp.
Qed.

Lemma clamp1_inside lo hi v :
  nleb lo v = true → nleb v hi = true → clamp1 lo hi v = v.
Proof.
  intros H1%nleb_not_gt H2%nleb_not_gt. unfold clamp1, nltb. by rewrite H2, H1.
Qed.

Lemma clamp1_above lo hi v :
  nleb lo hi = true → ngtb v hi = true → clamp1 lo hi v = hi.
Proof.
  intros H1%nleb_not_gt H2. unfold clamp1, nltb. by rewrite H2, H1.
Qed.

Lemma clamp1_below lo hi v :
  nleb lo hi = true → nltb v lo = true → clamp1 lo hi v = lo.
Proof.
  unfold nltb. intros H1 H2. unfold clamp1, nltb.
  destruct (ngtb v hi) eqn:E.
  - apply nleb_spec in H1 as [H1|[-> _]].
    + by rewrite (ngtb_asym _ _ (ngtb_trans _ _ _ H1 H2)) in E.
    + by rewrite (ngtb_asym _ _ H2) in E.
  - by rewrite H2.
Qed.

Lemma clamp1_range lo hi v :
  nleb lo hi = true → v ≠ NaN →
  nleb lo (clamp1 lo hi v) = true ∧ nleb (clamp1 lo hi v) hi = true.
Proof.
  intros Hlh Hv.
  assert (lo ≠ NaN ∧ hi ≠ NaN) as [Hlo Hhi].
  { apply nleb_spec in Hlh as [H|[-> H]]; [|done]. by destruct lo, hi. }
  destruct (ngtb v hi) eqn:E1.
  { rewrite (clamp1_above _ _ _ Hlh E1). split; [done|].
    apply nleb_spec. right. done. }
  destruct (ngtb lo v) eqn:E2.
  { rewrite (clamp1_below _ _ _ Hlh E2). split; [|done].
    apply nleb_spec. by right. }
  assert (nleb lo v = true).
  { apply nleb_spec. destruct (num_trichotomy lo v) as [H|[H|H]]; auto; congruence. }
  assert (nleb v hi = true).
  { apply nleb_spec. destruct (num_trichotomy v hi) as [H'|[H'|H']]; auto; congruence. }
  by rewrite clamp1_inside.
Qed.

(** ** Lists and arrays *)

Lemma foldl_ext_all {A B} (f g : A → B → A) (l : list B) (a : A) :
  (∀ a x, f a x = g a x) → foldl f a l = foldl g a l.
Proof. intros H. revert a. induction l as [|x l IH]; simpl; intros; [done|]. by rewrite H, IH. Qed.

Lemma has_shape_row {T} r c (M : list (list T)) t row :
  has_shape r c M → M !! t = Some row → length row = c.
Proof. intros [_ H] Ht. by eapply (Forall_lookup_1 _ _ _ _ H). Qed.

Lemma set_col_shape {T} r c j (v : list T) (M : list (list T)) :
  has_shape r c M → length v = r → has_shape r c (set_col j v M).
Proof.
  intros [Hr Hc] Hv. unfold set_col. split.
  - rewrite length_zip_with. lia.
  - apply Forall_lookup_2. intros t row (r0 & x & -> & Hr0 & _)%lookup_zip_with_Some.
    rewrite length_insert. by eapply (Forall_lookup_1 _ _ _ _ Hc).
Qed.

Lemma set_col_lookup {T} j (v : list T) (M : list (list T)) t row x :
  M !! t = Some row → v !! t = Some x →
  set_col j v M !! t = Some (<[j:=x]> row).
Proof.
  intros HM Hv. unfold set_col. rewrite lookup_zip_with, HM. simpl. by rewrite Hv.
Qed.

(** Writing columns [0 .. j0-1] one after the other leaves, in each row,
    those columns with the entries written. *)
Lemma fold_set_col_inv (cols : nat → vector) r c (M : matrix) j0 :
  has_shape r c M → (∀ j, (j < c)%nat → length (cols j) = r) → (j0 ≤ c)%nat →
  let M' := foldl (λ M j, set_col j (cols j) M) M (seq 0 j0) in
  has_shape r c M' ∧
  ∀ t row, M' !! t = Some row →
    ∀ j, (j < j0)%nat → row !! j = cols j !! t.
Proof.
  intros HM Hcols. induction j0 as [|j0 IH]; intros Hj0; cbv zeta.
  { split; [done|]. intros; lia. }
  rewrite seq_S, foldl_snoc. simpl.
  destruct IH as [Hsh IH]; [lia|].
  set (M0 := foldl _ M (seq 0 j0)) in *.
  split.
  { apply set_col_shape; [done|]. apply Hcols. lia. }
  intros t row Hrow j Hj.
  unfold set_col in Hrow. apply lookup_zip_with_Some in Hrow as (row0 & x & -> & Hrow0 & Hx).
  destruct (decide (j = j0)) as [->|Hne].
  - rewrite list_lookup_insert_eq; [done|].
    rewrite (has_shape_row _ _ _ _ _ Hsh Hrow0). lia.
  - rewrite list_lookup_insert_ne by done. apply (IH t row0 Hrow0). lia.
Qed.

Lemma mat_zip_lookup {T} (op : T → T → T) (A B : list (list T)) t a b :
  A !! t = Some a → B !! t = Some b →
  mat_zip op A B !! t = Some (zip_with op a b).
Proof. intros HA HB. unfold mat_zip. rewrite lookup_zip_with, HA. simpl. by rewrite HB. Qed.

Lemma normalise_rows_lookup c (M : matrix) t row :
  M !! t = Some row →
  normalise_rows c M !! t =
    Some (zip_with ndiv row (map (nmul (nvsum row)) (nones c))).
Proof.
  intros H. unfold normalise_rows. apply mat_zip_lookup; [done|].
  unfold outer, sum_axis1. rewrite !list_lookup_fmap, H. done.
Qed.

Lemma normalise_rows_length c (M : matrix) :
  length (normalise_rows c M) = length M.
Proof.
  unfold normalise_rows, mat_zip, outer, sum_axis1.
  rewrite length_zip_with, !length_map. lia.
Qed.

(** ** Sums of finite numbers *)

Lemma is_pos_fin x : is_pos x → x = Fin (val x) ∧ 0 < val x.
Proof. by destruct x. Qed.

Lemma is_nonneg_fin x : is_nonneg x → x = Fin (val x) ∧ 0 ≤ val x.
Proof. by destruct x. Qed.

Lemma is_fin_val x : is_fin x → x = Fin (val x).
Proof. by destruct x. Qed.

Lemma Forall_fin_map (v : vector) : Forall is_fin v → v = map Fin (map val v).
Proof.
  induction 1 as [|x v Hx _ IH]; simpl; [done|]. by rewrite <-IH, <-is_fin_val.
Qed.

Lemma nvsum_fin (qs : list Qc) : nvsum (map Fin qs) = Fin (qsum qs).
Proof. induction qs as [|q qs IH]; simpl; [done|]. by rewrite IH. Qed.

Lemma qsum_pos (qs : list Qc) :
  qs ≠ [] → Forall (λ q, 0 < q) qs → 0 < qsum qs.
Proof.
  intros Hne H. induction H as [|q qs Hq H IH]; [done|]. simpl.
  destruct qs as [|q' qs'].
  - simpl. by rewrite Qcplus_0_r.
  - apply Qcplus_pos_nonneg; [done|]. apply Qclt_le_weak, IH. done.
Qed.

Lemma qsum_nonneg (qs : list Qc) : Forall (λ q, 0 ≤ q) qs → 0 ≤ qsum qs.
Proof.
  induction 1 as [|q qs Hq H IH]; simpl; [done|]. by apply Qcplus_nonneg_nonneg.
Qed.

Lemma qsum_div (qs : list Qc) (s : Qc) :
  s ≠ 0 → qsum (map (λ q, q / s) qs) = qsum qs / s.
Proof.
  intros Hs. induction qs as [|q qs IH]; simpl.
  - by field.
  - rewrite IH. by field.
Qed.

Lemma Qc_pos_ne0 (q : Qc) : 0 < q → q ≠ 0.
Proof. intros H ->. by apply Qclt_irrefl in H. Qed.

Lemma ndiv_fin a b : b ≠ 0 → ndiv (Fin a) (Fin b) = Fin (a / b).
Proof. intros. simpl. by destruct (decide (b = 0)). Qed.

Lemma nmul_1_r x : nmul x n1 = x.
Proof.
  destruct x as [a| | |]; simpl; try done. f_equal. ring.
Qed.

(** A non-empty row of positive numbers, divided by its sum: the quotients
    are positive and add up to one. *)
Lemma normalise_pos_row (row : vector) :
  row ≠ [] → Forall is_pos row →
  let row' := zip_with ndiv row (map (nmul (nvsum row)) (nones (length row))) in
  is_pos (nvsum row) ∧ Forall is_pos row' ∧ length row' = length row ∧
  nvsum row' = Fin 1.
Proof.
  intros Hne Hpos.
  assert (Hfin : row = map Fin (map val row)).
  { apply Forall_fin_map. eapply Forall_impl; [done|]. by intros []. }
  assert (Hq : Forall (λ q, 0 < q) (map val row)).
  { apply Forall_fmap. eapply Forall_impl; [done|]. by intros []. }
  assert (Hs : 0 < qsum (map val row)).
  { apply qsum_pos; [|done]. by destruct row. }
  assert (Hrow' : zip_with ndiv row (map (nmul (nvsum row)) (nones (length row)))
                  = map Fin (map (λ q, q / qsum (map val row)) (map val row))).
  { rewrite Hfin at 1 2. rewrite nvsum_fin.
    generalize (qsum (map val row)) Hs. intros s Hs'.
    clear -Hs'. induction row as [|x row IH]; simpl; [done|].
    rewrite IH. f_equal. rewrite Qcmult_1_r. apply ndiv_fin. by apply Qc_pos_ne0. }
  simpl. rewrite Hrow'. repeat split.
  - rewrite Hfin, nvsum_fin. done.
  - rewrite <-list_fmap_compose. apply Forall_fmap.
    eapply Forall_impl; [exact Hq|]. intros q Hq0. simpl.
    unfold Qcdiv. apply Qcmult_pos_pos; [done|]. by apply Qcinv_pos.
  - by rewrite !length_map.
  - rewrite nvsum_fin, qsum_div by (by apply Qc_pos_ne0).
    f_equal. field. by apply Qc_pos_ne0.
Qed.

(** ** The E-step *)

Section EStep.
Variable pdf : matrix → vector → matrix → vector.
Variable ln : num → num.

Lemma e_step_fold_fst st i js M lb :
  fst (foldl (λ a j, e_step_body pdf ln st i j a) (M, lb) js)
  = foldl (λ M j, set_col j (unnormalised pdf st i j) M) M js.
Proof.
  revert M lb. induction js as [|j js IH]; intros M lb; simpl; [done|].
  apply IH.
Qed.

Lemma e_step_class_fst st i M lb :
  fst (e_step_class pdf ln st i (M, lb))
  = normalise_rows (clusters st !!! i)
      (foldl (λ M j, set_col j (unnormalised pdf st i j) M) M
             (seq 0 (clusters st !!! i))).
Proof.
  unfold e_step_class. rewrite <-(e_step_fold_fst st i _ M lb).
  by destruct (foldl _ _ _).
Qed.

Lemma e_step_classes_lookup st i0 resps lb i M :
  resps !! i = Some M →
  ∃ lb', fst (e_step_classes pdf ln st i0 resps lb) !! i
         = Some (fst (e_step_class pdf ln st (i0 + i) (M, lb'))).
Proof.
  revert i0 lb i. induction resps as [|R resps IH]; intros i0 lb i Hi; [done|].
  simpl. destruct (e_step_class pdf ln st i0 (R, lb)) as [R' lb1] eqn:E1.
  destruct (e_step_classes pdf ln st (S i0) resps lb1) as [rest lb2] eqn:E2.
  destruct i as [|i]; simpl in *.
  - injection Hi as ->. exists lb. by rewrite Nat.add_0_r, E1.
  - destruct (IH (S i0) lb1 i Hi) as [lb' H]. exists lb'.
    rewrite E2 in H. simpl in H. by rewrite Nat.add_succ_r.
Qed.

Lemma e_step_classes_length st i0 resps lb :
  length (fst (e_step_classes pdf ln st i0 resps lb)) = length resps.
Proof.
  revert i0 lb. induction resps as [|R resps IH]; intros i0 lb; [done|].
  simpl. destruct (e_step_class pdf ln st i0 (R, lb)) as [R' lb1].
  specialize (IH (S i0) lb1).
  destruct (e_step_classes pdf ln st (S i0) resps lb1). simpl in *. by rewrite IH.
Qed.

(** What one E-step leaves in [self.responsibilities[i]]. *)
Lemma e_step_responsibilities st i M :
  responsibilities st !! i = Some M →
  responsibilities (e_step pdf ln st) !! i
  = Some (normalise_rows (clusters st !!! i)
            (foldl (λ M j, set_col j (unnormalised pdf st i j) M) M
                   (seq 0 (clusters st !!! i)))).
Proof.
  intros HM. unfold e_step.
  destruct (e_step_classes_lookup st 0 _ n0 i M HM) as [lb' H].
  destruct (e_step_classes pdf ln st 0 (responsibilities st) n0) as [resps lb].
  simpl in *. by rewrite H, e_step_class_fst.
Qed.

(** One E-step appends one lower bound and touches nothing but the
    responsibilities and the history. *)
Lemma e_step_lower_bounds st :
  ∃ lb, lower_bounds (e_step pdf ln st) = lower_bounds st ++ [lb].
Proof.
  unfold e_step. destruct (e_step_classes _ _ _ _ _ _) as [resps lb].
  by exists lb.
Qed.

Lemma e_step_frame st :
  let st' := e_step pdf ln st in
  Y st' = Y st ∧ X st' = X st ∧ n st' = n st ∧ m st' = m st ∧ k st' = k st ∧
  clusters st' = clusters st ∧ class_prior st' = class_prior st ∧
  latent_var_prior st' = latent_var_prior st ∧ freq st' = freq st ∧
  covar st' = covar st ∧ mu st' = mu st ∧
  max_iter st' = max_iter st ∧ mda_threshold st' = mda_threshold st ∧
  verbose st' = verbose st ∧ accuracy st' = accuracy st ∧
  kmeans_retsarts st' = kmeans_retsarts st.
Proof.
  unfold e_step. destruct (e_step_classes _ _ _ _ _ _) as [resps lb].
  simpl. repeat split.
Qed.

Lemma unnormalised_length st i j :
  pdf_rows pdf → length (X st) = n st →
  length (unnormalised pdf st i j) = n st.
Proof.
  intros Hpdf HX. unfold unnormalised.
  by rewrite length_map, bounded_variable_length, Hpdf.
Qed.

(** Row [t] of class [i] after the E-step: the unnormalised row divided by
    its own sum, whatever that sum is. *)
Lemma e_step_row st i M t :
  pdf_rows pdf → length (X st) = n st →
  responsibilities st !! i = Some M →
  has_shape (n st) (clusters st !!! i) M →
  (t < n st)%nat →
  let u := unnormalised_row pdf st i t in
  ∃ M', responsibilities (e_step pdf ln st) !! i = Some M' ∧
        length M' = n st ∧
        length u = clusters st !!! i ∧
        M' !! t = Some (zip_with ndiv u (map (nmul (nvsum u)) (nones (length u)))).
Proof.
  intros Hpdf HX HM Hsh Ht u.
  eexists. split; [by apply e_step_responsibilities|].
  set (c := clusters st !!! i) in *.
  destruct (fold_set_col_inv (unnormalised pdf st i) (n st) c M c Hsh) as [Hsh' Hcols];
    [intros; by apply unnormalised_length|lia|].
  set (U := foldl _ M (seq 0 c)) in *.
  assert (Hu : length u = c) by (unfold u, unnormalised_row; by rewrite length_map, length_seq).
  split; [rewrite normalise_rows_length; apply Hsh'|]. split; [done|].
  destruct (lookup_lt_is_Some_2 U t) as [row Hrow]; [destruct Hsh'; lia|].
  rewrite (normalise_rows_lookup _ _ _ _ Hrow).
  assert (row = u) as ->; [|by rewrite Hu].
  apply list_eq. intros j. unfold u, unnormalised_row.
  rewrite list_lookup_fmap.
  destruct (decide (j < c)%nat) as [Hj|Hj].
  - rewrite (Hcols _ _ Hrow j Hj), lookup_seq_lt by done. simpl.
    destruct (lookup_lt_is_Some_2 (unnormalised pdf st i j) t) as [x Hx];
      [by rewrite unnormalised_length|].
    rewrite Hx. by rewrite (list_lookup_total_correct _ _ _ Hx).
  - rewrite lookup_seq_ge by lia. apply lookup_ge_None_2.
    rewrite (has_shape_row _ _ _ _ _ Hsh' Hrow). lia.
Qed.
End EStep.

Lemma tent_pdf_rows : pdf_rows tent_pdf.
Proof. intros x mean cov. unfold tent_pdf. by rewrite length_map. Qed.


Lemma nmul_pos x y : is_pos x → is_pos y → is_pos (nmul x y).
Proof. destruct x, y; simpl; try done. apply Qcmult_pos_pos. Qed.

Lemma unnormalised_row_pos pdf st i t :
  pdf_rows pdf → length (X st) = n st → (t < n st)%nat →
  (∀ j, (j < clusters st !!! i)%nat →
     Forall is_pos (clipped pdf (accuracy st) (X st) (ncol j (mu st !!! i)) (covar st)) ∧
     is_pos ((latent_var_prior st !!! i) !!! j)) →
  Forall is_pos (unnormalised_row pdf st i t).
Proof.
  intros Hpdf HX Ht Hpos. unfold unnormalised_row.
  apply Forall_fmap, Forall_forall. intros j [_ Hj]%elem_of_seq. simpl in *.
  destruct (Hpos j Hj) as [Hp Hl]. unfold unnormalised.
  destruct (lookup_lt_is_Some_2
              (bounded_variable (pdf (X st) (ncol j (mu st !!! i)) (covar st))
                 (accuracy st) (nsub n1 (accuracy st))) t) as [p Hpt].
  { by rewrite bounded_variable_length, Hpdf, HX. }
  rewrite (list_lookup_total_correct _ _ (nmul p ((latent_var_prior st !!! i) !!! j))).
  - apply nmul_pos; [|done]. by eapply (Forall_lookup_1 _ _ _ _ Hp).
  - by rewrite list_lookup_fmap, Hpt.
Qed.

(** C4.  After an E-step, every row of the responsibilities of a class [i]
    (so every row of an observation labelled [i]) sums to 1 over the
    [clusters[i]] columns, when the clipped densities and the mixing weights
    of the class are positive. *)
Theorem e_step_rows_sum_to_one pdf ln st i M t :
  pdf_rows pdf → length (X st) = n st →
  responsibilities st !! i = Some M →
  has_shape (n st) (clusters st !!! i) M →
  (0 < clusters st !!! i)%nat →
  (∀ j, (j < clusters st !!! i)%nat →
     Forall is_pos (clipped pdf (accuracy st) (X st) (ncol j (mu st !!! i)) (covar st)) ∧
     is_pos ((latent_var_prior st !!! i) !!! j)) →
  (t < n st)%nat →
  ∃ M' row, responsibilities (e_step pdf ln st) !! i = Some M' ∧
            M' !! t = Some row ∧
            length row = clusters st !!! i ∧
            nvsum row = Fin 1.
Proof.
  intros Hpdf HX HM Hsh Hc Hpos Ht.
  destruct (e_step_row pdf ln st i M t Hpdf HX HM Hsh Ht) as (M' & HM' & _ & Hu & Hrow).
  pose proof (unnormalised_row_pos pdf st i t Hpdf HX Ht Hpos) as Hupos.
  destruct (normalise_pos_row (unnormalised_row pdf st i t)) as (_ & _ & Hlen & Hsum);
    [|done|].
  { intros E. rewrite E in Hu. simpl in Hu. lia. }
  eexists M', _. repeat split; [done|done| |done]. by rewrite Hlen.
Qed.



Lemma demo_init_pos j :
  (j < clusters demo_init !!! 0%nat)%nat →
  Forall is_pos (clipped tent_pdf (accuracy demo_init) (X demo_init)
                   (ncol j (mu demo_init !!! 0%nat)) (covar demo_init)) ∧
  is_pos ((latent_var_prior demo_init !!! 0%nat) !!! j).
Proof.
  change (clusters demo_init !!! 0%nat) with 2%nat. intros Hj.
  destruct j as [|[|j]]; [by_eval..|lia].
Qed.

Lemma e_step_rows_sum_to_one_witness :
  ∃ M' row, responsibilities (e_step tent_pdf tangent_ln demo_init) !! 0%nat = Some M' ∧
            M' !! 1%nat = Some row ∧
            length row = clusters demo_init !!! 0%nat ∧
            nvsum row = Fin 1.
Proof.
  apply (e_step_rows_sum_to_one tent_pdf tangent_ln demo_init 0
           (responsibilities demo_init !!! 0%nat) 1 tent_pdf_rows).
  - by_eval.
  - by_eval.
  - by_eval.
  - by_eval.
  - apply demo_init_pos.
  - by_eval.
Defined.


(** ** The inference *)

Lemma imap_pair_seq {A} `{Inhabited A} (l : list A) :
  imap pair l = map (λ i, (i, l !!! i)) (seq 0 (length l)).
Proof.
  apply list_eq. intros i. rewrite list_lookup_imap, list_lookup_fmap.
  destruct (l !! i) as [x|] eqn:E; simpl.
  - rewrite lookup_seq_lt by (by eapply lookup_lt_Some). simpl.
    by rewrite (list_lookup_total_correct _ _ _ E).
  - rewrite lookup_seq_ge; [done|]. by apply lookup_ge_None.
Qed.

Lemma nadd_nonneg_pos x y : is_nonneg x → is_pos y → is_pos (nadd x y).
Proof. destruct x, y; simpl; try done. apply Qcplus_nonneg_pos. Qed.

Lemma is_pos_nonneg x : is_pos x → is_nonneg x.
Proof. destruct x; simpl; try done. apply Qclt_le_weak. Qed.

Section Posterior.
Variable pdf : matrix → vector → matrix → vector.

Lemma posterior_fold st :
  length (clusters st) = k st →
  foldl (posterior_class pdf st) (nzeros (n st) (k st)) (imap pair (clusters st))
  = foldl (λ M k_, set_col k_ (joint_col pdf st k_) M) (nzeros (n st) (k st))
          (seq 0 (k st)).
Proof.
  intros Hk. rewrite imap_pair_seq, Hk.
  change (map ?f ?l) with (f <$> l). by rewrite foldl_fmap.
Qed.

(** The mixture density of a class with at least one component is positive
    when its clipped densities and mixing weights are. *)
Lemma class_prob_pos st k_ :
  pdf_rows pdf → length (X st) = n st →
  (0 < clusters st !!! k_)%nat →
  (∀ j, (j < clusters st !!! k_)%nat →
     Forall is_pos (clipped pdf (accuracy st) (X st) (ncol j (mu st !!! k_)) (covar st)) ∧
     is_pos ((latent_var_prior st !!! k_) !!! j)) →
  length (class_prob pdf st k_) = n st ∧ Forall is_pos (class_prob pdf st k_).
Proof.
  intros Hpdf HX Hc Hpos. unfold class_prob.
  set (c := clusters st !!! k_) in *.
  assert (Hinv : ∀ j0, (j0 ≤ c)%nat →
    let cp := foldl (λ a j, posterior_body pdf st k_ j a) (replicate (n st) n0) (seq 0 j0) in
    length cp = n st ∧ Forall is_nonneg cp ∧ ((0 < j0)%nat → Forall is_pos cp)).
  { induction j0 as [|j0 IH]; intros Hj0; cbv zeta.
    - simpl. rewrite length_replicate. split; [done|]. split; [|lia].
      by apply Forall_replicate.
    - rewrite seq_S, foldl_snoc. simpl.
      destruct IH as (Hlen & Hnn & _); [lia|].
      set (cp := foldl _ _ (seq 0 j0)) in *.
      destruct (Hpos j0) as [Hp Hl]; [lia|].
      unfold posterior_body.
      assert (Hq : Forall is_pos
                (map (λ x, nmul x ((latent_var_prior st !!! k_) !!! j0))
                   (bounded_variable (pdf (X st) (ncol j0 (mu st !!! k_)) (covar st))
                      (accuracy st) (nsub n1 (accuracy st))))).
      { apply Forall_fmap. eapply Forall_impl; [exact Hp|].
        intros x Hx. simpl. by apply nmul_pos. }
      assert (Hsum : Forall is_pos (zip_with nadd cp
                (map (λ x, nmul x ((latent_var_prior st !!! k_) !!! j0))
                   (bounded_variable (pdf (X st) (ncol j0 (mu st !!! k_)) (covar st))
                      (accuracy st) (nsub n1 (accuracy st)))))).
      { eapply Forall_zip_with_fst; [exact Hnn|].
        eapply Forall_impl; [exact Hq|]. intros y Hy x Hx.
        by apply nadd_nonneg_pos. }
      split; [|split; [|done]].
      + rewrite length_zip_with, length_map, bounded_variable_length, Hpdf, HX. lia.
      + eapply Forall_impl; [exact Hsum|]. apply is_pos_nonneg. }
  destruct (Hinv c) as (Hlen & _ & Hp); [lia|]. split; [done|]. by apply Hp.
Qed.

Lemma joint_col_pos st k_ :
  pdf_rows pdf → length (X st) = n st →
  (0 < clusters st !!! k_)%nat →
  (∀ j, (j < clusters st !!! k_)%nat →
     Forall is_pos (clipped pdf (accuracy st) (X st) (ncol j (mu st !!! k_)) (covar st)) ∧
     is_pos ((latent_var_prior st !!! k_) !!! j)) →
  is_pos (class_prior st !!! k_) →
  length (joint_col pdf st k_) = n st ∧ Forall is_pos (joint_col pdf st k_).
Proof.
  intros Hpdf HX Hc Hpos Hprior.
  destruct (class_prob_pos st k_ Hpdf HX Hc Hpos) as [Hlen Hp].
  unfold joint_col. split; [by rewrite length_map|].
  apply Forall_fmap. eapply Forall_impl; [exact Hp|].
  intros x Hx. simpl. by apply nmul_pos.
Qed.
End Posterior.

(** C3, as the code has it.  [posterior_probs] takes no query matrix (a call
    with one is a [TypeError]): it scores the stored training matrix and
    returns an [n × k] array.  When there is at least one class, every class
    has at least one component, and the clipped densities, the mixing weights
    and the class priors are positive, every entry of the result is a positive
    number and every row sums to 1. *)
Theorem posterior_probs_row_stochastic pdf st :
  pdf_rows pdf → length (X st) = n st →
  length (clusters st) = k st → (0 < k st)%nat →
  (∀ k_, (k_ < k st)%nat →
     (0 < clusters st !!! k_)%nat ∧
     is_pos (class_prior st !!! k_) ∧
     ∀ j, (j < clusters st !!! k_)%nat →
       Forall is_pos (clipped pdf (accuracy st) (X st) (ncol j (mu st !!! k_)) (covar st)) ∧
       is_pos ((latent_var_prior st !!! k_) !!! j)) →
  call_posterior_probs pdf st [] = Ok (posterior_probs pdf st) ∧
  (∀ query args, call_posterior_probs pdf st (query :: args) = Raise TypeError st) ∧
  has_shape (n st) (k st) (posterior_probs pdf st) ∧
  ∀ row, row ∈ posterior_probs pdf st → Forall is_pos row ∧ nvsum row = Fin 1.
Proof.
  intros Hpdf HX Hk Hk0 Hpos. split; [done|]. split; [done|].
  unfold posterior_probs. rewrite (posterior_fold pdf st Hk).
  destruct (fold_set_col_inv (joint_col pdf st) (n st) (k st)
              (nzeros (n st) (k st)) (k st)) as [Hsh Hcols].
  { split; [apply length_replicate|]. apply Forall_replicate, length_replicate. }
  { intros j Hj. destruct (Hpos j Hj) as (Hc & Hprior & Hd).
    by apply joint_col_pos. }
  { lia. }
  set (P := foldl _ _ (seq 0 (k st))) in *.
  assert (Hrows : ∀ t row, P !! t = Some row →
            row ≠ [] ∧ Forall is_pos row ∧ length row = k st).
  { intros t row Hrow.
    pose proof (has_shape_row _ _ _ _ _ Hsh Hrow) as Hlen.
    split; [intros ->; simpl in Hlen; lia|]. split; [|done].
    apply Forall_lookup_2. intros j x Hx.
    assert (Hj : (j < k st)%nat) by (rewrite <-Hlen; by eapply lookup_lt_Some).
    rewrite (Hcols _ _ Hrow j Hj) in Hx.
    destruct (Hpos j Hj) as (Hc & Hprior & Hd).
    destruct (joint_col_pos pdf st j Hpdf HX Hc Hd Hprior) as [_ Hp].
    by eapply (Forall_lookup_1 _ _ _ _ Hp). }
  fold (normalise_rows (k st) P).
  assert (Hnorm : ∀ t row', normalise_rows (k st) P !! t = Some row' →
            Forall is_pos row' ∧ length row' = k st ∧ nvsum row' = Fin 1).
  { intros t row' Hrow'.
    destruct (lookup_lt_is_Some_2 P t) as [row Hrow].
    { rewrite <-normalise_rows_length with (c := k st). by eapply lookup_lt_Some. }
    destruct (Hrows t row Hrow) as (Hne & Hp & Hlen).
    rewrite (normalise_rows_lookup _ _ _ _ Hrow), <-Hlen in Hrow'.
    injection Hrow' as <-.
    destruct (normalise_pos_row row Hne Hp) as (_ & H1 & H2 & H3).
    split; [done|]. split; [lia|done]. }
  split.
  - split; [rewrite normalise_rows_length; apply Hsh|].
    apply Forall_lookup_2. intros t row' Hrow'. by apply (Hnorm t).
  - intros row' (t & Hrow')%list_elem_of_lookup.
    destruct (Hnorm t row' Hrow') as (? & _ & ?). done.
Qed.

(** [train()] succeeds on the concrete data, and a call of the fitted
    object's [posterior_probs] with a query matrix is refused. *)
Lemma posterior_probs_takes_no_query :
  (∃ ex out, train tent_pdf tangent_ln deal_fit_predict demo_globals demo_new []
             = Ok (ex, demo_fit, out)) ∧
  call_posterior_probs tent_pdf demo_fit [[[zn 5]]] = Raise TypeError demo_fit.
Proof.
  split; [|done]. eexists _, _. vm_compute. reflexivity.
Qed.

Lemma demo_fit_pos k_ :
  (k_ < k demo_fit)%nat →
  (0 < clusters demo_fit !!! k_)%nat ∧
  is_pos (class_prior demo_fit !!! k_) ∧
  ∀ j, (j < clusters demo_fit !!! k_)%nat →
    Forall is_pos (clipped tent_pdf (accuracy demo_fit) (X demo_fit)
                     (ncol j (mu demo_fit !!! k_)) (covar demo_fit)) ∧
    is_pos ((latent_var_prior demo_fit !!! k_) !!! j).
Proof.
  change (k demo_fit) with 2%nat. intros Hk.
  destruct k_ as [|[|k_]]; [| |lia].
  - split; [by_eval|]. split; [by_eval|].
    change (clusters demo_fit !!! 0%nat) with 2%nat. intros j Hj.
    destruct j as [|[|j]]; [by_eval..|lia].
  - split; [by_eval|]. split; [by_eval|].
    change (clusters demo_fit !!! 1%nat) with 1%nat. intros j Hj.
    destruct j as [|j]; [by_eval|lia].
Qed.

Lemma posterior_probs_row_stochastic_witness :
  has_shape 4 2 (posterior_probs tent_pdf demo_fit) ∧
  ∀ row, row ∈ posterior_probs tent_pdf demo_fit →
         Forall is_pos row ∧ nvsum row = Fin 1.
Proof.
  apply (posterior_probs_row_stochastic tent_pdf demo_fit tent_pdf_rows).
  - by_eval.
  - by_eval.
  - by_eval.
  - apply demo_fit_pos.
Defined.
(** ** The clamp in the E-step and in the inference *)

Lemma clamp1_clip lo hi v : nleb lo hi = true → clamp1 lo hi v = clip lo hi v.
Proof.
  intros Hlh%nleb_not_gt. unfold clamp1, clip, nltb.
  destruct (ngtb v hi); [by rewrite Hlh|done].
Qed.

Lemma bounded_variable_clip x lo hi :
  nleb lo hi = true → bounded_variable x lo hi = map (clip lo hi) x.
Proof.
  intros Hlh. rewrite bounded_variable_map. apply map_ext. intros v.
  by apply clamp1_clip.
Qed.

Lemma zip_with_replicate_r {A B C} (f : A → B → C) (l : list A) (b : B) :
  zip_with f l (replicate (length l) b) = map (λ x, f x b) l.
Proof. induction l as [|x l IH]; simpl; [done|]. by rewrite IH. Qed.

Lemma normalise_row (row : vector) :
  zip_with ndiv row (map (nmul (nvsum row)) (nones (length row))) = normalised row.
Proof.
  cbv beta. change (map (nmul (nvsum row)) (replicate (length row) n1))
    with (nmul (nvsum row) <$> replicate (length row) n1).
  rewrite fmap_replicate, nmul_1_r. apply zip_with_replicate_r.
Qed.

Section Clamp.
Variable pdf : matrix → vector → matrix → vector.

(** The clipped densities of a component, as the methods compute them. *)
Lemma clipped_lookup st i j t :
  pdf_rows pdf → length (X st) = n st → (t < n st)%nat →
  nleb (accuracy st) (nsub n1 (accuracy st)) = true →
  bounded_variable (pdf (X st) (ncol j (mu st !!! i)) (covar st))
                   (accuracy st) (nsub n1 (accuracy st)) !! t
  = Some (clipped_density pdf st i j t).
Proof.
  intros Hpdf HX Ht Hacc. rewrite bounded_variable_clip by done.
  rewrite list_lookup_fmap.
  destruct (lookup_lt_is_Some_2 (pdf (X st) (ncol j (mu st !!! i)) (covar st)) t)
    as [p Hp]; [rewrite Hpdf; lia|].
  rewrite Hp. simpl. unfold clipped_density.
  by rewrite (list_lookup_total_correct _ _ _ Hp).
Qed.

Lemma unnormalised_lookup st i j t :
  pdf_rows pdf → length (X st) = n st → (t < n st)%nat →
  nleb (accuracy st) (nsub n1 (accuracy st)) = true →
  unnormalised pdf st i j !! t = Some (weighted_density pdf st i j t).
Proof.
  intros Hpdf HX Ht Hacc. unfold unnormalised.
  by rewrite list_lookup_fmap, clipped_lookup.
Qed.

Lemma e_step_row_clip ln st i M t :
  pdf_rows pdf → length (X st) = n st →
  nleb (accuracy st) (nsub n1 (accuracy st)) = true →
  responsibilities st !! i = Some M →
  has_shape (n st) (clusters st !!! i) M →
  (t < n st)%nat →
  ∃ M', responsibilities (e_step pdf ln st) !! i = Some M' ∧
        length M' = n st ∧
        M' !! t = Some (responsibility_row pdf st i t).
Proof.
  intros Hpdf HX Hacc HM Hsh Ht.
  destruct (e_step_row pdf ln st i M t Hpdf HX HM Hsh Ht) as (M' & HM' & Hlen & _ & Hrow).
  exists M'. split; [done|]. split; [done|].
  rewrite Hrow, normalise_row. unfold responsibility_row, unnormalised_row.
  do 2 f_equal. apply map_ext. intros j.
  apply list_lookup_total_correct. by apply unnormalised_lookup.
Qed.

(** The E-step takes the logarithm of clipped densities and of mixing weights
    only. *)
Lemma e_step_body_log ln ln' st i j a :
  pdf_rows pdf → length (X st) = n st →
  nleb (accuracy st) (nsub n1 (accuracy st)) = true →
  (∀ t, (t < n st)%nat →
        ln (clipped_density pdf st i j t) = ln' (clipped_density pdf st i j t)) →
  ln ((latent_var_prior st !!! i) !!! j) = ln' ((latent_var_prior st !!! i) !!! j) →
  e_step_body pdf ln st i j a = e_step_body pdf ln' st i j a.
Proof.
  intros Hpdf HX Hacc Hd Hw. destruct a as [resp_k lb]. unfold e_step_body.
  rewrite Hw.
  assert (Hmap : map ln (bounded_variable (pdf (X st) (ncol j (mu st !!! i)) (covar st))
                           (accuracy st) (nsub n1 (accuracy st)))
                 = map ln' (bounded_variable (pdf (X st) (ncol j (mu st !!! i)) (covar st))
                              (accuracy st) (nsub n1 (accuracy st)))).
  { apply list_eq. intros t. rewrite !list_lookup_fmap.
    destruct (decide (t < n st)%nat) as [Ht|Ht].
    - rewrite clipped_lookup by done. simpl. by rewrite Hd.
    - rewrite (proj2 (lookup_ge_None _ t)); [done|].
      rewrite bounded_variable_length, Hpdf. lia. }
  by rewrite Hmap.
Qed.

Lemma e_step_log ln ln' st :
  pdf_rows pdf → length (X st) = n st →
  nleb (accuracy st) (nsub n1 (accuracy st)) = true →
  (∀ i j t, (t < n st)%nat →
        ln (clipped_density pdf st i j t) = ln' (clipped_density pdf st i j t)) →
  (∀ i j, ln ((latent_var_prior st !!! i) !!! j)
          = ln' ((latent_var_prior st !!! i) !!! j)) →
  e_step pdf ln st = e_step pdf ln' st.
Proof.
  intros Hpdf HX Hacc Hd Hw.
  assert (Hclass : ∀ i a, e_step_class pdf ln st i a = e_step_class pdf ln' st i a).
  { intros i a. unfold e_step_class.
    rewrite (foldl_ext_all _ (λ a j, e_step_body pdf ln' st i j a)); [done|].
    intros a' j. apply e_step_body_log; auto. }
  assert (Hclasses : ∀ resps i lb,
            e_step_classes pdf ln st i resps lb = e_step_classes pdf ln' st i resps lb).
  { induction resps as [|R resps IH]; intros i lb; simpl; [done|].
    rewrite Hclass. destruct (e_step_class pdf ln' st i (R, lb)). by rewrite IH. }
  unfold e_step. by rewrite Hclasses.
Qed.

(** The mixture density the inference accumulates for a class. *)
Lemma class_prob_lookup st k_ t :
  pdf_rows pdf → length (X st) = n st → (t < n st)%nat →
  nleb (accuracy st) (nsub n1 (accuracy st)) = true →
  class_prob pdf st k_ !! t = Some (mixture_density pdf st k_ t).
Proof.
  intros Hpdf HX Ht Hacc. unfold class_prob, mixture_density.
  generalize (clusters st !!! k_). intros c.
  induction c as [|c IH].
  - simpl. by rewrite lookup_replicate_2.
  - rewrite seq_S, !foldl_snoc. simpl. unfold posterior_body at 1.
    rewrite lookup_zip_with, IH. simpl.
    rewrite list_lookup_fmap, clipped_lookup by done. done.
Qed.

Lemma joint_col_lookup st k_ t :
  pdf_rows pdf → length (X st) = n st → (t < n st)%nat →
  nleb (accuracy st) (nsub n1 (accuracy st)) = true →
  joint_col pdf st k_ !! t
  = Some (nmul (mixture_density pdf st k_ t) (class_prior st !!! k_)).
Proof.
  intros Hpdf HX Ht Hacc. unfold joint_col.
  by rewrite list_lookup_fmap, class_prob_lookup.
Qed.

Lemma joint_col_length st k_ :
  pdf_rows pdf → length (X st) = n st → length (joint_col pdf st k_) = n st.
Proof.
  intros Hpdf HX. unfold joint_col, class_prob. rewrite length_map.
  generalize (seq 0 (clusters st !!! k_)). intros js.
  assert (H : ∀ cp, length cp = n st →
            length (foldl (λ a j, posterior_body pdf st k_ j a) cp js) = n st).
  { induction js as [|j js IH]; intros cp Hcp; simpl; [done|].
    apply IH. unfold posterior_body.
    rewrite length_zip_with, length_map, bounded_variable_length, Hpdf, HX. lia. }
  apply H, length_replicate.
Qed.

Lemma posterior_probs_row_clip st :
  pdf_rows pdf → length (X st) = n st →
  nleb (accuracy st) (nsub n1 (accuracy st)) = true →
  length (clusters st) = k st →
  length (posterior_probs pdf st) = n st ∧
  ∀ t, (t < n st)%nat →
       posterior_probs pdf st !! t = Some (posterior_row pdf st t).
Proof.
  intros Hpdf HX Hacc Hk. unfold posterior_probs.
  rewrite (posterior_fold pdf st Hk).
  destruct (fold_set_col_inv (joint_col pdf st) (n st) (k st)
              (nzeros (n st) (k st)) (k st)) as [Hsh Hcols].
  { split; [apply length_replicate|]. apply Forall_replicate, length_replicate. }
  { intros j _. by apply joint_col_length. }
  { lia. }
  set (P := foldl _ _ (seq 0 (k st))) in *.
  fold (normalise_rows (k st) P).
  split; [rewrite normalise_rows_length; apply Hsh|]. intros t Ht.
  destruct (lookup_lt_is_Some_2 P t) as [row Hrow]; [destruct Hsh; lia|].
  pose proof (has_shape_row _ _ _ _ _ Hsh Hrow) as Hlen.
  rewrite (normalise_rows_lookup _ _ _ _ Hrow), <-Hlen, normalise_row.
  unfold posterior_row. do 2 f_equal.
  apply list_eq. intros j. rewrite list_lookup_fmap.
  destruct (decide (j < k st)%nat) as [Hj|Hj].
  - rewrite (Hcols _ _ Hrow j Hj), lookup_seq_lt by done. simpl.
    by apply joint_col_lookup.
  - rewrite lookup_seq_ge by lia. apply lookup_ge_None_2. lia.
Qed.
End Clamp.

(** C6.  [bounded_variable(x, lo, hi)] with [lo <= hi] is the clamp of every
    entry: a value between the bounds stays, a value above [hi] becomes [hi],
    a value below [lo] becomes [lo], and every value that is a number ends
    inside [[lo, hi]].  With [accuracy <= 1 - accuracy], the E-step and the
    inference use the densities clipped into [[accuracy, 1 - accuracy]], and
    nothing else of the densities: the E-step leaves in every row of the
    responsibilities the clipped densities times the mixing weights, divided
    by their sum, and it takes the logarithm of clipped densities and of
    mixing weights only; the inference returns in every row the sums of the
    same clipped densities times the mixing weights, times the class priors,
    divided by their sum. *)
Theorem density_clamp pdf ln st :
  pdf_rows pdf → length (X st) = n st →
  nleb (accuracy st) (nsub n1 (accuracy st)) = true →
  (∀ (x : vector) lo hi, nleb lo hi = true →
     bounded_variable x lo hi = map (clip lo hi) x ∧
     ∀ v, (nleb lo v = true → nleb v hi = true → clip lo hi v = v) ∧
          (ngtb v hi = true → clip lo hi v = hi) ∧
          (nltb v lo = true → clip lo hi v = lo) ∧
          (v ≠ NaN → nleb lo (clip lo hi v) = true ∧
                     nleb (clip lo hi v) hi = true)) ∧
  (∀ i M t, responsibilities st !! i = Some M →
     has_shape (n st) (clusters st !!! i) M → (t < n st)%nat →
     ∃ M', responsibilities (e_step pdf ln st) !! i = Some M' ∧
           length M' = n st ∧
           M' !! t = Some (responsibility_row pdf st i t)) ∧
  (∀ ln' : num → num,
     (∀ i j t, (t < n st)%nat →
        ln (clipped_density pdf st i j t) = ln' (clipped_density pdf st i j t)) →
     (∀ i j, ln ((latent_var_prior st !!! i) !!! j)
             = ln' ((latent_var_prior st !!! i) !!! j)) →
     e_step pdf ln st = e_step pdf ln' st) ∧
  (length (clusters st) = k st →
   length (posterior_probs pdf st) = n st ∧
   ∀ t, (t < n st)%nat →
        posterior_probs pdf st !! t = Some (posterior_row pdf st t)).
Proof.
  intros Hpdf HX Hacc. split; [|split; [|split]].
  - intros x lo hi Hlh. split; [by apply bounded_variable_clip|].
    intros v. rewrite <-(clamp1_clip lo hi v Hlh). repeat split.
    + apply clamp1_inside.
    + by apply clamp1_above.
    + by apply clamp1_below.
    + by apply clamp1_range.
    + by apply clamp1_range.
  - intros i M t HM Hsh Ht. by apply (e_step_row_clip pdf ln st i M t).
  - intros ln' Hd Hw. by apply e_step_log.
  - intros Hk. by apply posterior_probs_row_clip.
Qed.

Lemma density_clamp_witness :
  bounded_variable [zn 0; dec 1 2; zn 2] lit_1e_5 (nsub n1 lit_1e_5)
  = [lit_1e_5; dec 1 2; nsub n1 lit_1e_5] ∧
  (∃ M', responsibilities (e_step tent_pdf tangent_ln demo_init) !! 0%nat = Some M' ∧
         length M' = n demo_init ∧
         M' !! 1%nat = Some (responsibility_row tent_pdf demo_init 0 1)) ∧
  posterior_probs tent_pdf demo_init !! 1%nat = Some (posterior_row tent_pdf demo_init 1).
Proof.
  assert (HX : length (X demo_init) = n demo_init) by by_eval.
  assert (Hacc : nleb (accuracy demo_init) (nsub n1 (accuracy demo_init)) = true)
    by (by vm_compute).
  destruct (density_clamp tent_pdf tangent_ln demo_init tent_pdf_rows HX Hacc)
    as (_ & H2 & _ & H4).
  split; [by_eval|]. split.
  - apply (H2 0%nat (responsibilities demo_init !!! 0%nat) 1%nat); by_eval.
  - destruct H4 as [_ H4]; [by_eval|]. apply H4. by_eval.
Defined.

(** ** Arrays of finite numbers *)

Lemma map_seq_ext {A} (f g : nat → A) r :
  (∀ a, (a < r)%nat → f a = g a) → map f (seq 0 r) = map g (seq 0 r).
Proof.
  intros H. apply list_eq. intros a. rewrite !list_lookup_fmap.
  destruct (decide (a < r)%nat) as [Ha|Ha].
  - rewrite lookup_seq_lt by done. simpl. by rewrite H.
  - by rewrite lookup_seq_ge by lia.
Qed.

Lemma bigsum_ext r f g :
  (∀ t, (t < r)%nat → f t = g t) → bigsum r f = bigsum r g.
Proof. intros H. unfold bigsum. by rewrite (map_seq_ext f g r H). Qed.

Lemma bigsum_S r f : bigsum (S r) f = bigsum r f + f r.
Proof.
  unfold bigsum. rewrite seq_S, map_app. simpl.
  generalize (map f (seq 0 r)). intros l.
  induction l as [|x l IH]; simpl; [ring|]. rewrite IH. ring.
Qed.

Lemma bigsum_0 f : bigsum 0 f = 0.
Proof. reflexivity. Qed.

Lemma bigsum_zero r : bigsum r (λ _, 0) = 0.
Proof. induction r as [|r IH]; [done|]. rewrite bigsum_S, IH. ring. Qed.

Lemma bigsum_plus r f g :
  bigsum r (λ t, f t + g t) = bigsum r f + bigsum r g.
Proof.
  induction r as [|r IH]; [rewrite !bigsum_0; ring|].
  rewrite !bigsum_S, IH. ring.
Qed.

Lemma bigsum_scale_l r c f : bigsum r (λ t, c * f t) = c * bigsum r f.
Proof.
  induction r as [|r IH]; [rewrite !bigsum_0; ring|].
  rewrite !bigsum_S, IH. ring.
Qed.

Lemma bigsum_scale_r r c f : bigsum r (λ t, f t * c) = bigsum r f * c.
Proof.
  induction r as [|r IH]; [rewrite !bigsum_0; ring|].
  rewrite !bigsum_S, IH. ring.
Qed.

Lemma bigsum_swap r c (f : nat → nat → Qc) :
  bigsum r (λ a, bigsum c (λ b, f a b)) = bigsum c (λ b, bigsum r (λ a, f a b)).
Proof.
  induction r as [|r IH].
  - rewrite bigsum_0. symmetry. apply bigsum_zero.
  - rewrite bigsum_S, IH, <-bigsum_plus. apply bigsum_ext.
    intros b _. by rewrite bigsum_S.
Qed.

Lemma bigsum_nonneg r f : (∀ t, (t < r)%nat → 0 ≤ f t) → 0 ≤ bigsum r f.
Proof.
  induction r as [|r IH]; intros H; [done|].
  rewrite bigsum_S. apply Qcplus_nonneg_nonneg; [apply IH; intros; apply H; lia|].
  apply H. lia.
Qed.

(** A sum against an indicator picks one term. *)
Lemma bigsum_delta r t0 (f : nat → Qc) :
  (t0 < r)%nat →
  bigsum r (λ t, f t * (if decide (t = t0) then 1 else 0)) = f t0.
Proof.
  induction r as [|r IH]; intros Ht; [lia|].
  rewrite bigsum_S. destruct (decide (r = t0)) as [->|Hne].
  - rewrite (bigsum_ext _ _ (λ _, 0)), bigsum_zero; [ring|].
    intros t Hlt. destruct (decide (t = t0)); [lia|ring].
  - rewrite IH by lia. ring.
Qed.

Lemma vtab_length r f : length (vtab r f) = r.
Proof. unfold vtab. by rewrite length_map, length_seq. Qed.

Lemma vtab_lookup r f a : (a < r)%nat → vtab r f !! a = Some (Fin (f a)).
Proof. intros. unfold vtab. by rewrite list_lookup_fmap, lookup_seq_lt. Qed.

Lemma vtab_lookup_total r f a : (a < r)%nat → vtab r f !!! a = Fin (f a).
Proof. intros. by apply list_lookup_total_correct, vtab_lookup. Qed.

Lemma vtab_ext r f g : (∀ a, (a < r)%nat → f a = g a) → vtab r f = vtab r g.
Proof. intros H. apply map_seq_ext. intros a Ha. by rewrite H. Qed.

Lemma tab_shape r c f : has_shape r c (tab r c f).
Proof.
  unfold tab. split; [by rewrite length_map, length_seq|].
  apply Forall_fmap, Forall_forall. intros a _. apply vtab_length.
Qed.

Lemma tab_length r c f : length (tab r c f) = r.
Proof. apply tab_shape. Qed.

Lemma tab_lookup r c f a : (a < r)%nat → tab r c f !! a = Some (vtab c (f a)).
Proof. intros. unfold tab. by rewrite list_lookup_fmap, lookup_seq_lt. Qed.


Lemma map_tab {B} (h : vector → B) r c f :
  map h (tab r c f) = map (λ a, h (vtab c (f a))) (seq 0 r).
Proof. unfold tab. apply map_map. Qed.

Lemma map_vtab {B} (h : num → B) r f :
  map h (vtab r f) = map (λ a, h (Fin (f a))) (seq 0 r).
Proof. unfold vtab. apply map_map. Qed.

Lemma fin_vec_vtab (v : vector) : fin_vec v → v = vtab (length v) (vval v).
Proof.
  intros Hv. apply list_eq. intros a.
  destruct (v !! a) as [x|] eqn:E.
  - rewrite vtab_lookup by (by eapply lookup_lt_Some).
    unfold vval. rewrite (list_lookup_total_correct _ _ _ E).
    f_equal. apply is_fin_val. by eapply (Forall_lookup_1 _ _ _ _ Hv).
  - symmetry. apply lookup_ge_None. rewrite vtab_length. by apply lookup_ge_None.
Qed.

Lemma fin_mat_tab r c (M : matrix) :
  has_shape r c M → fin_mat M → M = tab r c (mval M).
Proof.
  intros [Hr Hc] HM. apply list_eq. intros a.
  destruct (M !! a) as [row|] eqn:E.
  - assert (Ha : (a < r)%nat) by (rewrite <-Hr; by eapply lookup_lt_Some).
    rewrite tab_lookup by done. f_equal.
    rewrite (fin_vec_vtab row) by (by eapply (Forall_lookup_1 _ _ _ _ HM)).
    rewrite (Forall_lookup_1 _ _ _ _ Hc E). apply vtab_ext. intros b _.
    unfold mval. by rewrite (list_lookup_total_correct _ _ _ E).
  - symmetry. apply lookup_ge_None. rewrite tab_length, <-Hr. by apply lookup_ge_None.
Qed.

Lemma vtab_fin r f : fin_vec (vtab r f).
Proof. apply Forall_fmap, Forall_forall. by intros. Qed.

Lemma tab_fin r c f : fin_mat (tab r c f).
Proof. apply Forall_fmap, Forall_forall. intros. apply vtab_fin. Qed.

Lemma ncols_tab r c f : (0 < r)%nat → ncols (tab r c f) = c.
Proof. destruct r; [lia|]. intros _. simpl. apply vtab_length. Qed.

Lemma ncol_tab r c f b :
  (b < c)%nat → ncol b (tab r c f) = vtab r (λ a, f a b).
Proof.
  intros Hb. unfold col. rewrite map_tab. apply map_seq_ext.
  intros a _. unfold entry. by rewrite vtab_lookup.
Qed.

Lemma ntranspose_tab r c f :
  (0 < r)%nat → ntranspose (tab r c f) = tab c r (λ a b, f b a).
Proof.
  intros Hr. unfold transpose. rewrite ncols_tab by done.
  apply map_seq_ext. intros b Hb. by apply ncol_tab.
Qed.

Lemma nvsum_vtab r f : nvsum (vtab r f) = Fin (bigsum r f).
Proof.
  unfold bigsum. rewrite <-nvsum_fin. unfold vtab. by rewrite map_map.
Qed.

Lemma zip_with_vtab (op : num → num → num) (qop : Qc → Qc → Qc) r f g :
  (∀ x y, op (Fin x) (Fin y) = Fin (qop x y)) →
  zip_with op (vtab r f) (vtab r g) = vtab r (λ a, qop (f a) (g a)).
Proof.
  intros Hop. apply list_eq. intros a. rewrite lookup_zip_with.
  destruct (decide (a < r)%nat) as [Ha|Ha].
  - rewrite !vtab_lookup by done. simpl. by rewrite Hop.
  - rewrite (proj2 (lookup_ge_None (vtab r f) a)); [|rewrite vtab_length; lia].
    symmetry. apply lookup_ge_None. rewrite vtab_length. lia.
Qed.


Lemma ndot_vtab r f g :
  ndot (vtab r f) (vtab r g) = Fin (bigsum r (λ t, f t * g t)).
Proof.
  unfold dot. rewrite (zip_with_vtab nmul Qcmult) by done. apply nvsum_vtab.
Qed.

Lemma nmatmul_tab r p c f g :
  (0 < p)%nat →
  nmatmul (tab r p f) (tab p c g)
  = tab r c (λ a b, bigsum p (λ t, f a t * g t b)).
Proof.
  intros Hp. unfold matmul. rewrite ncols_tab by done.
  rewrite map_tab. apply map_seq_ext. intros a Ha.
  apply map_seq_ext. intros b Hb.
  rewrite ncol_tab by done. apply ndot_vtab.
Qed.

Lemma ndiagflat_vtab r w :
  ndiagflat (vtab r w) = tab r r (λ a b, if decide (a = b) then w a else 0).
Proof.
  unfold diagflat. rewrite vtab_length.
  apply list_eq. intros a. rewrite list_lookup_imap.
  destruct (decide (a < r)%nat) as [Ha|Ha].
  - rewrite vtab_lookup, tab_lookup by done. simpl. f_equal.
    apply list_eq. intros b.
    destruct (decide (b < r)%nat) as [Hb|Hb].
    + rewrite vtab_lookup by done. destruct (decide (a = b)) as [->|Hne].
      * rewrite list_lookup_insert_eq; [done|by rewrite length_replicate].
      * rewrite list_lookup_insert_ne by done. by rewrite lookup_replicate_2.
    + rewrite (proj2 (lookup_ge_None (vtab r _) b)) by (rewrite vtab_length; lia).
      apply lookup_ge_None. rewrite length_insert, length_replicate. lia.
  - rewrite (proj2 (lookup_ge_None (vtab r w) a)) by (rewrite vtab_length; lia).
    simpl. symmetry. apply lookup_ge_None. rewrite tab_length. lia.
Qed.


Lemma nsum_axis1_tab r c f :
  nsum_axis1 (tab r c f) = vtab r (λ a, bigsum c (f a)).
Proof.
  unfold sum_axis1. rewrite map_tab. apply map_seq_ext.
  intros a _. apply nvsum_vtab.
Qed.


Lemma map_ndiv_vtab r f s :
  s ≠ 0 → map (λ x, ndiv x (Fin s)) (vtab r f) = vtab r (λ a, f a / s).
Proof.
  intros Hs. rewrite map_vtab. apply map_seq_ext. intros a _.
  by apply ndiv_fin.
Qed.

Lemma of_nat_ne0 r : (0 < r)%nat → Q2Qc (inject_Z (Z.of_nat r)) ≠ 0.
Proof.
  intros Hr E. apply (f_equal this) in E. simpl in E.
  assert (H : (Qred (inject_Z (Z.of_nat r)) == 0)%Q) by (rewrite E; reflexivity).
  rewrite Qred_correct in H. unfold Qeq in H. simpl in H. lia.
Qed.


(** ** Loops and what the M-step leaves alone *)

Lemma for_each_inv {I A S} (P : A → Prop) (body : I → A → result A S) xs a a' :
  P a →
  (∀ x a a', P a → body x a = Ok a' → P a') →
  for_each body xs a = Ok a' → P a'.
Proof.
  intros Ha Hstep. revert a Ha. induction xs as [|x xs IH]; intros a Ha; simpl.
  - by intros [= <-].
  - destruct (body x a) as [a1|e s] eqn:E; [|done]. apply IH. by eapply Hstep.
Qed.

Lemma for_each_ok {I A S} (body : I → A → result A S) (f : I → A → A) xs a :
  (∀ x a, body x a = Ok (f x a)) →
  for_each body xs a = Ok (foldl (λ a x, f x a) a xs).
Proof.
  intros H. revert a. induction xs as [|x xs IH]; intros a; simpl; [done|].
  by rewrite H, IH.
Qed.

Lemma m_step_body_frame g st i j s c s' c' :
  (∃ L M, s = with_estimates st L M) →
  m_step_body g i j (s, c) = Ok (s', c') →
  ∃ L M, s' = with_estimates st L M.
Proof.
  intros (L & M & ->). unfold m_step_body.
  destruct (g_X g) as [gX|]; [|done]. intros [= <- _]. by eexists _, _.
Qed.

Lemma m_step_frame g st st' :
  m_step g st = Ok st' →
  ∃ L M C, st' = set_covar (with_estimates st L M) C.
Proof.
  unfold m_step.
  destruct (for_each _ _ _) as [[s c]|e s] eqn:E; [|done]. intros [= <-].
  assert (∃ L M, s = with_estimates st L M) as (L & M & ->).
  { apply (for_each_inv (λ a, ∃ L M, fst a = with_estimates st L M) _ _
             (st, nzeros (m st) (m st)) (s, c)) in E; [done| |].
    - exists (latent_var_prior st), (mu st). by destruct st.
    - intros i [s1 c1] [s2 c2] H1 H2. simpl in *. unfold m_step_class in H2.
      apply (for_each_inv (λ a, ∃ L M, fst a = with_estimates st L M) _ _
               (s1, c1) (s2, c2)) in H2; [done|done|].
      intros j [s3 c3] [s4 c4] H3 H4. simpl in *.
      exact (m_step_body_frame g st i j s3 c3 s4 c4 H3 H4). }
  by eexists _, _, _.
Qed.

Lemma for_each_raise_inv {I A S} (P : A → Prop) (Q : exn → S → Prop)
    (body : I → A → result A S) xs a e s :
  P a →
  (∀ x a a', P a → body x a = Ok a' → P a') →
  (∀ x a e s, P a → body x a = Raise e s → Q e s) →
  for_each body xs a = Raise e s → Q e s.
Proof.
  intros Ha Hok Hr. revert a Ha. induction xs as [|x xs IH]; intros a Ha; simpl; [done|].
  destruct (body x a) as [a1|e1 s1] eqn:E1.
  - apply IH. exact (Hok x a a1 Ha E1).
  - intros [= <- <-]. exact (Hr x a e1 s1 Ha E1).
Qed.

(** A raised exception leaves an object that differs from the one before at
    most in the mixing weights and the means. *)
Lemma m_step_raise_frame g st e s :
  m_step g st = Raise e s → e = NameError ∧ ∃ L M, s = with_estimates st L M.
Proof.
  unfold m_step.
  destruct (for_each _ _ _) as [[s0 c]|e0 s0] eqn:E; [done|]. intros [= <- <-].
  set (P := λ a : MDA * matrix, ∃ L M, fst a = with_estimates st L M).
  set (Q := λ (e : exn) (s : MDA), e = NameError ∧ ∃ L M, s = with_estimates st L M).
  assert (Hbody_ok : ∀ i j a a', P a → m_step_body g i j a = Ok a' → P a').
  { intros i j [s1 c1] [s2 c2] H1 H2. unfold P in *. simpl in *.
    exact (m_step_body_frame g st i j s1 c1 s2 c2 H1 H2). }
  assert (Hbody_r : ∀ i j a e s, P a → m_step_body g i j a = Raise e s → Q e s).
  { intros i j [s1 c1] e1 s2 (L & M & H1). simpl in H1. subst s1.
    unfold m_step_body. destruct (g_X g); [done|]. intros [= <- <-].
    split; [done|]. by eexists _, _. }
  apply (for_each_raise_inv P Q _ _ _ _ _) in E; [done| | |].
  - exists (latent_var_prior st), (mu st). by destruct st.
  - intros i a a' Ha. unfold m_step_class.
    apply (for_each_inv P); [done|]. intros j a1 a2. apply Hbody_ok.
  - intros i a e1 s1 Ha. unfold m_step_class.
    apply (for_each_raise_inv P Q); [done| |].
    + intros j a1 a2. apply Hbody_ok.
    + intros j a1 e2 s2. apply Hbody_r.
Qed.

(** ** The convergence loop *)

Section Loop.
Variable pdf : matrix → vector → matrix → vector.
Variable ln : num → num.
Variable g : globals.

Lemma e_step_threshold st : mda_threshold (e_step pdf ln st) = mda_threshold st.
Proof. apply (e_step_frame pdf ln st). Qed.

Lemma e_step_bounds_length st :
  length (lower_bounds (e_step pdf ln st)) = S (length (lower_bounds st)).
Proof.
  destruct (e_step_lower_bounds pdf ln st) as [lb ->].
  rewrite length_app. simpl. lia.
Qed.

Lemma iterate_loop_sound idx delta st out ex st' out' :
  iterate_loop pdf ln g idx delta st out = Ok (ex, st', out') →
  ∃ j, em_loop pdf ln g (length idx) delta st j ex st' ∧
       (j ≤ length idx)%nat ∧
       length (lower_bounds st') = (length (lower_bounds st) + j)%nat ∧
       mda_threshold st' = mda_threshold st ∧
       (ex = MaxIterReached → j = length idx) ∧
       (ex = Converged → (1 ≤ j)%nat).
Proof.
  revert delta st out. induction idx as [|i idx IH]; intros delta st out; simpl.
  { intros [= <- <- <-]. exists 0%nat. repeat split; try done; try lia.
    constructor. }
  fold (relative_change delta (lower_bounds (e_step pdf ln st))).
  rewrite e_step_threshold.
  destruct (ngtb _ (mda_threshold st)) eqn:Hgt.
  - destruct (m_step g (e_step pdf ln st)) as [st2|e s] eqn:Hm; [|done].
    intros Hrec. apply IH in Hrec as (j & Hloop & Hj & Hlen & Hthr & Hmax & Hconv).
    destruct (m_step_frame _ _ _ Hm) as (L & M & C & ->).
    simpl in Hlen, Hthr. rewrite e_step_bounds_length in Hlen.
    rewrite e_step_threshold in Hthr.
    exists (S j). repeat split; try lia; try done.
    + by eapply em_continue.
    + intros E. by rewrite Hmax.
  - intros [= <- <- <-]. exists 1%nat.
    repeat split; try lia; try done.
    + by constructor.
    + rewrite e_step_bounds_length. lia.
    + apply e_step_threshold.
Qed.

Lemma iterate_loop_complete idx delta st out j ex st' :
  em_loop pdf ln g (length idx) delta st j ex st' →
  ∃ out', iterate_loop pdf ln g idx delta st out = Ok (ex, st', out').
Proof.
  remember (length idx) as r eqn:Hr. intros H. revert idx Hr out.
  induction H as [delta st|r delta st Hgt|r delta st st2 j ex st' Hgt Hm _ IH];
    intros idx Hr out.
  - destruct idx; [|done]. by eexists.
  - destruct idx as [|i idx]; [done|]. simpl.
    fold (relative_change delta (lower_bounds (e_step pdf ln st))).
    rewrite e_step_threshold, Hgt. by eexists.
  - destruct idx as [|i idx]; [done|]. simpl.
    fold (relative_change delta (lower_bounds (e_step pdf ln st))).
    rewrite e_step_threshold, Hgt, Hm.
    apply IH. simpl in Hr. lia.
Qed.
End Loop.

(** C9.  [_iterate] is the loop of the state machine: every iteration runs
    the E-step first, which appends exactly one lower bound; with two bounds
    in the history [delta] is [(bound[-1] - bound[-2]) / |bound[-2]|]; the
    M-step runs and the loop goes on exactly when [delta] exceeds the
    threshold, otherwise the loop stops as converged; after [max_iter]
    iterations it stops as exhausted.  The defaults are [1e-20] and [300]. *)
Theorem iterate_state_machine pdf ln g st out ex st' out' :
  iterate pdf ln g st out = Ok (ex, st', out') →
  (∃ j, em_loop pdf ln g (max_iter st) n1 st j ex st' ∧
        (j ≤ max_iter st)%nat ∧
        length (lower_bounds st') = (length (lower_bounds st) + j)%nat ∧
        (ex = MaxIterReached → j = max_iter st) ∧
        (ex = Converged → (1 ≤ j)%nat)) ∧
  (∀ j' ex' st'', em_loop pdf ln g (max_iter st) n1 st j' ex' st'' →
                  ex' = ex ∧ st'' = st') ∧
  (∀ delta b1 b2 hist,
     relative_change delta (hist ++ [b2; b1])
     = ndiv (nsub b1 b2) (nabs b2)) ∧
  (∀ gt X_ cl k_,
     mda_threshold (init gt X_ cl k_ default_options) = lit_1e_20 ∧
     max_iter (init gt X_ cl k_ default_options) = 300%nat).
Proof.
  intros H. unfold iterate in H. split; [|split; [|split]].
  - apply iterate_loop_sound in H as (j & H1 & H2 & H3 & _ & H4 & H5).
    rewrite length_seq in *. by exists j.
  - intros j' ex' st'' Hloop.
    destruct (iterate_loop_complete pdf ln g (seq 0 (max_iter st)) n1 st out
                j' ex' st'') as [out'' Hc].
    { by rewrite length_seq. }
    rewrite H in Hc. by injection Hc as -> -> _.
  - intros delta b1 b2 hist. unfold relative_change, from_end.
    rewrite length_app. simpl.
    destruct (decide _) as [_|Hn]; [|lia].
    assert (H1 : (hist ++ [b2; b1]) !!! (length hist + 2 - 1)%nat = b1).
    { apply list_lookup_total_correct. rewrite lookup_app_r by lia.
      by replace (length hist + 2 - 1 - length hist)%nat with 1%nat by lia. }
    assert (H2 : (hist ++ [b2; b1]) !!! (length hist + 2 - 2)%nat = b2).
    { apply list_lookup_total_correct. rewrite lookup_app_r by lia.
      by replace (length hist + 2 - 2 - length hist)%nat with 0%nat by lia. }
    by rewrite H1, H2.
  - done.
Qed.

Lemma iterate_state_machine_witness :
  ∃ j, em_loop tent_pdf tangent_ln demo_globals (max_iter demo_init) n1
         demo_init j Converged demo_fit ∧
       (j ≤ max_iter demo_init)%nat ∧
       length (lower_bounds demo_fit) = (length (lower_bounds demo_init) + j)%nat.
Proof.
  assert (H : ∃ out', iterate tent_pdf tangent_ln demo_globals demo_init [InitComplete]
                      = Ok (Converged, demo_fit, out')).
  { eexists. vm_compute. reflexivity. }
  destruct H as [out' H].
  destruct (iterate_state_machine _ _ _ _ _ _ _ _ H)
    as ((j & H1 & H2 & H3 & _) & _).
  exists j. split; [exact H1|]. split; [exact H2|exact H3].
Defined.

(** ** The class prior and the initialisation *)

Lemma initialise_class_frame fp st ic s s' :
  (∃ R, s = set_responsibilities st R) →
  initialise_class fp ic s = Ok s' →
  ∃ R, s' = set_responsibilities st R.
Proof.
  intros HR. destruct ic as [i cluster]. unfold initialise_class.
  destruct (fp _ _) as [prediction|]; [|done].
  apply (for_each_inv (λ a, ∃ R, a = set_responsibilities st R)); [done|].
  intros j a a' (R & ->). destruct (decide _); [|done].
  intros [= <-]. by eexists.
Qed.

Lemma initialise_params_frame fp g st out st' out' :
  initialise_params fp g st out = Ok (st', out') →
  ∃ R L M C,
    st' = set_covar
            (with_estimates (set_responsibilities (class_prior_compute st) R) L M) C.
Proof.
  unfold initialise_params.
  destruct (for_each _ _ _) as [s|e s] eqn:E; [|done].
  destruct (m_step g s) as [s1|e s1] eqn:Em; [|done]. intros [= <- _].
  apply (for_each_inv (λ a, ∃ R, a = set_responsibilities (class_prior_compute st) R))
    in E as [R ->].
  - destruct (m_step_frame _ _ _ Em) as (L & M & C & ->). by eexists _, _, _, _.
  - exists (responsibilities st). by destruct st.
  - intros ic a a'. apply initialise_class_frame.
Qed.

Lemma iterate_loop_class_prior pdf ln g idx delta st out ex st' out' :
  iterate_loop pdf ln g idx delta st out = Ok (ex, st', out') →
  class_prior st' = class_prior st ∧ freq st' = freq st.
Proof.
  revert delta st out. induction idx as [|i idx IH]; intros delta st out; simpl.
  { by intros [= _ <- _]. }
  destruct (ngtb _ _).
  - destruct (m_step g (e_step pdf ln st)) as [st2|e s] eqn:Hm; [|done].
    intros [H1 H2]%IH. destruct (m_step_frame _ _ _ Hm) as (L & M & C & ->).
    simpl in *. destruct (e_step_frame pdf ln st) as (_&_&_&_&_&_&Hp&_&Hf&_).
    by rewrite H1, H2, Hp, Hf.
  - intros [= _ <- _]. destruct (e_step_frame pdf ln st) as (_&_&_&_&_&_&Hp&_&Hf&_).
    done.
Qed.

Lemma nsum_axis0_lookup c (M : matrix) i :
  (i < c)%nat → nsum_axis0 c M !! i = Some (nvsum (ncol i M)).
Proof.
  intros Hi. unfold nsum_axis0. by rewrite list_lookup_fmap, lookup_seq_lt.
Qed.

Lemma class_prior_after_init st R L M C :
  class_prior (set_covar (with_estimates
                 (set_responsibilities (class_prior_compute st) R) L M) C)
  = map (λ f, py2_div (Y_dtype st) f (nvsum (freq st))) (freq st) ∧
  freq (set_covar (with_estimates
          (set_responsibilities (class_prior_compute st) R) L M) C)
  = freq st.
Proof. done. Qed.

Lemma train_class_prior pdf ln fp g st out ex st' out' :
  train pdf ln fp g st out = Ok (ex, st', out') →
  class_prior st' = map (λ f, py2_div (Y_dtype st) f (nvsum (freq st))) (freq st) ∧
  freq st' = freq st.
Proof.
  unfold train.
  destruct (initialise_params fp g st out) as [[s o1]|e s] eqn:Ei; [|done].
  apply initialise_params_frame in Ei as (R & L & M & C & ->).
  intros [Hp Hf]%iterate_loop_class_prior.
  destruct (class_prior_after_init st R L M C) as [H1 H2].
  by rewrite Hp, Hf, H1, H2.
Qed.

(** The floor of a quotient between 0 and 1. *)
Lemma nfloordiv_small (a b : Qc) :
  0 ≤ a → a < b → nfloordiv (Fin a) (Fin b) = Fin 0.
Proof.
  intros Ha Hab. unfold nfloordiv.
  destruct (decide (b = 0)) as [->|Hb]; [done|].
  assert (Hb0 : (0 < b)%Q) by (eapply Qle_lt_trans; [exact Ha|exact Hab]).
  assert (H0 : (0 <= a / b)%Q).
  { apply Qle_shift_div_l; [done|]. rewrite Qmult_0_l. exact Ha. }
  assert (H1 : (a / b < 1)%Q).
  { apply Qlt_shift_div_r; [done|]. rewrite Qmult_1_l. exact Hab. }
  assert (Hf : Qfloor (a / b) = 0%Z).
  { pose proof (Qfloor_le (a / b)) as Hle.
    pose proof (Qfloor_resp_le 0 (a / b) H0) as Hlo.
    assert (Hhi : (Qfloor (a / b) < 1)%Z).
    { rewrite Zlt_Qlt. eapply Qle_lt_trans; [exact Hle|]. exact H1. }
    change (Qfloor 0) with 0%Z in Hlo. lia. }
  rewrite Hf. done.
Qed.

(** C7.  The class prior is assigned by [_class_prior_compute], which
    [_initialise_params] calls once, and the E-step, the M-step and the whole
    loop leave it as it is: the prior of the fitted object is the quotient of
    the sum of column [i] of [Y] by the sum of all column sums, as Python 2
    computes it for the dtype of [Y].  For a float label array this is the
    quotient [freq[i] / sum(freq)].  For an integer label array it is its
    floor: [0] for every class that holds some but not all of the
    observations, where the quotient lies between 0 and 1. *)
Theorem class_prior_set_once pdf ln fp g gt X_ cl k_ o out ex st' out' :
  train pdf ln fp g (init gt X_ cl k_ o) out = Ok (ex, st', out') →
  (∀ i, (i < ncols (arr_rows gt))%nat →
        freq st' !! i = Some (nvsum (ncol i (arr_rows gt))) ∧
        class_prior st' !! i
        = Some (py2_div (arr_dtype gt) (nvsum (ncol i (arr_rows gt)))
                  (nvsum (nsum_axis0 (ncols (arr_rows gt)) (arr_rows gt))))) ∧
  (arr_dtype gt = dt_float →
   ∀ i, (i < ncols (arr_rows gt))%nat →
        class_prior st' !! i
        = Some (ndiv (nvsum (ncol i (arr_rows gt)))
                  (nvsum (nsum_axis0 (ncols (arr_rows gt)) (arr_rows gt))))) ∧
  (arr_dtype gt = dt_int →
   ∀ i a b, (i < ncols (arr_rows gt))%nat →
        nvsum (ncol i (arr_rows gt)) = Fin a →
        nvsum (nsum_axis0 (ncols (arr_rows gt)) (arr_rows gt)) = Fin b →
        0 ≤ a → a < b →
        class_prior st' !! i = Some (Fin 0)) ∧
  length (class_prior st') = ncols (arr_rows gt) ∧
  (∀ st, class_prior (e_step pdf ln st) = class_prior st) ∧
  (∀ st st1, m_step g st = Ok st1 → class_prior st1 = class_prior st) ∧
  (∀ st out0 ex1 st1 out1,
     iterate pdf ln g st out0 = Ok (ex1, st1, out1) →
     class_prior st1 = class_prior st).
Proof.
  intros H.
  assert (Hfreq : freq (init gt X_ cl k_ o)
                  = nsum_axis0 (ncols (arr_rows gt)) (arr_rows gt)) by done.
  assert (Hdt : Y_dtype (init gt X_ cl k_ o) = arr_dtype gt) by done.
  revert H Hfreq Hdt. generalize (init gt X_ cl k_ o). intros st0 H Hfreq Hdt.
  destruct (train_class_prior pdf ln fp g st0 out ex st' out' H) as [Hp Hf].
  assert (Hall : ∀ i, (i < ncols (arr_rows gt))%nat →
        freq st' !! i = Some (nvsum (ncol i (arr_rows gt))) ∧
        class_prior st' !! i
        = Some (py2_div (arr_dtype gt) (nvsum (ncol i (arr_rows gt)))
                  (nvsum (nsum_axis0 (ncols (arr_rows gt)) (arr_rows gt))))).
  { intros i Hi. rewrite Hp, Hf, Hfreq, Hdt. split; [by apply nsum_axis0_lookup|].
    rewrite list_lookup_fmap, nsum_axis0_lookup by done. done. }
  split; [exact Hall|]. split; [|split; [|split; [|split; [|split]]]].
  - intros Hd i Hi. destruct (Hall i Hi) as [_ ->]. by rewrite Hd.
  - intros Hd i a b Hi Ha Hb H0 Hab. destruct (Hall i Hi) as [_ ->].
    rewrite Hd, Ha, Hb. simpl. f_equal. by apply nfloordiv_small.
  - rewrite Hp, Hfreq, length_map. unfold nsum_axis0. by rewrite length_map, length_seq.
  - intros st. apply (e_step_frame pdf ln st).
  - intros st st1 Hm. by destruct (m_step_frame _ _ _ Hm) as (? & ? & ? & ->).
  - intros st out0 ex1 st1 out1 Hi. by apply iterate_loop_class_prior in Hi as [? _].
Qed.

(** On the integer labels of [demo_Y], two observations per class, the
    fitted object holds the frequencies 2 and 2 and the class prior 0 and
    0. *)
Lemma class_prior_set_once_witness :
  freq demo_int_fit = [zn 2; zn 2] ∧
  class_prior demo_int_fit = [zn 0; zn 0] ∧
  ∀ i, (i < 2)%nat →
       freq demo_int_fit !! i = Some (nvsum (ncol i demo_Y)) ∧
       class_prior demo_int_fit !! i
       = Some (nfloordiv (nvsum (ncol i demo_Y))
                         (nvsum (nsum_axis0 (ncols demo_Y) demo_Y))).
Proof.
  split; [by_eval|]. split; [by_eval|].
  assert (H : ∃ ex out', train tent_pdf tangent_ln deal_fit_predict demo_globals
                        (init (int_array demo_Y) demo_X [2; 1]%nat 2 default_options) []
                      = Ok (ex, demo_int_fit, out')).
  { eexists _, _. vm_compute. reflexivity. }
  destruct H as (ex & out' & H).
  exact (proj1 (class_prior_set_once _ _ _ _ _ _ _ _ _ _ _ _ _ H)).
Defined.

Lemma for_each_commute {I A S} (body : I → A → result A S)
    (f : A → A) (h : S → S) xs a :
  (∀ x a, body x (f a) = result_map f h (body x a)) →
  for_each body xs (f a) = result_map f h (for_each body xs a).
Proof.
  intros H. revert a. induction xs as [|x xs IH]; intros a; simpl; [done|].
  rewrite H. destruct (body x a); simpl; [apply IH|done].
Qed.

Lemma m_step_restarts g r st :
  m_step g (set_restarts r st) = result_map (set_restarts r) (set_restarts r) (m_step g st).
Proof.
  unfold m_step.
  change (set_restarts r st, nzeros (m (set_restarts r st)) (m (set_restarts r st)))
    with ((λ a : MDA * matrix, (set_restarts r (fst a), snd a)) (st, nzeros (m st) (m st))).
  rewrite (for_each_commute _ _ (set_restarts r)).
  - by destruct (for_each _ _ _) as [[s c]|e s].
  - intros i [s c]. unfold m_step_class. simpl.
    change (set_restarts r s, c)
      with ((λ a : MDA * matrix, (set_restarts r (fst a), snd a)) (s, c)).
    apply for_each_commute. intros j [s1 c1]. unfold m_step_body. simpl.
    by destruct (g_X g).
Qed.

Lemma initialise_params_restarts fp g r st out :
  initialise_params fp g (set_restarts r st) out
  = result_map (λ a : MDA * list event, (set_restarts r (fst a), snd a))
               (set_restarts r) (initialise_params fp g st out).
Proof.
  unfold initialise_params.
  change (class_prior_compute (set_restarts r st))
    with (set_restarts r (class_prior_compute st)).
  change (clusters (set_restarts r (class_prior_compute st)))
    with (clusters (class_prior_compute st)).
  rewrite (for_each_commute _ _ (set_restarts r)).
  - destruct (for_each _ _ _) as [s|e s]; simpl; [|done].
    rewrite m_step_restarts. by destruct (m_step g s).
  - intros [i cluster] s. unfold initialise_class.
    change (kmeans_of (set_restarts r s) cluster) with (kmeans_of s cluster).
    change (select_rows (label_mask (set_restarts r s) i) (X (set_restarts r s)))
      with (select_rows (label_mask s i) (X s)).
    destruct (fp _ _) as [prediction|]; [|done].
    apply for_each_commute. intros j s1. by destruct (decide _).
Qed.

(** C8, at the code.  The estimator [_initialise_params] constructs gets the
    number of clusters, [max_iter] and [tol]; [n_init] is not passed, whatever
    [init_restarts] the object was built with, so the library's default number
    of restarts applies and the initialisation is the same for every
    [init_restarts]. *)
Theorem init_restarts_ignored fp g gt X_ cl k_ o r cluster out :
  kmeans_retsarts (init gt X_ cl k_ (with_restarts o r)) = r ∧
  init_restarts default_options = 2%nat ∧
  kmeans_of (init gt X_ cl k_ (with_restarts o r)) cluster
  = {| n_clusters := cluster; km_max_iter := max_iter_init o;
       init_method := k_means_pp; tol := init_conv_theshold o;
       n_init := None |} ∧
  initialise_params fp g (init gt X_ cl k_ (with_restarts o r)) out
  = result_map (λ a : MDA * list event, (set_restarts r (fst a), snd a))
               (set_restarts r)
               (initialise_params fp g (init gt X_ cl k_ o) out).
Proof.
  split; [done|]. split; [done|]. split; [done|].
  change (init gt X_ cl k_ (with_restarts o r))
    with (set_restarts r (init gt X_ cl k_ o)).
  apply initialise_params_restarts.
Qed.

(** ** The M-step *)

Lemma ncol_set_col_eq {r c} j (v : vector) (M : matrix) :
  has_shape r c M → length v = r → (j < c)%nat → ncol j (set_col j v M) = v.
Proof.
  intros [Hr Hc] Hv Hj. apply list_eq. intros t. unfold col, set_col.
  rewrite list_lookup_fmap, lookup_zip_with.
  destruct (v !! t) as [x|] eqn:Ex.
  - destruct (lookup_lt_is_Some_2 M t) as [row Hrow].
    { rewrite Hr, <-Hv. by eapply lookup_lt_Some. }
    rewrite Hrow. simpl. unfold entry.
    rewrite list_lookup_insert_eq; [done|].
    rewrite (Forall_lookup_1 _ _ _ _ Hc Hrow). done.
  - destruct (M !! t); simpl; done.
Qed.

Lemma ncol_set_col_ne j j' (v : vector) (M : matrix) :
  length v = length M → j ≠ j' → ncol j' (set_col j v M) = ncol j' M.
Proof.
  intros Hv Hne. apply list_eq. intros t. unfold col, set_col.
  rewrite !list_lookup_fmap, lookup_zip_with.
  destruct (M !! t) as [row|] eqn:Erow; simpl; [|done].
  destruct (lookup_lt_is_Some_2 v t) as [x Hx].
  { rewrite Hv. by eapply lookup_lt_Some. }
  rewrite Hx. simpl. unfold entry. by rewrite list_lookup_insert_ne.
Qed.

Lemma elem_of_components cl classes i j :
  (i, j) ∈ components cl classes ↔ i ∈ classes ∧ (j < cl !!! i)%nat.
Proof.
  unfold components. rewrite list_elem_of_bind. split.
  - intros (i' & Hp & Hi). apply list_elem_of_fmap in Hp as (j' & [= -> ->] & Hj).
    apply elem_of_seq in Hj. split; [done|lia].
  - intros [Hi Hj]. exists i. split; [|done].
    apply list_elem_of_fmap. exists j. split; [done|]. apply elem_of_seq. lia.
Qed.

Lemma m_step_body_ok g gX i j acc :
  g_X g = Some gX → m_step_body g i j acc = Ok (m_body gX i j acc).
Proof. intros Hg. destruct acc as [st cov]. unfold m_step_body. by rewrite Hg. Qed.

Lemma with_estimates_twice st L M L' M' :
  with_estimates (with_estimates st L M) L' M' = with_estimates st L' M'.
Proof. reflexivity. Qed.

Lemma m_body_fold_frame gX st ps L M cov :
  ∃ L' M', fst (foldl (λ a p, m_body gX p.1 p.2 a) (with_estimates st L M, cov) ps)
           = with_estimates st L' M'.
Proof.
  revert L M cov. induction ps as [|[i j] ps IH]; intros L M cov; simpl.
  - by eexists _, _.
  - rewrite with_estimates_twice. apply IH.
Qed.

(** The two nested loops visit the components in order. *)
Lemma m_step_loops g gX classes st L M cov :
  g_X g = Some gX →
  for_each (m_step_class g) classes (with_estimates st L M, cov)
  = Ok (foldl (λ a p, m_body gX p.1 p.2 a) (with_estimates st L M, cov)
              (components (clusters st) classes)).
Proof.
  intros Hg. revert L M cov.
  induction classes as [|i classes IH]; intros L M cov; [done|].
  simpl. unfold m_step_class at 1.
  rewrite (for_each_ok _ (m_body gX i)) by (intros; by apply m_step_body_ok).
  simpl. rewrite foldl_app.
  change (map (pair i) ?l) with (pair i <$> l). rewrite foldl_fmap. simpl.
  set (a1 := foldl _ _ (seq 0 (clusters st !!! i))).
  destruct (m_body_fold_frame gX st (pair i <$> seq 0 (clusters st !!! i)) L M cov)
    as (L1 & M1 & H1).
  rewrite foldl_fmap in H1. simpl in H1. fold a1 in H1.
  destruct a1 as [s1 c1]. simpl in H1. subst s1. apply IH.
Qed.

Lemma new_mean_length gX st i j :
  has_shape (n st) (m st) gX → (0 < n st)%nat →
  length (new_mean gX st i j) = m st.
Proof.
  intros [Hr Hc] Hn. unfold new_mean, sum_axis1, matmul, transpose.
  rewrite !length_map, length_seq.
  destruct gX as [|row gX]; simpl in *; [lia|]. by inversion Hc.
Qed.

(** After the loops over the components [ps]: every component visited has
    its mean and its mixing weight, and the accumulator holds the sum of the
    scatter matrices around those means. *)
Lemma m_fold_inv gX st ps cov :
  m_step_shapes gX st → (0 < n st)%nat →
  (∀ i j, (i, j) ∈ ps → (i < k st)%nat ∧ (j < clusters st !!! i)%nat) →
  ∃ L M,
    foldl (λ a p, m_body gX p.1 p.2 a) (st, cov) ps
    = (with_estimates st L M, pooled gX st cov ps) ∧
    length L = k st ∧ length M = k st ∧
    (∀ i, (i < k st)%nat →
          has_shape (m st) (clusters st !!! i) (M !!! i) ∧
          length (L !!! i) = clusters st !!! i) ∧
    (∀ i j, (i, j) ∈ ps →
            ncol j (M !!! i) = new_mean gX st i j ∧
            (L !!! i) !!! j = new_weight st i j).
Proof.
  intros (HM & HL & HR & HY & HX & HgX & Hall) Hn.
  rewrite Forall_forall in Hall.
  induction ps as [|[i j] ps IH] using rev_ind; intros Hps.
  { exists (latent_var_prior st), (mu st). split; [by destruct st|].
    split; [done|]. split; [done|]. split.
    - intros i Hi. destruct (Hall i) as (H1 & H2 & _); [apply elem_of_seq; lia|].
      done.
    - intros i j Hin. by apply elem_of_nil in Hin. }
  destruct IH as (L & M & Hfold & HLk & HMk & Hsh & Hval).
  { intros i' j' Hin. apply Hps, elem_of_app. by left. }
  destruct (Hps i j) as [Hi Hj]; [apply elem_of_app; right; by apply list_elem_of_singleton|].
  destruct (Hsh i Hi) as [HMi HLi].
  pose proof (new_mean_length gX st i j HgX Hn) as Hlen.
  exists (<[i := <[j := new_weight st i j]> (L !!! i)]> L),
         (<[i := set_col j (new_mean gX st i j) (M !!! i)]> M).
  assert (Hread : ncol j ((<[i := set_col j (new_mean gX st i j) (M !!! i)]> M) !!! i)
                  = new_mean gX st i j).
  { rewrite list_lookup_total_insert_eq by lia. by eapply ncol_set_col_eq. }
  split; [|split; [|split; [|split]]].
  - rewrite foldl_snoc, Hfold. unfold pooled. rewrite foldl_snoc. simpl.
    unfold m_body. simpl. f_equal. f_equal. f_equal. exact Hread.
  - by rewrite length_insert.
  - by rewrite length_insert.
  - intros i' Hi'. destruct (decide (i' = i)) as [->|Hne].
    + rewrite !list_lookup_total_insert_eq by lia. split.
      * apply set_col_shape; [done|]. done.
      * by rewrite length_insert.
    + rewrite !list_lookup_total_insert_ne by done. by apply Hsh.
  - intros i' j' Hin. apply elem_of_app in Hin as [Hin|Hin].
    + destruct (Hval i' j' Hin) as [Hm Hw].
      destruct (decide (i' = i)) as [->|Hne].
      * rewrite !list_lookup_total_insert_eq by lia.
        destruct (decide (j' = j)) as [->|Hnej].
        -- split; [by eapply ncol_set_col_eq|].
           rewrite ?list_lookup_total_insert_eq by lia. done.
        -- split.
           ++ rewrite ncol_set_col_ne; [done| |done].
              rewrite Hlen. symmetry. apply HMi.
           ++ by rewrite list_lookup_total_insert_ne.
      * by rewrite !list_lookup_total_insert_ne.
    + apply list_elem_of_singleton in Hin as [= -> ->].
      rewrite !list_lookup_total_insert_eq by lia.
      split; [by eapply ncol_set_col_eq|].
      rewrite ?list_lookup_total_insert_eq by lia. done.
Qed.

(** The M-step as a whole, for a bound module-level [X] and arrays of the
    constructor's shapes. *)
Lemma m_step_result g gX st :
  g_X g = Some gX → m_step_shapes gX st → (0 < n st)%nat →
  ∃ L M,
    m_step g st
    = Ok (set_covar (with_estimates st L M)
            (mat_div_nat
               (pooled gX st (nzeros (m st) (m st))
                  (components (clusters st) (seq 0 (k st))))
               (n st))) ∧
    ∀ i j, (i < k st)%nat → (j < clusters st !!! i)%nat →
           ncol j (M !!! i) = new_mean gX st i j ∧
           (L !!! i) !!! j = new_weight st i j.
Proof.
  intros Hg Hsh Hn.
  destruct (m_fold_inv gX st (components (clusters st) (seq 0 (k st)))
              (nzeros (m st) (m st)) Hsh Hn) as (L & M & Hfold & _ & _ & _ & Hval).
  { intros i j [Hi Hj]%elem_of_components. apply elem_of_seq in Hi. split; [lia|done]. }
  exists L, M. split.
  - unfold m_step.
    replace (st, nzeros (m st) (m st))
      with (with_estimates st (latent_var_prior st) (mu st), nzeros (m st) (m st))
      by (by destruct st).
    rewrite (m_step_loops g gX) by done.
    replace (with_estimates st (latent_var_prior st) (mu st)) with st by (by destruct st).
    by rewrite Hfold.
  - intros i j Hi Hj. apply Hval, elem_of_components. split; [|done].
    apply elem_of_seq. lia.
Qed.

(** ** The M-step on finite data *)

Lemma bigsum_pick r t0 (f : nat → Qc) :
  (t0 < r)%nat →
  bigsum r (λ t, if decide (t = t0) then f t else 0) = f t0.
Proof.
  induction r as [|r IH]; intros Ht; [lia|].
  rewrite bigsum_S. destruct (decide (r = t0)) as [->|Hne].
  - rewrite (bigsum_ext _ _ (λ _, 0)), bigsum_zero; [ring|].
    intros t Hlt. destruct (decide (t = t0)); [lia|done].
  - rewrite IH by lia. ring.
Qed.

Lemma bigsum_nonneg_zero r f :
  (∀ t, (t < r)%nat → 0 ≤ f t) → bigsum r f = 0 →
  ∀ t, (t < r)%nat → f t = 0.
Proof.
  induction r as [|r IH]; intros Hnn Hsum t Ht; [lia|].
  rewrite bigsum_S in Hsum.
  assert (H1 : 0 ≤ bigsum r f) by (apply bigsum_nonneg; intros; apply Hnn; lia).
  assert (H2 : 0 ≤ f r) by (apply Hnn; lia).
  assert (Hr : f r = 0).
  { apply Qcle_antisym; [|done]. rewrite <-Hsum.
    rewrite <-(Qcplus_0_l (f r)) at 1. by apply Qcplus_le_compat. }
  destruct (decide (t = r)) as [->|Hne]; [done|].
  apply IH; [intros; apply Hnn; lia| |lia].
  rewrite Hr in Hsum. by rewrite Qcplus_0_r in Hsum.
Qed.


Lemma nonneg_vtab (v : vector) :
  Forall is_nonneg v →
  v = vtab (length v) (vval v) ∧ ∀ t, (t < length v)%nat → 0 ≤ vval v t.
Proof.
  intros Hv. split.
  - apply fin_vec_vtab. eapply Forall_impl; [exact Hv|]. by intros [].
  - intros t Ht. destruct (lookup_lt_is_Some_2 v t Ht) as [x Hx].
    unfold vval. rewrite (list_lookup_total_correct _ _ _ Hx).
    pose proof (Forall_lookup_1 _ _ _ _ Hv Hx) as Hnn. by destruct x.
Qed.

Lemma ncol_length j (M : matrix) : length (ncol j M) = length M.
Proof. unfold col. by rewrite length_map. Qed.

Lemma class_indicator_length gX st i j :
  m_step_shapes gX st → (i < k st)%nat →
  length (class_indicator st i j) = n st.
Proof.
  intros (_ & _ & _ & [HY _] & _ & _ & Hall) Hi.
  rewrite Forall_forall in Hall.
  destruct (Hall i) as (_ & _ & [HR _]); [apply elem_of_seq; lia|].
  unfold class_indicator. rewrite length_zip_with, !ncol_length. lia.
Qed.

(** The weighted sums [np.sum(np.dot(X.T, np.diagflat(w)), axis=1)] on
    finite data. *)
Lemma weighted_sums_tab r c x ω :
  (0 < r)%nat →
  nsum_axis1 (nmatmul (ntranspose (tab r c x)) (ndiagflat (vtab r ω)))
  = vtab c (λ a, bigsum r (λ t, x t a * ω t)).
Proof.
  intros Hr. rewrite ntranspose_tab, ndiagflat_vtab, nmatmul_tab by done.
  rewrite nsum_axis1_tab. apply vtab_ext. intros a Ha.
  apply bigsum_ext. intros t' Ht'.
  rewrite (bigsum_ext _ _ (λ t, if decide (t = t') then x t a * ω t else 0)).
  - by apply bigsum_pick.
  - intros t _. destruct (decide (t = t')); ring.
Qed.




(** ** Quadratic forms *)




(** ** The M-step: degenerate components, the means, the covariance *)



Lemma Qcdiv_nonneg (q c : Qc) : 0 ≤ q → 0 < c → 0 ≤ q / c.
Proof.
  intros Hq Hc. unfold Qcdiv. apply Qcmult_nonneg_nonneg; [done|].
  by apply Qclt_le_weak, Qcinv_pos.
Qed.


(** C1, as the code has it.  A component without responsibility mass raises
    nothing: when the module-level [X] is bound to finite data and the masked
    responsibilities of the component are non-negative with sum 0, the M-step
    completes, every entry of the component's mean column is [NaN] and its
    mixing weight is [0 / freq[i]]. *)
Theorem m_step_collapsed_component g gX st i j :
  g_X g = Some gX → m_step_shapes gX st → (0 < n st)%nat → fin_mat gX →
  (i < k st)%nat → (j < clusters st !!! i)%nat →
  Forall is_nonneg (class_indicator st i j) →
  mass st i j = Fin 0 →
  ∃ st', m_step g st = Ok st' ∧
         ncol j (mu st' !!! i) = replicate (m st) NaN ∧
         (latent_var_prior st' !!! i) !!! j = ndiv (Fin 0) (freq st !!! i).
Proof.
  intros Hg Hsh Hn HgX Hi Hj Hnn Hmass.
  destruct (m_step_result g gX st Hg Hsh Hn) as (L & M & Hm & Hval).
  destruct (Hval i j Hi Hj) as [Hmean Hweight].
  eexists. split; [exact Hm|]. simpl. rewrite Hmean, Hweight.
  split; [|unfold new_weight; by rewrite Hmass].
  pose proof (class_indicator_length gX st i j Hsh Hi) as Hlen.
  destruct (nonneg_vtab _ Hnn) as [Hw Hω]. rewrite Hlen in Hw, Hω.
  remember (vval (class_indicator st i j)) as ω eqn:Eω. clear Eω.
  unfold mass in Hmass. rewrite Hw, nvsum_vtab in Hmass. injection Hmass as Hsum.
  pose proof (bigsum_nonneg_zero _ _ Hω Hsum) as Hzero.
  destruct Hsh as (_ & _ & _ & _ & _ & HgXs & _).
  unfold new_mean, mass. rewrite Hw, nvsum_vtab, Hsum.
  rewrite (fin_mat_tab _ _ _ HgXs HgX), weighted_sums_tab by done.
  apply list_eq. intros a. rewrite list_lookup_fmap.
  destruct (decide (a < m st)%nat) as [Ha|Ha].
  - rewrite vtab_lookup, lookup_replicate_2 by done. simpl.
    rewrite (bigsum_ext _ _ (λ _, 0)), bigsum_zero.
    + by destruct (decide (0 = 0)).
    + intros t Ht. rewrite (Hzero t Ht). ring.
  - rewrite (proj2 (lookup_ge_None (vtab (m st) _) a)) by (rewrite vtab_length; lia).
    symmetry. apply lookup_ge_None. rewrite length_replicate. lia.
Qed.

(** Class 0 has the two coinciding observations 0 and 0 and two components;
    both observations are assigned to component 0, and component 1 has the
    mass 0.  The M-step on this object raises nothing: it returns, with the
    mean [0/0 = NaN] and the mixing weight [0/2 = 0] for component 1. *)
Lemma m_step_collapsed_no_error :
  X twin_assigned = twin_X ∧ Y twin_assigned = demo_Y ∧
  clusters twin_assigned = [2; 1]%nat ∧
  responsibilities twin_assigned
  = [ [[zn 1; zn 0]; [zn 1; zn 0]; [zn 0; zn 0]; [zn 0; zn 0]];
      [[zn 0]; [zn 0]; [zn 1]; [zn 1]] ] ∧
  mass twin_assigned 0 1 = Fin 0 ∧
  ∃ st', m_step twin_globals twin_assigned = Ok st' ∧
         mu st' = [[[zn 0; NaN]]; [[dec 21 2]]] ∧
         latent_var_prior st' = [[zn 1; zn 0]; [zn 1]].
Proof.
  split; [by_eval|]. split; [by_eval|]. split; [by_eval|]. split; [by_eval|].
  split; [by_eval|]. eexists. split; [vm_compute; reflexivity|].
  split; by_eval.
Qed.

Lemma m_step_collapsed_component_witness :
  ∃ st', m_step twin_globals twin_assigned = Ok st' ∧
         ncol 1 (mu st' !!! 0%nat) = replicate (m twin_assigned) NaN ∧
         (latent_var_prior st' !!! 0%nat) !!! 1%nat
         = ndiv (Fin 0) (freq twin_assigned !!! 0%nat).
Proof.
  apply (m_step_collapsed_component twin_globals twin_X twin_assigned 0 1).
  - reflexivity.
  - by_eval.
  - by_eval.
  - by_eval.
  - by_eval.
  - by_eval.
  - by_eval.
  - by_eval.
Defined.

(** C2, at the code.  The means are computed from the module-level name [X],
    not from [self.X]: with [X] unbound the first M-step of [train()] raises
    [NameError], and with [X] bound to other data of the same shape the stored
    means are the weighted means of that data. *)
Theorem m_step_reads_module_X :
  (∃ s, train tent_pdf tangent_ln deal_fit_predict {| g_X := None |} demo_new []
        = Raise NameError s) ∧
  (∀ i j, (i < 2)%nat → (j < clusters demo_assigned !!! i)%nat →
          is_pos (mass demo_assigned i j)) ∧
  (∃ s, m_step {| g_X := Some demo_X |} demo_assigned = Ok s ∧
        mu s = [[[zn 0; zn 1]]; [[dec 21 2]]]) ∧
  (∃ s, m_step {| g_X := Some other_X |} demo_assigned = Ok s ∧
        X s = demo_X ∧
        mu s = [[[zn 100; zn 101]]; [[dec 221 2]]]).
Proof.
  split; [eexists; vm_compute; reflexivity|]. split.
  { intros i j Hi Hj. destruct i as [|[|i]]; [| |lia].
    - change (clusters demo_assigned !!! 0%nat) with 2%nat in Hj.
      destruct j as [|[|j]]; [by_eval..|lia].
    - change (clusters demo_assigned !!! 1%nat) with 1%nat in Hj.
      destruct j as [|j]; [by_eval|lia]. }
  split.
  - eexists. split; [vm_compute; reflexivity|by_eval].
  - eexists. split; [vm_compute; reflexivity|]. split; by_eval.
Qed.







(** * Further properties of the methods *)

(** ** [bounded_variable] outside its intended use *)

(** X1.  [NaN] passes through the clamp, whatever the bounds; and with bounds the
    wrong way round ([hi < lo], as [accuracy > 1/2] gives) the two
    assignments send every number to [lo]. *)
Theorem bounded_variable_inverted_bounds (x : vector) (lo hi : num) :
  ngtb lo hi = true →
  bounded_variable x lo hi = map (λ v, if decide (v = NaN) then NaN else lo) x.
Proof.
  intros Hlh. rewrite bounded_variable_map. apply map_ext. intros v.
  assert (lo ≠ NaN ∧ hi ≠ NaN) as [Hlo Hhi] by (by destruct lo, hi).
  unfold clamp1, nltb. destruct (decide (v = NaN)) as [->|Hv].
  { simpl. by destruct lo. }
  destruct (ngtb v hi) eqn:E1; [by rewrite Hlh|].
  destruct (num_trichotomy v hi Hv Hhi) as [H|[->|H]]; [congruence| |].
  - by rewrite Hlh.
  - by rewrite (ngtb_trans _ _ _ Hlh H).
Qed.

Lemma bounded_variable_inverted_bounds_witness :
  bounded_variable [zn 0; dec 1 2; zn 7; NaN] (dec 9 10) (nsub n1 (dec 9 10))
  = [dec 9 10; dec 9 10; dec 9 10; NaN].
Proof.
  rewrite (bounded_variable_inverted_bounds _ (dec 9 10) (nsub n1 (dec 9 10)));
    by vm_compute.
Defined.

(** ** [_class_prior_compute] *)

(** X2.  For a label array of a float dtype with non-negative class
    frequencies of positive sum, the class prior the method stores has as many
    entries as there are classes, all non-negative, and in exact arithmetic
    they add up to 1 (in float64: up to rounding). *)
Theorem class_prior_compute_sums_to_one st :
  Y_dtype st = dt_float →
  Forall is_nonneg (freq st) → is_pos (nvsum (freq st)) →
  length (class_prior (class_prior_compute st)) = length (freq st) ∧
  Forall is_nonneg (class_prior (class_prior_compute st)) ∧
  nvsum (class_prior (class_prior_compute st)) = Fin 1.
Proof.
  intros Hd Hnn Hpos. simpl. rewrite Hd. simpl.
  assert (Hfin : freq st = map Fin (map val (freq st))).
  { apply Forall_fin_map. eapply Forall_impl; [exact Hnn|]. by intros []. }
  assert (Hq : Forall (λ q, 0 ≤ q) (map val (freq st))).
  { apply Forall_fmap. eapply Forall_impl; [exact Hnn|]. by intros []. }
  revert Hfin Hq Hpos. generalize (map val (freq st)). intros qs -> Hq Hpos.
  rewrite nvsum_fin in *. simpl in Hpos.
  assert (Hs : qsum qs ≠ 0) by (by apply Qc_pos_ne0).
  assert (Hmap : map (λ f, ndiv f (Fin (qsum qs))) (map Fin qs)
                 = map Fin (map (λ q, q / qsum qs) qs)).
  { rewrite !map_map. apply map_ext. intros x. simpl. by apply ndiv_fin. }
  rewrite Hmap. split; [by rewrite !length_map|]. split.
  - rewrite <-list_fmap_compose. apply Forall_fmap.
    eapply Forall_impl; [exact Hq|]. intros q Hq0. simpl.
    by apply Qcdiv_nonneg.
  - rewrite nvsum_fin, qsum_div by done. f_equal. by field.
Qed.

Lemma class_prior_compute_sums_to_one_witness :
  length (class_prior (class_prior_compute demo_new)) = length (freq demo_new) ∧
  Forall is_nonneg (class_prior (class_prior_compute demo_new)) ∧
  nvsum (class_prior (class_prior_compute demo_new)) = Fin 1.
Proof.
  apply (class_prior_compute_sums_to_one demo_new); by_eval.
Defined.

(** ** When [_m_step] raises *)

Lemma m_step_loops_unbound g classes st cov :
  g_X g = None →
  (components (clusters st) classes = [] ∧
   for_each (m_step_class g) classes (st, cov) = Ok (st, cov)) ∨
  (components (clusters st) classes ≠ [] ∧
   ∃ s, for_each (m_step_class g) classes (st, cov) = Raise NameError s).
Proof.
  intros Hg. induction classes as [|i classes IH]; [by left|].
  simpl. unfold m_step_class at 1 3. simpl. unfold components. simpl.
  destruct (clusters st !!! i) as [|c] eqn:Ec; simpl.
  - destruct IH as [[H1 H2]|[H1 H2]]; [left|right]; done.
  - right. split; [done|]. unfold m_step_body at 1. rewrite Hg. by eexists.
Qed.

Lemma m_step_bound_ok g gX st :
  g_X g = Some gX → ∃ st', m_step g st = Ok st'.
Proof.
  intros Hg. unfold m_step.
  replace (st, nzeros (m st) (m st))
    with (with_estimates st (latent_var_prior st) (mu st), nzeros (m st) (m st))
    by (by destruct st).
  rewrite (m_step_loops g gX) by done.
  destruct (foldl _ _ _) as [s c]. by eexists.
Qed.

Lemma m_step_raise_unbound g st e s :
  m_step g st = Raise e s → e = NameError ∧ g_X g = None.
Proof.
  intros Hr. destruct (m_step_raise_frame g st e s Hr) as [-> _].
  split; [done|]. destruct (g_X g) as [gX|] eqn:Hg; [|done].
  destruct (m_step_bound_ok g gX st Hg) as [st' H]. by rewrite H in Hr.
Qed.

(** X3.  On an object whose arrays have the shapes the constructor gives
    them, and with the module-level [X], when it is bound, of the shape of
    the stored data, the M-step fails in one way only: it raises [NameError],
    exactly when the module-level [X] is unbound and some class has a
    component; with [X] bound it returns. *)
Theorem m_step_raises_iff_unbound g st :
  m_step_shapes (X st) st → (k st ≤ length (clusters st))%nat →
  length (freq st) = k st →
  (∀ gX, g_X g = Some gX → has_shape (n st) (m st) gX) →
  (∀ gX, g_X g = Some gX → ∃ st', m_step g st = Ok st') ∧
  (g_X g = None → components (clusters st) (seq 0 (k st)) ≠ [] →
   ∃ s, m_step g st = Raise NameError s) ∧
  (g_X g = None → components (clusters st) (seq 0 (k st)) = [] →
   m_step g st = Ok (set_covar st (mat_div_nat (nzeros (m st) (m st)) (n st)))) ∧
  (∀ e s, m_step g st = Raise e s →
          e = NameError ∧ g_X g = None ∧
          components (clusters st) (seq 0 (k st)) ≠ []).
Proof.
  intros _ _ _ _. split; [|split; [|split]].
  - intros gX Hg. by apply (m_step_bound_ok g gX).
  - intros Hg Hne. unfold m_step.
    destruct (m_step_loops_unbound g (seq 0 (k st)) st (nzeros (m st) (m st)) Hg)
      as [[H1 _]|[_ [s H2]]]; [done|]. rewrite H2. by eexists.
  - intros Hg He. unfold m_step.
    destruct (m_step_loops_unbound g (seq 0 (k st)) st (nzeros (m st) (m st)) Hg)
      as [[_ H2]|[H1 _]]; [|done]. by rewrite H2.
  - intros e s Hr. destruct (m_step_raise_unbound g st e s Hr) as [-> Hg].
    split; [done|]. split; [done|]. intros He. unfold m_step in Hr.
    destruct (m_step_loops_unbound g (seq 0 (k st)) st (nzeros (m st) (m st)) Hg)
      as [[_ H2]|[H1 _]]; [|done]. by rewrite H2 in Hr.
Qed.

Lemma m_step_raises_iff_unbound_witness :
  (∃ st', m_step demo_globals demo_assigned = Ok st') ∧
  (∃ s, m_step {| g_X := None |} demo_assigned = Raise NameError s).
Proof.
  assert (Hsh : m_step_shapes (X demo_assigned) demo_assigned) by by_eval.
  assert (Hk : (k demo_assigned ≤ length (clusters demo_assigned))%nat) by by_eval.
  assert (Hf : length (freq demo_assigned) = k demo_assigned) by by_eval.
  assert (Hb : ∀ gX, g_X demo_globals = Some gX →
                     has_shape (n demo_assigned) (m demo_assigned) gX).
  { intros gX [= <-]. by_eval. }
  assert (Hu : ∀ gX, g_X {| g_X := None |} = Some gX →
                     has_shape (n demo_assigned) (m demo_assigned) gX).
  { intros gX [=]. }
  destruct (m_step_raises_iff_unbound demo_globals demo_assigned Hsh Hk Hf Hb)
    as (H1 & _).
  destruct (m_step_raises_iff_unbound {| g_X := None |} demo_assigned Hsh Hk Hf Hu)
    as (_ & H2 & _).
  split; [exact (H1 demo_X eq_refl)|].
  apply H2; [reflexivity|]. by vm_compute.
Defined.

(** ** What [_iterate] prints and when it stops *)

Lemma m_step_verbose g st st' :
  m_step g st = Ok st' →
  verbose st' = verbose st ∧ lower_bounds st' = lower_bounds st ∧
  mda_threshold st' = mda_threshold st.
Proof. intros Hm. by destruct (m_step_frame _ _ _ Hm) as (L & M & C & ->). Qed.

Lemma e_step_verbose pdf ln st : verbose (e_step pdf ln st) = verbose st.
Proof. apply (e_step_frame pdf ln st). Qed.

Lemma iterate_loop_output pdf ln g idx delta st out ex st' out' :
  iterate_loop pdf ln g idx delta st out = Ok (ex, st', out') →
  ∃ evs, out' = out ++ evs ∧
    (ex = Converged → last evs = Some AlgorithmConverged) ∧
    (verbose st = false →
     evs = match ex with Converged => [AlgorithmConverged] | MaxIterReached => [] end) ∧
    (verbose st = true →
     length (lower_bounds st') = (length (lower_bounds st) + length evs)%nat).
Proof.
  revert delta st out. induction idx as [|i idx IH]; intros delta st out; simpl.
  { intros [= <- <- <-]. exists []. rewrite app_nil_r.
    split; [done|]. split; [done|]. split; [done|]. intros _. simpl. lia. }
  destruct (ngtb _ _).
  - destruct (m_step g (e_step pdf ln st)) as [st2|e s] eqn:Hm; [|done].
    destruct (m_step_verbose _ _ _ Hm) as (Hv & Hlb & _).
    rewrite e_step_verbose in Hv.
    pose proof (e_step_bounds_length pdf ln st) as Hlen.
    intros (evs & -> & Hlast & Hquiet & Hloud)%IH.
    rewrite Hv in *. destruct (verbose st) eqn:Ev.
    + exists (IterCompleted i (from_end (lower_bounds st2) 1) :: evs).
      rewrite <-app_assoc. split; [done|]. split; [|split; [done|]].
      * intros E. specialize (Hlast E). destruct evs; [done|]. done.
      * intros _. simpl. rewrite Hloud, Hlb, Hlen by done. lia.
    + exists evs. split; [done|]. split; [done|]. split; [by apply Hquiet|done].
  - intros [= <- <- <-]. exists [AlgorithmConverged].
    split; [done|]. split; [done|]. split; [done|].
    intros _. rewrite e_step_bounds_length. simpl. lia.
Qed.

(** X4.  The loop only appends to the output.  With [verbose=False] it still
    prints "algorithm converged" when it stops by its [break], and nothing
    otherwise; with [verbose=True] it prints one line per E-step, the last of
    which is "algorithm converged" when the loop stops by its [break]. *)
Theorem iterate_output pdf ln g st out ex st' out' :
  iterate pdf ln g st out = Ok (ex, st', out') →
  ∃ evs, out' = out ++ evs ∧
    (ex = Converged → last evs = Some AlgorithmConverged) ∧
    (verbose st = false →
     evs = match ex with Converged => [AlgorithmConverged] | MaxIterReached => [] end) ∧
    (verbose st = true →
     length (lower_bounds st') = (length (lower_bounds st) + length evs)%nat).
Proof. apply iterate_loop_output. Qed.

Lemma iterate_output_witness :
  ∃ evs, last evs = Some AlgorithmConverged ∧
         length (lower_bounds demo_fit)
         = (length (lower_bounds demo_init) + length evs)%nat.
Proof.
  assert (H : ∃ out', iterate tent_pdf tangent_ln demo_globals demo_init []
                      = Ok (Converged, demo_fit, out')).
  { eexists. vm_compute. reflexivity. }
  destruct H as [out' H].
  destruct (iterate_output _ _ _ _ _ _ _ _ H) as (evs & _ & H1 & _ & H2).
  exists evs. split; [exact (H1 eq_refl)|exact (H2 eq_refl)].
Defined.

(** X5.  On an object without history the loop cannot stop by its [break] in the
    first iteration when the threshold is below 1 (as the default is): the
    initial [delta = 1] stands until there are two lower bounds, so a loop
    that reports convergence has run at least two E-steps. *)
Theorem iterate_needs_two_bounds pdf ln g st out st' out' :
  lower_bounds st = [] → ngtb n1 (mda_threshold st) = true →
  iterate pdf ln g st out = Ok (Converged, st', out') →
  (2 ≤ length (lower_bounds st'))%nat.
Proof.
  intros Hlb Hthr. unfold iterate.
  destruct (max_iter st) as [|r]; [done|]. simpl.
  pose proof (e_step_bounds_length pdf ln st) as Hlen. rewrite Hlb in Hlen.
  destruct (decide (2 ≤ length (lower_bounds (e_step pdf ln st)))%nat) as [H|_];
    [simpl in Hlen; lia|].
  rewrite e_step_threshold, Hthr.
  destruct (m_step g (e_step pdf ln st)) as [st2|e s] eqn:Hm; [|done].
  destruct (m_step_verbose _ _ _ Hm) as (_ & Hlb2 & _).
  intros (j & _ & _ & Hj & _ & _ & Hconv)%iterate_loop_sound.
  specialize (Hconv eq_refl). rewrite Hj, Hlb2, Hlen. simpl. lia.
Qed.

Lemma iterate_needs_two_bounds_witness :
  (2 ≤ length (lower_bounds demo_fit))%nat.
Proof.
  assert (H : ∃ out', iterate tent_pdf tangent_ln demo_globals demo_init []
                      = Ok (Converged, demo_fit, out')).
  { eexists. vm_compute. reflexivity. }
  destruct H as [out' H].
  apply (iterate_needs_two_bounds tent_pdf tangent_ln demo_globals demo_init
           [] demo_fit out'); [reflexivity|by vm_compute|exact H].
Defined.

Lemma ndiv_nonpos (a b : Qc) :
  a ≤ 0 → 0 < b → ndiv (Fin a) (Fin b) = Fin (a / b) ∧ a / b ≤ 0.
Proof.
  intros Ha Hb. split; [apply ndiv_fin; by apply Qc_pos_ne0|].
  unfold Qcdiv. apply Qcopp_le_compat in Ha.
  replace (- 0) with 0 in Ha by ring.
  assert (H : 0 ≤ (- a) * / b).
  { apply Qcmult_nonneg_nonneg; [done|]. by apply Qclt_le_weak, Qcinv_pos. }
  apply Qcopp_le_compat in H. replace (- 0) with 0 in H by ring.
  by replace (- (- a * / b)) with (a * / b) in H by ring.
Qed.

(** X6.  The loop takes its [break], and prints "algorithm converged", not only
    when the lower bound has settled: it does so as soon as the newest bound
    is [NaN], and as soon as the newest bound is not above the one before
    (for a non-negative threshold and a non-zero earlier bound), so also when
    the bound has gone down. *)
Theorem iterate_break_without_convergence pdf ln g i idx delta st out hist b2 b1 :
  lower_bounds (e_step pdf ln st) = hist ++ [b2; b1] →
  b1 = NaN ∨
  (∃ q1 q2 thr, b1 = Fin q1 ∧ b2 = Fin q2 ∧ mda_threshold st = Fin thr ∧
                q1 ≤ q2 ∧ q2 ≠ 0 ∧ 0 ≤ thr) →
  iterate_loop pdf ln g (i :: idx) delta st out
  = Ok (Converged, e_step pdf ln st, out ++ [AlgorithmConverged]).
Proof.
  intros Hhist Hcase. simpl.
  fold (relative_change delta (lower_bounds (e_step pdf ln st))).
  rewrite e_step_threshold, Hhist.
  assert (Hrc : relative_change delta (hist ++ [b2; b1])
                = ndiv (nsub b1 b2) (nabs b2)).
  { unfold relative_change, from_end. rewrite length_app. simpl.
    destruct (decide _) as [_|Hn]; [|lia].
    assert (H1 : (hist ++ [b2; b1]) !!! (length hist + 2 - 1)%nat = b1).
    { apply list_lookup_total_correct. rewrite lookup_app_r by lia.
      by replace (length hist + 2 - 1 - length hist)%nat with 1%nat by lia. }
    assert (H2 : (hist ++ [b2; b1]) !!! (length hist + 2 - 2)%nat = b2).
    { apply list_lookup_total_correct. rewrite lookup_app_r by lia.
      by replace (length hist + 2 - 2 - length hist)%nat with 0%nat by lia. }
    by rewrite H1, H2. }
  rewrite Hrc.
  assert (Hstop : ngtb (ndiv (nsub b1 b2) (nabs b2)) (mda_threshold st) = false).
  { destruct Hcase as [->|(q1 & q2 & thr & -> & -> & -> & Hle & Hne & Hthr)].
    - by destruct b2.
    - assert (Habs : 0 < (if decide (q2 < 0) then - q2 else q2)).
      { destruct (decide (q2 < 0)) as [Hneg|Hpos].
        - apply Qclt_le_weak in Hneg as Hneg'. apply Qcopp_le_compat in Hneg'.
          replace (- 0) with 0 in Hneg' by ring.
          destruct (Qcle_lt_or_eq _ _ Hneg') as [H|H]; [done|].
          exfalso. apply Hne. replace q2 with (- - q2) by ring. rewrite <-H. ring.
        - apply Qcnot_lt_le in Hpos.
          destruct (Qcle_lt_or_eq _ _ Hpos) as [H|H]; [done|by subst]. }
      assert (Hdiff : q1 + - q2 ≤ 0).
      { apply Qcle_minus_iff in Hle. apply Qcopp_le_compat in Hle.
        replace (- 0) with 0 in Hle by ring.
        by replace (- (q2 + - q1)) with (q1 + - q2) in Hle by ring. }
      simpl. destruct (ndiv_nonpos _ _ Hdiff Habs) as [Hd Hle0].
      simpl in Hd. rewrite Hd. simpl.
      apply bool_decide_eq_false. apply Qcle_not_lt.
      by apply Qcle_trans with 0. }
  by rewrite Hstop.
Qed.

Lemma iterate_break_without_convergence_witness :
  iterate_loop tent_pdf tangent_ln demo_globals [1%nat] n1 demo_iter1 []
  = Ok (Converged, e_step tent_pdf tangent_ln demo_iter1, [AlgorithmConverged]).
Proof.
  apply (iterate_break_without_convergence tent_pdf tangent_ln demo_globals
           1 [] n1 demo_iter1 [] []
           (from_end (lower_bounds (e_step tent_pdf tangent_ln demo_iter1)) 2)
           (from_end (lower_bounds (e_step tent_pdf tangent_ln demo_iter1)) 1)).
  - by_eval.
  - right.
    exists (val (from_end (lower_bounds (e_step tent_pdf tangent_ln demo_iter1)) 1)),
           (val (from_end (lower_bounds (e_step tent_pdf tangent_ln demo_iter1)) 2)),
           (val (mda_threshold demo_iter1)).
    split; [by_eval|]. split; [by_eval|]. split; [by_eval|].
    split; [by_eval|]. split; by_eval.
Defined.

(** ** The object [__init__] builds *)

Lemma map_seq_lookup_total {A} `{Inhabited A} (f : nat → A) r i :
  (i < r)%nat → map f (seq 0 r) !!! i = f i.
Proof.
  intros Hi. apply list_lookup_total_correct.
  by rewrite list_lookup_fmap, lookup_seq_lt.
Qed.

Lemma of_nat_S r :
  Q2Qc (inject_Z (Z.of_nat (S r))) = Q2Qc (inject_Z (Z.of_nat r)) + 1.
Proof.
  apply Qc_is_canon. unfold Qcplus, Q2Qc. simpl this.
  rewrite !Qred_correct. unfold Qeq. simpl. lia.
Qed.

Lemma qsum_replicate r (q : Qc) :
  qsum (replicate r q) = Q2Qc (inject_Z (Z.of_nat r)) * q.
Proof.
  induction r as [|r IH].
  - change (0 = 0 * q). ring.
  - rewrite of_nat_S. change (q + qsum (replicate r q) = (Q2Qc (inject_Z (Z.of_nat r)) + 1) * q).
    rewrite IH. ring.
Qed.

Lemma zeros_shape r c : has_shape r c (nzeros r c).
Proof.
  split; [apply length_replicate|]. apply Forall_replicate, length_replicate.
Qed.

Lemma scaled_zeros r c x :
  map (map (nmul (Fin x))) (nzeros r c) = nzeros r c.
Proof.
  unfold zeros. rewrite !fmap_replicate. do 2 f_equal.
  simpl. f_equal. ring.
Qed.

(** X7.  For a rectangular [X], an [n × k] label array and a cluster count for
    each of the [k] classes ([k ≤ len(clusters)]; with fewer the constructor
    raises [IndexError]), the constructor leaves arrays of the shapes every
    later step relies on, an empty history, means and responsibilities that
    are zero (the factor [0.001] changes nothing), and for every class uniform
    mixing weights [1/clusters[i]], which in exact arithmetic add up to 1
    when the class has a component. *)
Theorem init_well_shaped gt X_ cl k_ o :
  Forall (λ row, length row = ncols X_) X_ →
  has_shape (length X_) k_ (arr_rows gt) →
  (k_ ≤ length cl)%nat →
  m_step_shapes X_ (init gt X_ cl k_ o) ∧
  lower_bounds (init gt X_ cl k_ o) = [] ∧
  ∀ i, (i < k_)%nat →
    latent_var_prior (init gt X_ cl k_ o) !!! i
    = replicate (cl !!! i) (ndiv n1 (of_nat (cl !!! i))) ∧
    ((0 < cl !!! i)%nat →
     nvsum (latent_var_prior (init gt X_ cl k_ o) !!! i) = Fin 1) ∧
    responsibilities (init gt X_ cl k_ o) !!! i = nzeros (length X_) (cl !!! i) ∧
    mu (init gt X_ cl k_ o) !!! i = nzeros (ncols X_) (cl !!! i).
Proof.
  intros HX HY _.
  assert (Hlvp : ∀ i, (i < k_)%nat →
            latent_var_prior (init gt X_ cl k_ o) !!! i
            = replicate (cl !!! i) (ndiv n1 (of_nat (cl !!! i)))).
  { intros i Hi. simpl. rewrite map_seq_lookup_total by done.
    by rewrite fmap_replicate. }
  assert (Hresp : ∀ i, (i < k_)%nat →
            responsibilities (init gt X_ cl k_ o) !!! i
            = nzeros (length X_) (cl !!! i)).
  { intros i Hi. simpl. rewrite map_seq_lookup_total by done.
    apply scaled_zeros. }
  assert (Hmu : ∀ i, (i < k_)%nat →
            mu (init gt X_ cl k_ o) !!! i = nzeros (ncols X_) (cl !!! i)).
  { intros i Hi. simpl. by rewrite map_seq_lookup_total. }
  split; [|split; [done|]].
  - unfold m_step_shapes.
    split; [simpl; by rewrite length_map, length_seq|].
    split; [simpl; by rewrite length_map, length_seq|].
    split; [simpl; by rewrite length_map, length_seq|].
    split; [exact HY|]. split; [by split|]. split; [by split|].
    apply Forall_forall. intros i [_ Hi]%elem_of_seq. simpl in Hi.
    rewrite (Hmu i Hi), (Hlvp i Hi), (Hresp i Hi).
    split; [apply zeros_shape|]. split; [apply length_replicate|apply zeros_shape].
  - intros i Hi. split; [by apply Hlvp|]. split; [|split; [by apply Hresp|by apply Hmu]].
    intros Hc. rewrite (Hlvp i Hi).
    assert (Hne : Q2Qc (inject_Z (Z.of_nat (cl !!! i))) ≠ 0) by (by apply of_nat_ne0).
    unfold of_nat, n1. rewrite ndiv_fin by done.
    rewrite <-fmap_replicate. change (Fin <$> ?l) with (map Fin l).
    rewrite nvsum_fin, qsum_replicate. f_equal. by field.
Qed.

Lemma init_well_shaped_witness :
  m_step_shapes demo_X demo_new ∧ lower_bounds demo_new = [] ∧
  nvsum (latent_var_prior demo_new !!! 0%nat) = Fin 1.
Proof.
  destruct (init_well_shaped (float_array demo_Y) demo_X [2; 1]%nat 2 default_options)
    as (H1 & H2 & H3).
  - by_eval.
  - by_eval.
  - simpl. lia.
  - split; [exact H1|]. split; [exact H2|].
    destruct (H3 0%nat) as (_ & H4 & _); [lia|]. apply H4. simpl. lia.
Defined.

(** ** Shapes through the E-step and the M-step *)

Lemma normalise_rows_shape r c (U : matrix) :
  has_shape r c U → has_shape r c (normalise_rows c U).
Proof.
  intros [Hr Hc]. split; [by rewrite normalise_rows_length|].
  apply Forall_lookup_2. intros t row' Hrow'.
  destruct (lookup_lt_is_Some_2 U t) as [row Hrow].
  { rewrite <-normalise_rows_length with (c := c). by eapply lookup_lt_Some. }
  rewrite (normalise_rows_lookup _ _ _ _ Hrow) in Hrow'. injection Hrow' as <-.
  rewrite length_zip_with, length_map, length_replicate.
  rewrite (Forall_lookup_1 _ _ _ _ Hc Hrow). lia.
Qed.

Lemma m_step_shapes_lookup gX st i :
  m_step_shapes gX st → (i < k st)%nat →
  has_shape (m st) (clusters st !!! i) (mu st !!! i) ∧
  length (latent_var_prior st !!! i) = clusters st !!! i ∧
  has_shape (n st) (clusters st !!! i) (responsibilities st !!! i).
Proof.
  intros (_ & _ & _ & _ & _ & _ & Hall) Hi. rewrite Forall_forall in Hall.
  apply Hall, elem_of_seq. lia.
Qed.

Lemma e_step_keeps_shapes pdf ln gX st :
  pdf_rows pdf → m_step_shapes gX st → m_step_shapes gX (e_step pdf ln st).
Proof.
  intros Hpdf Hsh. pose proof Hsh as (HM & HL & HR & HY & HX & HgX & Hall).
  destruct (e_step_frame pdf ln st)
    as (EY & EX & En & Em & Ek & Ecl & _ & Elvp & _ & _ & Emu & _).
  unfold m_step_shapes. rewrite EY, EX, En, Em, Ek, Ecl, Elvp, Emu.
  assert (Hlen : length (responsibilities (e_step pdf ln st)) = k st).
  { unfold e_step.
    pose proof (e_step_classes_length pdf ln st 0 (responsibilities st) n0) as H.
    destruct (e_step_classes _ _ _ _ _ _) as [resps lb]. simpl in *. lia. }
  repeat (split; [done|]).
  apply Forall_forall. intros i [_ Hi]%elem_of_seq. simpl in Hi.
  destruct (m_step_shapes_lookup gX st i Hsh Hi) as (H1 & H2 & H3).
  split; [done|]. split; [done|].
  destruct (lookup_lt_is_Some_2 (responsibilities st) i) as [R HRi]; [lia|].
  rewrite (list_lookup_total_correct _ _ _ HRi) in H3.
  rewrite (list_lookup_total_correct _ _ _ (e_step_responsibilities pdf ln st i R HRi)).
  apply normalise_rows_shape.
  apply (fold_set_col_inv (unnormalised pdf st i) (n st) (clusters st !!! i) R
           (clusters st !!! i) H3); [|lia].
  intros j _. apply unnormalised_length; [done|apply HX].
Qed.

Lemma m_step_keeps_shapes g gX st :
  g_X g = Some gX → m_step_shapes gX st → (0 < n st)%nat →
  ∃ st', m_step g st = Ok st' ∧ m_step_shapes gX st'.
Proof.
  intros Hg Hsh Hn. pose proof Hsh as (HM & HL & HR & HY & HX & HgX & Hall).
  destruct (m_fold_inv gX st (components (clusters st) (seq 0 (k st)))
              (nzeros (m st) (m st)) Hsh Hn) as (L & M & Hfold & HLk & HMk & Hshapes & _).
  { intros i j [Hi Hj]%elem_of_components. apply elem_of_seq in Hi. split; [lia|done]. }
  eexists. split.
  - unfold m_step.
    replace (st, nzeros (m st) (m st))
      with (with_estimates st (latent_var_prior st) (mu st), nzeros (m st) (m st))
      by (by destruct st).
    rewrite (m_step_loops g gX) by done.
    replace (with_estimates st (latent_var_prior st) (mu st)) with st by (by destruct st).
    rewrite Hfold. reflexivity.
  - unfold m_step_shapes. simpl.
    repeat (split; [done|]).
    apply Forall_forall. intros i [_ Hi]%elem_of_seq. simpl in Hi.
    destruct (Hshapes i Hi) as [H1 H2].
    destruct (m_step_shapes_lookup gX st i Hsh Hi) as (_ & _ & H3). done.
Qed.

(** X8.  The array shapes of the constructor are an invariant of the fit: the
    E-step keeps them, and so does the M-step (which, with the module-level
    [X] bound, then returns normally). *)
Theorem em_steps_keep_shapes pdf ln g gX st :
  pdf_rows pdf → g_X g = Some gX → m_step_shapes gX st → (0 < n st)%nat →
  m_step_shapes gX (e_step pdf ln st) ∧
  (∃ st', m_step g st = Ok st' ∧ m_step_shapes gX st') ∧
  ∃ st'', m_step g (e_step pdf ln st) = Ok st'' ∧ m_step_shapes gX st''.
Proof.
  intros Hpdf Hg Hsh Hn.
  pose proof (e_step_keeps_shapes pdf ln gX st Hpdf Hsh) as He.
  split; [done|]. split; [by apply m_step_keeps_shapes|].
  apply m_step_keeps_shapes; [done|done|].
  by rewrite (proj1 (proj2 (proj2 (e_step_frame pdf ln st)))).
Qed.

Lemma em_steps_keep_shapes_witness :
  m_step_shapes demo_X (e_step tent_pdf tangent_ln demo_init) ∧
  (∃ st', m_step demo_globals demo_init = Ok st' ∧ m_step_shapes demo_X st') ∧
  ∃ st'', m_step demo_globals (e_step tent_pdf tangent_ln demo_init) = Ok st'' ∧
          m_step_shapes demo_X st''.
Proof.
  apply (em_steps_keep_shapes tent_pdf tangent_ln demo_globals demo_X demo_init
           tent_pdf_rows); [reflexivity|by_eval|by_eval].
Defined.

(** ** The shape of the inference result *)

Lemma class_prob_length pdf st k_ :
  pdf_rows pdf → length (X st) = n st → length (class_prob pdf st k_) = n st.
Proof.
  intros Hpdf HX. unfold class_prob.
  generalize (seq 0 (clusters st !!! k_)). intros js.
  assert (H : ∀ cp, length cp = n st →
            length (foldl (λ a j, posterior_body pdf st k_ j a) cp js) = n st).
  { induction js as [|j js IH]; intros cp Hcp; simpl; [done|].
    apply IH. unfold posterior_body.
    rewrite length_zip_with, length_map, bounded_variable_length, Hpdf, HX. lia. }
  apply H, length_replicate.
Qed.

(** X9.  On an object whose arrays have the constructor's shapes, with one
    cluster count and one class prior per class, and for a density primitive
    that returns one value per observation, [posterior_probs] returns an
    array with one row per stored observation and one column per class. *)
Theorem posterior_probs_shape pdf st :
  pdf_rows pdf → m_step_shapes (X st) st →
  length (clusters st) = k st → length (class_prior st) = k st →
  has_shape (n st) (k st) (posterior_probs pdf st).
Proof.
  intros Hpdf Hsh Hk _.
  assert (HX : length (X st) = n st).
  { destruct Hsh as (_ & _ & _ & _ & [HX _] & _). exact HX. }
  unfold posterior_probs. rewrite (posterior_fold pdf st Hk).
  fold (normalise_rows (k st)
          (foldl (λ M k_, set_col k_ (joint_col pdf st k_) M)
                 (nzeros (n st) (k st)) (seq 0 (k st)))).
  apply normalise_rows_shape.
  apply (fold_set_col_inv (joint_col pdf st) (n st) (k st) (nzeros (n st) (k st)) (k st));
    [apply zeros_shape| |lia].
  intros j _. unfold joint_col. rewrite length_map. by apply class_prob_length.
Qed.

Lemma posterior_probs_shape_witness :
  has_shape (n demo_fit) (k demo_fit) (posterior_probs tent_pdf demo_fit).
Proof.
  apply (posterior_probs_shape tent_pdf demo_fit tent_pdf_rows); by_eval.
Defined.

(** ** What the M-step stores *)

(** The M-step with all it establishes on well-shaped arrays. *)
Lemma m_step_result_shapes g gX st :
  g_X g = Some gX → m_step_shapes gX st → (0 < n st)%nat →
  ∃ L M C,
    m_step g st = Ok (set_covar (with_estimates st L M) C) ∧
    ∀ i, (i < k st)%nat →
      has_shape (m st) (clusters st !!! i) (M !!! i) ∧
      length (L !!! i) = clusters st !!! i ∧
      ∀ j, (j < clusters st !!! i)%nat →
        ncol j (M !!! i) = new_mean gX st i j ∧
        (L !!! i) !!! j = new_weight st i j.
Proof.
  intros Hg Hsh Hn.
  destruct (m_fold_inv gX st (components (clusters st) (seq 0 (k st)))
              (nzeros (m st) (m st)) Hsh Hn) as (L & M & Hfold & _ & _ & Hshapes & Hval).
  { intros i j [Hi Hj]%elem_of_components. apply elem_of_seq in Hi. split; [lia|done]. }
  exists L, M. eexists. split.
  - unfold m_step.
    replace (st, nzeros (m st) (m st))
      with (with_estimates st (latent_var_prior st) (mu st), nzeros (m st) (m st))
      by (by destruct st).
    rewrite (m_step_loops g gX) by done.
    replace (with_estimates st (latent_var_prior st) (mu st)) with st by (by destruct st).
    rewrite Hfold. reflexivity.
  - intros i Hi. destruct (Hshapes i Hi) as [H1 H2]. split; [done|]. split; [done|].
    intros j Hj. apply Hval, elem_of_components. split; [|done].
    apply elem_of_seq. lia.
Qed.

(** X10.  With the module-level [X] bound to finite data [gX], a component of
    finite masked responsibilities with a non-zero sum gets as mean the
    weighted mean of the rows of [gX] (so of the stored data when the script
    binds [X] to it), entry [a] being [Σ_t gX[t,a]·w[t] / Σ_t w[t]], and as
    mixing weight [Σ_t w[t] / freq[i]]. *)
Theorem m_step_means g gX st i j :
  g_X g = Some gX → m_step_shapes gX st → (0 < n st)%nat → fin_mat gX →
  (i < k st)%nat → (j < clusters st !!! i)%nat →
  fin_vec (class_indicator st i j) → mass st i j ≠ Fin 0 →
  ∃ st', m_step g st = Ok st' ∧
    ncol j (mu st' !!! i)
    = vtab (m st) (λ a, bigsum (n st) (λ t, mval gX t a * masked_weight st i j t)
                        / bigsum (n st) (masked_weight st i j)) ∧
    (latent_var_prior st' !!! i) !!! j
    = ndiv (Fin (bigsum (n st) (masked_weight st i j))) (freq st !!! i).
Proof.
  intros Hg Hsh Hn HgX Hi Hj Hfin Hmass.
  destruct (m_step_result g gX st Hg Hsh Hn) as (L & M & Hm & Hval).
  destruct (Hval i j Hi Hj) as [Hmean Hweight].
  eexists. split; [exact Hm|]. simpl. rewrite Hmean, Hweight.
  pose proof (class_indicator_length gX st i j Hsh Hi) as Hlen.
  assert (Hw : class_indicator st i j = vtab (n st) (masked_weight st i j)).
  { pose proof (fin_vec_vtab _ Hfin) as Hw. rewrite Hlen in Hw. exact Hw. }
  destruct Hsh as (_ & _ & _ & _ & _ & HgXs & _).
  assert (Hne : bigsum (n st) (masked_weight st i j) ≠ 0).
  { intros E. apply Hmass. unfold mass. by rewrite Hw, nvsum_vtab, E. }
  split.
  - unfold new_mean, mass. rewrite Hw, nvsum_vtab.
    rewrite (fin_mat_tab _ _ _ HgXs HgX) at 1. rewrite weighted_sums_tab by done.
    by apply map_ndiv_vtab.
  - unfold new_weight, mass. by rewrite Hw, nvsum_vtab.
Qed.

Lemma m_step_means_witness :
  ∃ st', m_step demo_globals demo_assigned = Ok st' ∧
    ncol 1 (mu st' !!! 0%nat)
    = vtab (m demo_assigned)
        (λ a, bigsum (n demo_assigned)
                (λ t, mval demo_X t a * masked_weight demo_assigned 0 1 t)
              / bigsum (n demo_assigned) (masked_weight demo_assigned 0 1)) ∧
    (latent_var_prior st' !!! 0%nat) !!! 1%nat
    = ndiv (Fin (bigsum (n demo_assigned) (masked_weight demo_assigned 0 1)))
           (freq demo_assigned !!! 0%nat).
Proof.
  apply (m_step_means demo_globals demo_X demo_assigned 0 1).
  - reflexivity.
  - by_eval.
  - by_eval.
  - by_eval.
  - by_eval.
  - by_eval.
  - by_eval.
  - by_eval.
Defined.

Lemma vtab_of_lookups (v : vector) r f :
  length v = r → (∀ j, (j < r)%nat → v !!! j = Fin (f j)) → v = vtab r f.
Proof.
  intros Hlen Hv. apply list_eq. intros j.
  destruct (decide (j < r)%nat) as [Hj|Hj].
  - rewrite vtab_lookup by done.
    destruct (lookup_lt_is_Some_2 v j) as [x Hx]; [lia|].
    rewrite Hx. f_equal. rewrite <-(Hv j Hj).
    symmetry. by apply list_lookup_total_correct.
  - rewrite (proj2 (lookup_ge_None (vtab r f) j)) by (rewrite vtab_length; lia).
    apply lookup_ge_None. lia.
Qed.

(** X11.  For a class [i] with finite labels and responsibilities, a non-zero
    frequency equal to the sum of the label column, and responsibilities that
    sum to 1 in every row whose label for [i] is not zero, the mixing weights
    the M-step stores for the class add up to 1 in exact arithmetic (in
    float64: up to rounding). *)
Theorem m_step_weights_sum_to_one g gX st i :
  g_X g = Some gX → m_step_shapes gX st → (0 < n st)%nat → (i < k st)%nat →
  fin_mat (Y st) → fin_mat (responsibilities st !!! i) →
  freq st !!! i = nvsum (ncol i (Y st)) → freq st !!! i ≠ Fin 0 →
  (∀ t, (t < n st)%nat → mval (Y st) t i ≠ 0 →
        nvsum ((responsibilities st !!! i) !!! t) = Fin 1) →
  ∃ st', m_step g st = Ok st' ∧
         length (latent_var_prior st' !!! i) = clusters st !!! i ∧
         nvsum (latent_var_prior st' !!! i) = Fin 1.
Proof.
  intros Hg Hsh Hn Hi HYfin HRfin Hfreq Hfreq0 Hrows.
  destruct (m_step_result_shapes g gX st Hg Hsh Hn) as (L & M & C & Hm & Hval).
  destruct (Hval i Hi) as (_ & HLlen & HLval).
  exists (set_covar (with_estimates st L M) C). split; [exact Hm|]. simpl.
  split; [done|].
  pose proof Hsh as (_ & _ & _ & HYs & _ & _ & _).
  destruct (m_step_shapes_lookup gX st i Hsh Hi) as (_ & _ & HRs).
  set (c := clusters st !!! i) in *.
  set (y := mval (Y st)). set (r := mval (responsibilities st !!! i)).
  assert (HYt : Y st = tab (n st) (k st) y) by (by apply fin_mat_tab).
  assert (HRt : responsibilities st !!! i = tab (n st) c r) by (by apply fin_mat_tab).
  set (F := bigsum (n st) (λ t, y t i)).
  assert (HF : freq st !!! i = Fin F).
  { rewrite Hfreq. rewrite HYt at 1. rewrite ncol_tab by done. apply nvsum_vtab. }
  assert (HF0 : F ≠ 0) by (intros E; apply Hfreq0; by rewrite HF, E).
  assert (Hw : ∀ j, (j < c)%nat →
            (L !!! i) !!! j = Fin (bigsum (n st) (λ t, y t i * r t j) / F)).
  { intros j Hj. destruct (HLval j Hj) as [_ ->].
    unfold new_weight, mass, class_indicator.
    rewrite HF. rewrite HYt at 1. rewrite HRt at 1.
    rewrite !ncol_tab by done.
    rewrite (zip_with_vtab nmul Qcmult) by done.
    rewrite nvsum_vtab. by apply ndiv_fin. }
  rewrite (vtab_of_lookups _ _ _ HLlen Hw), nvsum_vtab. f_equal.
  assert (Hrow : ∀ t, (t < n st)%nat → y t i ≠ 0 → bigsum c (r t) = 1).
  { intros t Ht Hy. specialize (Hrows t Ht Hy).
    rewrite HRt in Hrows.
    rewrite (list_lookup_total_correct _ _ _ (tab_lookup _ _ _ _ Ht)) in Hrows.
    rewrite nvsum_vtab in Hrows. by injection Hrows. }
  rewrite (bigsum_ext _ _ (λ j, bigsum (n st) (λ t, y t i * r t j) * / F))
    by (intros; done).
  rewrite bigsum_scale_r, bigsum_swap.
  rewrite (bigsum_ext _ _ (λ t, y t i)).
  - fold F. by field.
  - intros t Ht. rewrite bigsum_scale_l.
    destruct (decide (y t i = 0)) as [->|Hy]; [ring|].
    rewrite (Hrow t Ht Hy). ring.
Qed.

Lemma m_step_weights_sum_to_one_witness :
  ∃ st', m_step demo_globals demo_assigned = Ok st' ∧
         length (latent_var_prior st' !!! 0%nat) = clusters demo_assigned !!! 0%nat ∧
         nvsum (latent_var_prior st' !!! 0%nat) = Fin 1.
Proof.
  apply (m_step_weights_sum_to_one demo_globals demo_X demo_assigned 0).
  - reflexivity.
  - by_eval.
  - by_eval.
  - by_eval.
  - by_eval.
  - by_eval.
  - by_eval.
  - by_eval.
  - change (n demo_assigned) with 4%nat. intros t Ht.
    destruct t as [|[|[|[|t]]]]; [| | | |lia]; intros Hy;
      first [by_eval | exfalso; apply Hy; by_eval].
Defined.

(** ** The E-step and the responsibilities it receives *)

Lemma fold_set_col_later (cols : nat → vector) (M : matrix) j0 j :
  (∀ j', length (cols j') = length M) → (j0 ≤ j)%nat →
  length (foldl (λ M j, set_col j (cols j) M) M (seq 0 j0)) = length M ∧
  ncol j (foldl (λ M j, set_col j (cols j) M) M (seq 0 j0)) = ncol j M.
Proof.
  intros Hcols. induction j0 as [|j0 IH]; intros Hj; [done|].
  rewrite seq_S, foldl_snoc.
  destruct IH as [Hlen Hcol]; [lia|].
  set (U := foldl _ M (seq 0 j0)) in *. simpl.
  split.
  - unfold set_col. rewrite length_zip_with, Hlen, Hcols. lia.
  - rewrite ncol_set_col_ne; [done| |lia]. by rewrite Hlen, Hcols.
Qed.

Section EStepBound.
Variable pdf : matrix → vector → matrix → vector.
Variable ln : num → num.

Lemma e_step_fold_both st i (M : matrix) lb j0 :
  pdf_rows pdf → length (X st) = n st → length M = n st →
  foldl (λ a j, e_step_body pdf ln st i j a) (M, lb) (seq 0 j0)
  = (foldl (λ M j, set_col j (unnormalised pdf st i j) M) M (seq 0 j0),
     foldl (λ lb j, nadd lb (bound_term pdf ln st i j (ncol j M))) lb (seq 0 j0)).
Proof.
  intros Hpdf HX HM. induction j0 as [|j0 IH]; [done|].
  rewrite !seq_S, !foldl_snoc, IH. simpl.
  destruct (fold_set_col_later (unnormalised pdf st i) M j0 j0) as [_ Hcol]; [|lia|].
  { intros j'. rewrite HM. by apply unnormalised_length. }
  unfold e_step_body. f_equal. unfold bound_term, clipped. by rewrite Hcol.
Qed.

Lemma e_step_class_snd st i (M : matrix) lb :
  pdf_rows pdf → length (X st) = n st → length M = n st →
  snd (e_step_class pdf ln st i (M, lb)) = class_bound pdf ln st i M lb.
Proof.
  intros Hpdf HX HM. unfold e_step_class.
  by rewrite (e_step_fold_both st i M lb _ Hpdf HX HM).
Qed.

Lemma e_step_classes_snd st i0 resps lb :
  pdf_rows pdf → length (X st) = n st →
  Forall (λ M : matrix, length M = n st) resps →
  snd (e_step_classes pdf ln st i0 resps lb) = classes_bound pdf ln st i0 resps lb.
Proof.
  intros Hpdf HX Hall. revert i0 lb.
  induction Hall as [|M resps HM _ IH]; intros i0 lb; [done|].
  simpl. pose proof (e_step_class_snd st i0 M lb Hpdf HX HM) as Hsnd.
  destruct (e_step_class pdf ln st i0 (M, lb)) as [M' lb1]. simpl in Hsnd. subst lb1.
  specialize (IH (S i0) (class_bound pdf ln st i0 M lb)).
  by destruct (e_step_classes pdf ln st (S i0) resps _).
Qed.
End EStepBound.

(** X12.  The lower bound an E-step appends is computed entirely from the
    responsibilities the step receives (those of the previous step), although
    the step overwrites them column by column while it adds the bound up. *)
Theorem e_step_lower_bound pdf ln st :
  pdf_rows pdf → length (X st) = n st →
  Forall (λ M : matrix, length M = n st) (responsibilities st) →
  lower_bounds (e_step pdf ln st) = lower_bounds st ++ [lower_bound pdf ln st].
Proof.
  intros Hpdf HX Hall. unfold e_step, lower_bound.
  pose proof (e_step_classes_snd pdf ln st 0 (responsibilities st) n0 Hpdf HX Hall) as H.
  destruct (e_step_classes _ _ _ _ _ _) as [resps lb]. simpl in *. by rewrite H.
Qed.

Lemma e_step_lower_bound_witness :
  lower_bounds (e_step tent_pdf tangent_ln demo_iter1)
  = lower_bounds demo_iter1 ++ [lower_bound tent_pdf tangent_ln demo_iter1].
Proof.
  apply (e_step_lower_bound tent_pdf tangent_ln demo_iter1 tent_pdf_rows); by_eval.
Defined.

Lemma fold_set_col_indep (cols : nat → vector) r c (M M' : matrix) :
  has_shape r c M → has_shape r c M' →
  (∀ j, (j < c)%nat → length (cols j) = r) →
  foldl (λ M j, set_col j (cols j) M) M (seq 0 c)
  = foldl (λ M j, set_col j (cols j) M) M' (seq 0 c).
Proof.
  intros HM HM' Hcols.
  destruct (fold_set_col_inv cols r c M c HM Hcols) as [[Hr Hc] H]; [lia|].
  destruct (fold_set_col_inv cols r c M' c HM' Hcols) as [[Hr' Hc'] H']; [lia|].
  set (U := foldl _ M _) in *. set (U' := foldl _ M' _) in *.
  apply list_eq. intros t.
  destruct (U !! t) as [row|] eqn:E; destruct (U' !! t) as [row'|] eqn:E'.
  - f_equal. apply list_eq. intros j.
    destruct (decide (j < c)%nat) as [Hj|Hj].
    + by rewrite (H t row E j Hj), (H' t row' E' j Hj).
    + rewrite (proj2 (lookup_ge_None row j)), (proj2 (lookup_ge_None row' j)); [done| |].
      * rewrite (Forall_lookup_1 _ _ _ _ Hc' E'). lia.
      * rewrite (Forall_lookup_1 _ _ _ _ Hc E). lia.
  - apply lookup_lt_Some in E. apply lookup_ge_None in E'. lia.
  - apply lookup_lt_Some in E'. apply lookup_ge_None in E. lia.
  - done.
Qed.

(** X13.  The E-step overwrites the responsibilities completely: what it leaves
    depends on the parameters only, not on the responsibilities it receives
    (of the same shapes). *)
Theorem e_step_overwrites pdf ln st (R' : list matrix) :
  pdf_rows pdf → length (X st) = n st →
  length R' = length (responsibilities st) →
  (∀ i, (i < length (responsibilities st))%nat →
        has_shape (n st) (clusters st !!! i) (responsibilities st !!! i) ∧
        has_shape (n st) (clusters st !!! i) (R' !!! i)) →
  responsibilities (e_step pdf ln (set_responsibilities st R'))
  = responsibilities (e_step pdf ln st).
Proof.
  intros Hpdf HX Hlen Hsh. apply list_eq. intros i.
  destruct (decide (i < length (responsibilities st))%nat) as [Hi|Hi].
  - destruct (lookup_lt_is_Some_2 (responsibilities st) i Hi) as [M HM].
    destruct (lookup_lt_is_Some_2 R' i) as [M' HM']; [lia|].
    rewrite (e_step_responsibilities pdf ln st i M HM).
    rewrite (e_step_responsibilities pdf ln (set_responsibilities st R') i M' HM').
    destruct (Hsh i Hi) as [H1 H2].
    rewrite (list_lookup_total_correct _ _ _ HM) in H1.
    rewrite (list_lookup_total_correct _ _ _ HM') in H2.
    f_equal. f_equal.
    apply (fold_set_col_indep (unnormalised pdf st i) (n st) (clusters st !!! i));
      [done|done|].
    intros j _. by apply unnormalised_length.
  - rewrite !(proj2 (lookup_ge_None _ i)); [done| |].
    + unfold e_step.
      pose proof (e_step_classes_length pdf ln st 0 (responsibilities st) n0) as H.
      destruct (e_step_classes _ _ _ _ _ _) as [resps lb]. simpl in *. lia.
    + unfold e_step.
      pose proof (e_step_classes_length pdf ln (set_responsibilities st R') 0 R' n0) as H.
      simpl. destruct (e_step_classes _ _ _ _ _ _) as [resps lb]. simpl in *. lia.
Qed.

Lemma e_step_overwrites_witness :
  responsibilities (e_step tent_pdf tangent_ln
                      (set_responsibilities demo_init (responsibilities demo_iter1)))
  = responsibilities (e_step tent_pdf tangent_ln demo_init).
Proof.
  apply (e_step_overwrites tent_pdf tangent_ln demo_init (responsibilities demo_iter1)
           tent_pdf_rows).
  - by_eval.
  - by_eval.
  - change (length (responsibilities demo_init)) with 2%nat. intros i Hi.
    destruct i as [|[|i]]; [by_eval|by_eval|lia].
Defined.

(** ** The initialisation: where the k-means labels go, and failures *)

Lemma select_rows_length {A} (mask : list bool) (a : list A) :
  length a = length mask →
  length (select_rows mask a) = length (filter (λ b, b = true) mask).
Proof.
  revert a. induction mask as [|b mask IH]; intros a Ha; destruct a as [|r a];
    simpl in Ha; try done.
  destruct b.
  - rewrite filter_cons_True by done. simpl. f_equal. apply IH. lia.
  - rewrite filter_cons_False by done. simpl. apply IH. lia.
Qed.

Lemma rank_S_true mask t : rank (true :: mask) (S t) = S (rank mask t).
Proof.
  unfold rank. change (take (S t) (true :: mask)) with (true :: take t mask).
  by rewrite filter_cons_True.
Qed.

Lemma rank_S_false mask t : rank (false :: mask) (S t) = rank mask t.
Proof.
  unfold rank. change (take (S t) (false :: mask)) with (false :: take t mask).
  by rewrite filter_cons_False.
Qed.

Lemma assign_masked_length j mask vals (a : matrix) :
  length (assign_masked j mask vals a) = length a.
Proof.
  revert vals a. induction mask as [|b mask IH]; intros vals a;
    destruct a as [|r a]; simpl; try done.
  destruct b.
  - destruct vals as [|v vals]; simpl; [done|]. f_equal. apply IH.
  - simpl. f_equal. apply IH.
Qed.

Lemma assign_masked_lookup j (mask : list bool) (vals : vector) (a : matrix) t row :
  length a = length mask →
  length vals = length (filter (λ b, b = true) mask) →
  a !! t = Some row →
  assign_masked j mask vals a !! t
  = Some (if (mask !!! t : bool) then <[j := vals !!! rank mask t]> row else row).
Proof.
  revert vals a t. induction mask as [|b mask IH]; intros vals a t Ha Hv Ht;
    destruct a as [|r a]; simpl in Ha; try done.
  destruct b.
  - rewrite filter_cons_True in Hv by done. destruct vals as [|v vals]; [done|].
    simpl in Hv. destruct t as [|t].
    + simpl in *. by injection Ht as ->.
    + rewrite rank_S_true. simpl in *. apply IH; [lia|lia|done].
  - rewrite filter_cons_False in Hv by done.
    destruct t as [|t]; [simpl in *; done|].
    rewrite rank_S_false. simpl in *. apply IH; [lia|done|done].
Qed.

Lemma one_hot_col_lookup prediction j q :
  (q < length prediction)%nat →
  one_hot_col prediction j !!! q = if decide (prediction !!! q = j) then n1 else n0.
Proof.
  intros Hq. destruct (lookup_lt_is_Some_2 prediction q Hq) as [p Hp].
  apply list_lookup_total_correct. unfold one_hot_col.
  by rewrite list_lookup_fmap, Hp, (list_lookup_total_correct _ _ _ Hp).
Qed.

(** Writing the entries of a one-hot row into columns [0 .. c-1] of a row of
    length [c] leaves that one-hot row. *)
Lemma fold_insert_one_hot prediction c q (row : vector) :
  length row = c → (q < length prediction)%nat →
  foldl (λ r j, <[j := one_hot_col prediction j !!! q]> r) row (seq 0 c)
  = one_hot_row prediction c q.
Proof.
  intros Hrow Hq.
  assert (Hinv : ∀ j0, (j0 ≤ c)%nat →
    let r' := foldl (λ r j, <[j := one_hot_col prediction j !!! q]> r) row (seq 0 j0) in
    length r' = c ∧
    ∀ j, (j < j0)%nat →
         r' !! j = Some (if decide (prediction !!! q = j) then n1 else n0)).
  { induction j0 as [|j0 IH]; intros Hj0; cbv zeta.
    - split; [done|]. intros; lia.
    - rewrite seq_S, foldl_snoc. simpl.
      destruct IH as [Hlen IH]; [lia|].
      split; [by rewrite length_insert|].
      intros j Hj. destruct (decide (j = j0)) as [->|Hne].
      + rewrite list_lookup_insert_eq by lia. by rewrite one_hot_col_lookup.
      + rewrite list_lookup_insert_ne by done. apply IH. lia. }
  destruct (Hinv c) as [Hlen Hval]; [lia|].
  apply list_eq. intros j. unfold one_hot_row. rewrite list_lookup_fmap.
  destruct (decide (j < c)%nat) as [Hj|Hj].
  - rewrite (Hval j Hj), lookup_seq_lt by done. done.
  - rewrite lookup_seq_ge by lia. apply lookup_ge_None. lia.
Qed.

Lemma rank_lt (mask : list bool) t :
  (t < length mask)%nat → mask !!! t = true →
  (rank mask t < length (filter (λ b, b = true) mask))%nat.
Proof.
  revert t. induction mask as [|b mask IH]; intros t Ht Hm; simpl in Ht; [lia|].
  destruct t as [|t].
  - simpl in Hm. subst b. rewrite filter_cons_True by done.
    unfold rank. rewrite take_0, filter_nil. simpl. apply Nat.lt_0_succ.
  - simpl in Hm. destruct b.
    + rewrite rank_S_true, filter_cons_True by done. simpl.
      apply ->Nat.succ_lt_mono. apply IH; [by apply Nat.succ_lt_mono|done].
    + rewrite rank_S_false, filter_cons_False by done.
      apply IH; [by apply Nat.succ_lt_mono|done].
Qed.

(** X14.  When k-means returns one label per selected row, the loop over the
    components of class [i] leaves the responsibilities of the other classes
    alone, leaves the rows of class [i] whose label is not 1 as they were
    (zero on a new object), and puts in every row labelled 1 the one-hot
    encoding of the k-means label of that observation. *)
Theorem initialise_class_one_hot fp st i cluster prediction :
  fp (kmeans_of st cluster) (select_rows (label_mask st i) (X st)) = Some prediction →
  length prediction = length (select_rows (label_mask st i) (X st)) →
  length (X st) = n st → length (Y st) = n st →
  (i < length (responsibilities st))%nat →
  has_shape (n st) cluster (responsibilities st !!! i) →
  ∃ R,
    initialise_class fp (i, cluster) st
    = Ok (set_responsibilities st (<[i := R]> (responsibilities st))) ∧
    length R = n st ∧
    ∀ t, (t < n st)%nat →
      R !!! t = if (label_mask st i !!! t : bool)
                then one_hot_row prediction cluster (rank (label_mask st i) t)
                else (responsibilities st !!! i) !!! t.
Proof.
  intros Hfp Hpred HX HY Hi [HRlen HRrows].
  set (mask := label_mask st i) in *.
  set (R0 := responsibilities st !!! i) in *.
  assert (Hmask : length mask = n st).
  { unfold mask, label_mask. by rewrite length_map, ncol_length. }
  assert (Hsel : length prediction = length (filter (λ b, b = true) mask)).
  { rewrite Hpred. apply select_rows_length. lia. }
  set (upd := λ (row : vector) j0 q,
         foldl (λ r j, <[j := one_hot_col prediction j !!! q]> r) row (seq 0 j0)).
  assert (Hinv : ∀ j0, (j0 ≤ cluster)%nat →
    ∃ R, foldl (λ s j, set_responsibilities s
                  (<[i := assign_masked j (label_mask s i) (one_hot_col prediction j)
                             (responsibilities s !!! i)]> (responsibilities s)))
               st (seq 0 j0)
         = set_responsibilities st (<[i := R]> (responsibilities st)) ∧
         length R = n st ∧
         ∀ t, (t < n st)%nat →
           R !! t = Some (if (mask !!! t : bool) then upd (R0 !!! t) j0 (rank mask t)
                          else R0 !!! t)).
  { induction j0 as [|j0 IH]; intros Hj0.
    - exists R0. simpl. split; [|split; [done|]].
      + unfold R0. rewrite list_insert_id'; [by destruct st|].
        intros _. apply list_lookup_lookup_total_lt. done.
      + intros t Ht. unfold upd. simpl.
        rewrite (list_lookup_lookup_total_lt R0 t) by lia. by destruct (mask !!! t).
    - destruct IH as (R & Hfold & HlenR & Hrows); [lia|].
      rewrite seq_S, foldl_snoc, Hfold. simpl.
      rewrite list_lookup_total_insert_eq by done.
      rewrite list_insert_insert_eq.
      exists (assign_masked j0 mask (one_hot_col prediction j0) R).
      split; [done|]. split; [by rewrite assign_masked_length|].
      intros t Ht.
      rewrite (assign_masked_lookup j0 mask (one_hot_col prediction j0) R t _
                 ltac:(lia) ltac:(unfold one_hot_col; by rewrite length_map)
                 (Hrows t Ht)).
      f_equal. destruct (mask !!! t); [|done].
      unfold upd. by rewrite seq_S, foldl_snoc. }
  destruct (Hinv cluster) as (R & Hfold & HlenR & Hrows); [lia|].
  exists R. split; [|split; [done|]].
  - unfold initialise_class. fold mask. rewrite Hfp.
    rewrite (for_each_ok _ (λ j s, set_responsibilities s
               (<[i := assign_masked j (label_mask s i) (one_hot_col prediction j)
                          (responsibilities s !!! i)]> (responsibilities s)))).
    + by rewrite Hfold.
    + intros j s. by destruct (decide _).
  - intros t Ht. apply list_lookup_total_correct. rewrite (Hrows t Ht). f_equal.
    destruct (mask !!! t) eqn:Em; [|done].
    apply fold_insert_one_hot.
    + destruct (lookup_lt_is_Some_2 R0 t) as [row Hrow]; [lia|].
      rewrite (list_lookup_total_correct _ _ _ Hrow).
      by eapply (Forall_lookup_1 _ _ _ _ HRrows).
    + rewrite Hsel. apply rank_lt; [lia|done].
Qed.

Lemma initialise_class_one_hot_witness :
  ∃ R,
    initialise_class deal_fit_predict (0%nat, 2%nat) (class_prior_compute demo_new)
    = Ok (set_responsibilities (class_prior_compute demo_new)
            (<[0%nat := R]> (responsibilities (class_prior_compute demo_new)))) ∧
    length R = n (class_prior_compute demo_new) ∧
    ∀ t, (t < n (class_prior_compute demo_new))%nat →
      R !!! t = if (label_mask (class_prior_compute demo_new) 0 !!! t : bool)
                then one_hot_row [0; 1]%nat 2
                       (rank (label_mask (class_prior_compute demo_new) 0) t)
                else (responsibilities (class_prior_compute demo_new) !!! 0%nat) !!! t.
Proof.
  apply (initialise_class_one_hot deal_fit_predict (class_prior_compute demo_new)
           0 2 [0; 1]%nat).
  - by vm_compute.
  - by vm_compute.
  - by vm_compute.
  - by vm_compute.
  - vm_compute. lia.
  - by_eval.
Defined.

Lemma initialise_class_raise fp st ic s e s' :
  (∃ R, s = set_responsibilities st R) →
  initialise_class fp ic s = Raise e s' →
  e = ValueError ∧ ∃ R, s' = set_responsibilities st R.
Proof.
  intros HR. destruct ic as [i cluster]. unfold initialise_class.
  destruct (fp _ _) as [prediction|].
  - apply (for_each_raise_inv (λ a, ∃ R, a = set_responsibilities st R)
             (λ e s', e = ValueError ∧ ∃ R, s' = set_responsibilities st R));
      [done| |].
    + intros j a a' (R & ->). destruct (decide _); [|done].
      intros [= <-]. by eexists.
    + intros j a e' s'' (R & ->). destruct (decide _); [done|].
      intros [= <- <-]. split; [done|]. by eexists.
  - intros [= <- <-]. by split.
Qed.

(** X15.  On an object whose arrays have the constructor's shapes, with one
    cluster count per class, and with the module-level [X], when it is bound,
    of the shape of the stored data, [_initialise_params] fails in two ways
    only.  A failure of k-means, or of the assignment of its labels, is a
    [ValueError] raised before the M-step: the object then has its class
    prior, and its means, covariance and mixing weights are still those of
    before.  Otherwise the failure is the [NameError] of the M-step.  It is a
    [ValueError] whenever k-means fails for the first class. *)
Theorem initialise_params_failure fp g st out :
  m_step_shapes (X st) st → length (clusters st) = k st →
  length (freq st) = k st →
  (∀ gX, g_X g = Some gX → has_shape (n st) (m st) gX) →
  (∀ e s, initialise_params fp g st out = Raise e s →
     (e = ValueError ∧
      ∃ R, s = set_responsibilities (class_prior_compute st) R) ∨
     (e = NameError ∧ g_X g = None)) ∧
  (∀ c cl, clusters st = c :: cl →
     fp (kmeans_of st c)
        (select_rows (label_mask st 0) (X st)) = None →
     initialise_params fp g st out = Raise ValueError (class_prior_compute st)).
Proof.
  intros _ _ _ _. split.
  - intros e s. unfold initialise_params.
    destruct (for_each _ _ _) as [s1|e1 s1] eqn:E.
    + destruct (m_step g s1) as [s2|e2 s2] eqn:Em; [done|].
      intros [= <- <-]. right.
      exact (m_step_raise_unbound g s1 e2 s2 Em).
    + intros [= <- <-]. left.
      apply (for_each_raise_inv
               (λ a, ∃ R, a = set_responsibilities (class_prior_compute st) R)
               (λ e s', e = ValueError ∧
                        ∃ R, s' = set_responsibilities (class_prior_compute st) R))
        in E; [done| | |].
      * exists (responsibilities st). by destruct st.
      * intros ic a a'. apply initialise_class_frame.
      * intros ic a e' s'. apply initialise_class_raise.
  - intros c cl Hcl Hfp. unfold initialise_params.
    change (clusters (class_prior_compute st)) with (clusters st). rewrite Hcl.
    simpl. unfold initialise_class at 1.
    change (kmeans_of (class_prior_compute st) c) with (kmeans_of st c).
    change (label_mask (class_prior_compute st) 0) with (label_mask st 0).
    change (X (class_prior_compute st)) with (X st).
    by rewrite Hfp.
Qed.

Lemma initialise_params_failure_witness :
  initialise_params deal_fit_predict demo_globals starved_new []
  = Raise ValueError (class_prior_compute starved_new).
Proof.
  assert (Hsh : m_step_shapes (X starved_new) starved_new) by by_eval.
  assert (Hk : length (clusters starved_new) = k starved_new) by by_eval.
  assert (Hf : length (freq starved_new) = k starved_new) by by_eval.
  assert (Hb : ∀ gX, g_X demo_globals = Some gX →
                     has_shape (n starved_new) (m starved_new) gX).
  { intros gX [= <-]. by_eval. }
  destruct (initialise_params_failure deal_fit_predict demo_globals starved_new []
              Hsh Hk Hf Hb) as [_ H].
  apply (H 3%nat [1%nat]); [reflexivity|by vm_compute].
Defined.
